(** * EventBus: a shallow embedding of [src/services/EventBus.ts]

    The bus is a JavaScript class holding a [Map<string, Subscription[]>] and
    one more [Subscription[]] for the wildcard name.  Arrays are heap objects:
    [on] and [once] push into the stored array and sort it in place, [off]
    stores the result of [filter] (a new array), and [emit] iterates the array
    object it read from the map.  The embedding therefore keeps an explicit
    store of arrays addressed by location, so that an array captured by a loop
    and the array stored in the registry can be the same object or different
    ones, exactly as in the source.

    Numbers are modelled by [Z]: priorities and timeouts are integers.  A
    number is printed as JavaScript prints the double nearest to it.  A
    function reference is modelled by an identity.  The body of a
    user-supplied handler is modelled by a function that gives, from the
    arguments and the private state of the handlers, the calls it makes on
    the bus, its outcome and the new private state; [emit] awaits each
    handler, so these calls are all made before the next handler starts.  A
    handler that chooses its calls by what it reads from the bus is outside
    the model, and so are two emissions in progress at once: a handler that
    itself emits, or an emission started while a handler of another one is
    awaited.  Time is not measured: that a timer elapses is an event of its
    own, ordered with the calls. *)

From Stdlib Require Import ZArith Sorted.
From stdpp Require Import base option list gmap strings pretty.

Open Scope string_scope.
Open Scope list_scope.
Open Scope Z_scope.

(** ** JavaScript values seen by the bus *)

(** Arguments of an emission and thrown values ([unknown] in the source).
    [VError m] is any object for which [instanceof Error] holds, with
    [message = m]; [VObject] is a plain object without its own [toString]. *)
Inductive Value :=
  | VUndefined
  | VNull
  | VBool (b : bool)
  | VNum (n : Z)
  | VStr (s : string)
  | VObject
  | VError (message : string).

#[global] Instance Value_eq_dec : EqDecision Value.
Proof. solve_decision. Defined.

Definition dquote : string := String (Ascii.ascii_of_nat 34) EmptyString.

(** *** Numbers as strings

    [Number::toString] of ECMAScript for an integer.  Up to 2^53 every
    integer is a double and is printed by its decimal digits.  Above, the
    number is the nearest double; it is printed by the fewest significant
    digits that still determine it, followed by zeros below 10^21 and in
    exponent notation from there on.  An integer that rounds beyond the
    largest double is [Infinity]. *)

(** The double nearest to a positive integer, ties to the even mantissa. *)
Definition toDouble (v : Z) : Z :=
  let bits := Z.log2 v + 1 in
  if bits <=? 53 then v
  else
    let sh := bits - 53 in
    let q := Z.shiftr v sh in
    let r := Z.land v (Z.ones sh) in
    let half := Z.shiftl 1 (sh - 1) in
    let q' := if (half <? r) || ((r =? half) && Z.odd q) then q + 1 else q in
    Z.shiftl q' sh.

Definition digitCount (v : Z) : Z := Z.of_nat (String.length (pretty v)).

(** The number with [k] significant digits that reads back as the double
    [x], if there is one: of the two such numbers around [x], the nearer
    one, and on a tie the one whose last digit is even. *)
Definition candidate (x k : Z) : option Z :=
  let p := 10 ^ (digitCount x - k) in
  let lo := x / p in
  let vlo := lo * p in
  let vhi := (lo + 1) * p in
  match toDouble vlo =? x, toDouble vhi =? x with
  | true, true =>
      if x - vlo <? vhi - x then Some vlo
      else if vhi - x <? x - vlo then Some vhi
      else if Z.even lo then Some vlo else Some vhi
  | true, false => Some vlo
  | false, true => Some vhi
  | false, false => None
  end.

(** The candidate with the fewest digits, from [k] digits on. *)
Fixpoint shortest (fuel : nat) (x k : Z) : Z :=
  match fuel with
  | O => x
  | S fuel' =>
      match candidate x k with
      | Some v => v
      | None => shortest fuel' x (k + 1)
      end
  end.

(** A string of digits without its trailing zeros. *)
Fixpoint stripZeros (s : string) : string :=
  match s with
  | EmptyString => EmptyString
  | String c s' =>
      match stripZeros s' with
      | EmptyString =>
          if Ascii.eqb c (Ascii.ascii_of_nat 48) then EmptyString
          else String c EmptyString
      | t => String c t
      end
  end.

(** Exponent notation: [d.ddde+n]. *)
Definition exponential (v : Z) : string :=
  match stripZeros (pretty v) with
  | EmptyString => EmptyString
  | String c EmptyString => String c EmptyString +:+ "e+" +:+ pretty (digitCount v - 1)
  | String c rest => String c ("." +:+ rest) +:+ "e+" +:+ pretty (digitCount v - 1)
  end.

Definition NumberToString (n : Z) : string :=
  if Z.abs n <=? 2 ^ 53 then pretty n
  else
    let x := toDouble (Z.abs n) in
    let v := shortest (Z.to_nat (digitCount x)) x 1 in
    let body :=
      if 2 ^ 1024 <=? x then "Infinity"
      else if v <? 10 ^ 21 then pretty v else exponential v in
    if n <? 0 then "-" +:+ body else body.

(** [String(v)] of JavaScript. *)
Definition ToString (v : Value) : string :=
  match v with
  | VUndefined => "undefined"
  | VNull => "null"
  | VBool true => "true"
  | VBool false => "false"
  | VNum n => NumberToString n
  | VStr s => s
  | VObject => "[object Object]"
  | VError m => "Error: " +:+ m
  end.

Definition instanceofError (v : Value) : bool :=
  match v with VError _ => true | _ => false end.

(** [err instanceof Error ? err : new Error(String(err))] (lines 78 and 95). *)
Definition toError (err : Value) : Value :=
  if instanceofError err then err else VError (ToString err).

(** ** Handlers and subscriptions *)

(** A function reference.  [Fn id] is a function supplied by a caller of the
    bus; [Waiter k] is the closure [handler] created by the [k]-th call of
    [waitFor] (line 121), a fresh reference at each call. *)
Inductive Handler :=
  | Fn (id : nat)
  | Waiter (k : nat).

#[global] Instance Handler_eq_dec : EqDecision Handler.
Proof. solve_decision. Defined.

Module Subscription.
Record t := mk { handler : Handler; priority : Z; once : bool }.
End Subscription.
Abbreviation Subscription := Subscription.t.

#[global] Instance Subscription_eq_dec : EqDecision Subscription.
Proof. solve_decision. Defined.

#[global] Instance Subscription_inhabited : Inhabited Subscription :=
  populate (Subscription.mk (Fn 0) 0 false).

(** ** [Array.prototype.sort] with the comparator of the source *)

(** [(a, b) => b.priority - a.priority] *)
Definition compareFn (a b : Subscription) : Z :=
  Subscription.priority b - Subscription.priority a.

(** The sort of ECMAScript is stable; it is modelled by insertion sort, where
    an element is put in front of the first element it must not follow. *)
Fixpoint sort_insert (a : Subscription) (l : list Subscription) : list Subscription :=
  match l with
  | [] => [a]
  | b :: l' => if compareFn a b <=? 0 then a :: b :: l' else b :: sort_insert a l'
  end.

Fixpoint sort (l : list Subscription) : list Subscription :=
  match l with
  | [] => []
  | a :: l' => sort_insert a (sort l')
  end.

(** ** The bus object *)

Record Bus := mkBus {
  heap : gmap nat (list Subscription);   (* the array objects *)
  nextLoc : nat;                          (* next unused location *)
  listeners : gmap string nat;            (* Map<string, Subscription[]> *)
  wildcardListeners : nat                 (* Subscription[] *)
}.

(** Content of the array object at a location. *)
Definition deref (b : Bus) (l : nat) : list Subscription := heap b !!! l.

(** [new EventBus()] *)
Definition newBus : Bus :=
  {| heap := {[ 0%nat := [] ]}; nextLoc := 1; listeners := ∅; wildcardListeners := 0%nat |}.

(** A fresh array literal. *)
Definition alloc (v : list Subscription) (b : Bus) : nat * Bus :=
  (nextLoc b,
   {| heap := <[nextLoc b := v]> (heap b); nextLoc := S (nextLoc b);
      listeners := listeners b; wildcardListeners := wildcardListeners b |}).

(** Store into an existing array object (in-place mutation). *)
Definition store (l : nat) (v : list Subscription) (b : Bus) : Bus :=
  {| heap := <[l := v]> (heap b); nextLoc := nextLoc b;
     listeners := listeners b; wildcardListeners := wildcardListeners b |}.

Definition set_listeners (m : gmap string nat) (b : Bus) : Bus :=
  {| heap := heap b; nextLoc := nextLoc b; listeners := m;
     wildcardListeners := wildcardListeners b |}.

Definition set_wildcardListeners (l : nat) (b : Bus) : Bus :=
  {| heap := heap b; nextLoc := nextLoc b; listeners := listeners b;
     wildcardListeners := l |}.

(** [arr.push(s); arr.sort(compareFn)] on the array object at [l]. *)
Definition push_sort (l : nat) (s : Subscription) (b : Bus) : Bus :=
  store l (sort (deref b l ++ [s])) b.

Module EventBus.

(** Lines 13-29 and 31-47 differ only in the [once] flag; [register] is
    their common body. *)
Definition register (event : string) (handler : Handler) (priority : Z)
    (once : bool) (b : Bus) : Bus :=
  let sub := Subscription.mk handler priority once in
  if decide (event = "*") then push_sort (wildcardListeners b) sub b
  else
    match listeners b !! event with
    | Some subs => push_sort subs sub b
    | None =>
        let '(subs, b1) := alloc [] b in
        push_sort subs sub (set_listeners (<[event := subs]> (listeners b1)) b1)
    end.

Definition on (event : string) (handler : Handler) (priority : Z) (b : Bus) : Bus :=
  register event handler priority false b.

Definition once (event : string) (handler : Handler) (priority : Z) (b : Bus) : Bus :=
  register event handler priority true b.

(** Lines 49-66.  [filter] always builds a new array object. *)
Definition off (event : string) (handler : Handler) (b : Bus) : Bus :=
  if decide (event = "*") then
    let '(l, b1) :=
      alloc (filter (λ s, Subscription.handler s ≠ handler)
               (deref b (wildcardListeners b))) b in
    set_wildcardListeners l b1
  else
    match listeners b !! event with
    | None => b
    | Some subs =>
        let '(filtered, b1) :=
          alloc (filter (λ s, Subscription.handler s ≠ handler) (deref b subs)) b in
        if decide (length (deref b1 filtered) = 0%nat)
        then set_listeners (delete event (listeners b1)) b1
        else set_listeners (<[event := filtered]> (listeners b1)) b1
    end.

(** Lines 130-135. *)
Definition listenerCount (event : string) (b : Bus) : nat :=
  if decide (event = "*") then length (deref b (wildcardListeners b))
  else match listeners b !! event with
       | Some subs => length (deref b subs)
       | None => 0%nat
       end.

(** Lines 137-146; [None] is a call without argument.  The empty string is
    falsy, so it also takes the last branch. *)
Definition removeAllListeners (event : option string) (b : Bus) : Bus :=
  match event with
  | Some ev =>
      if decide (ev = "*") then
        let '(l, b1) := alloc [] b in set_wildcardListeners l b1
      else if decide (ev = EmptyString) then
        let '(l, b1) := alloc [] (set_listeners ∅ b) in set_wildcardListeners l b1
      else set_listeners (delete ev (listeners b)) b
  | None =>
      let '(l, b1) := alloc [] (set_listeners ∅ b) in set_wildcardListeners l b1
  end.

End EventBus.

(** ** Observations of the registry *)

(** [this.listeners.get(event) ?? []] as a sequence. *)
Definition specificOf (event : string) (b : Bus) : list Subscription :=
  match listeners b !! event with
  | Some l => deref b l
  | None => []
  end.

(** [this.wildcardListeners] as a sequence. *)
Definition wildcardOf (b : Bus) : list Subscription := deref b (wildcardListeners b).

(** The sequence a name designates for [on], [once], [off] and
    [listenerCount]. *)
Definition subsOf (event : string) (b : Bus) : list Subscription :=
  if decide (event = "*") then wildcardOf b else specificOf event b.

(** ** Handlers at run time *)

(** A bus call made by the body of a handler while it runs. *)
Inductive Action :=
  | AOn (event : string) (h : Handler) (priority : Z)
  | AOnce (event : string) (h : Handler) (priority : Z)
  | AOff (event : string) (h : Handler)
  | ARemoveAll (event : option string).

Definition is_removal (a : Action) : bool :=
  match a with
  | AOff _ _ | ARemoveAll _ => true
  | AOn _ _ _ | AOnce _ _ _ => false
  end.

Definition run_action (a : Action) (b : Bus) : Bus :=
  match a with
  | AOn e h p => EventBus.on e h p b
  | AOnce e h p => EventBus.once e h p b
  | AOff e h => EventBus.off e h b
  | ARemoveAll e => EventBus.removeAllListeners e b
  end.

Definition run_actions (acts : list Action) (b : Bus) : Bus :=
  foldl (λ b a, run_action a b) b acts.

(** What [await sub.handler(...)] gives: normal completion, or a thrown value
    (a synchronous throw or the rejection of the returned promise). *)
Inductive Outcome :=
  | Returns
  | Throws (v : Value).

#[global] Instance Outcome_eq_dec : EqDecision Outcome.
Proof. solve_decision. Defined.

(** Timer created by [setTimeout] in [waitFor]; [Armed] keeps what the
    callback closes over. *)
Inductive Timer :=
  | Armed (event : string) (timeout : Z)
  | Cleared
  | Fired.

(** State of the promise returned by [waitFor]. *)
Inductive Promise :=
  | Pending
  | Fulfilled (args : list Value)
  | Rejected (reason : Value).

(** One handler invocation, as observed from outside. *)
Record Call := mkCall { callee : Handler; argv : list Value; result : Outcome }.

(** Outcome of [emit]: the promise resolves with no value, rejects with
    [new AggregateError(errors, message)] (lines 106-111), or rejects with an
    exception that left the function before that. *)
Inductive EmitResult :=
  | Resolved
  | AggregateError (errors : list Value) (message : string)
  | Uncaught (err : Value).

(** The bodies of the user handlers: given its arguments and the private
    state of the handlers (what their closures capture), a body performs bus
    calls, ends normally or throws, and leaves a new state. *)
Abbreviation Bodies S := (nat → list Value → S → list Action * Outcome * S).

(** ** The running program: bus, handler state, timers and promises *)

Section Dispatch.

Context {HState : Type}.
Variable behave : Bodies HState.

Record World := mkWorld {
  bus : Bus;
  hstate : HState;
  timers : gmap nat Timer;
  promises : gmap nat Promise;
  nextWait : nat
}.

Definition set_bus (b : Bus) (w : World) : World :=
  {| bus := b; hstate := hstate w; timers := timers w;
     promises := promises w; nextWait := nextWait w |}.

Definition newWorld (st : HState) : World :=
  {| bus := newBus; hstate := st; timers := ∅; promises := ∅; nextWait := 0%nat |}.

(** [clearTimeout(timer)]: only a pending timer is affected. *)
Definition clearTimeout (k : nat) (tm : gmap nat Timer) : gmap nat Timer :=
  match tm !! k with
  | Some (Armed _ _) => <[k := Cleared]> tm
  | _ => tm
  end.

(** [resolve(v)] and [reject(r)] of a promise: no effect once settled. *)
Definition settle (k : nat) (p : Promise) (pm : gmap nat Promise) : gmap nat Promise :=
  match pm !! k with
  | Some Pending => <[k := p]> pm
  | _ => pm
  end.

(** [await handler(...argv)].  The closure of [waitFor] (lines 121-124)
    clears its timer and resolves its promise with the arguments. *)
Definition invoke (h : Handler) (args : list Value) (w : World) : World * Outcome :=
  match h with
  | Fn f =>
      let '(acts, out, st) := behave f args (hstate w) in
      ({| bus := run_actions acts (bus w); hstate := st; timers := timers w;
          promises := promises w; nextWait := nextWait w |}, out)
  | Waiter k =>
      ({| bus := bus w; hstate := hstate w; timers := clearTimeout k (timers w);
          promises := settle k (Fulfilled args) (promises w);
          nextWait := nextWait w |}, Returns)
  end.

(** Loop state of one [for (const sub of arr)] pass of [emit]. *)
Record Pass := mkPass {
  world : World;
  errors : list Value;
  toRemove : list Handler;
  calls : list Call
}.

(** The body of the loops at lines 74-83 and 91-100, for the element
    [sub]: invoke, record a failure, remember a once-handler. *)
Definition pass_step (args : list Value) (st : Pass) (sub : Subscription) : Pass :=
  let '(w', out) := invoke (Subscription.handler sub) args (world st) in
  {| world := w';
     errors := match out with
               | Throws err => errors st ++ [toError err]
               | Returns => errors st
               end;
     toRemove := if Subscription.once sub
                 then toRemove st ++ [Subscription.handler sub]
                 else toRemove st;
     calls := calls st ++ [mkCall (Subscription.handler sub) args out] |}.

(** The loops themselves.  The array iterator holds the array object [arr]
    and an index [i]; at each step it reads the current length and the
    current element of that object.  [fuel] bounds the number of
    iterations: the loop need not end when handlers keep pushing into the
    array under iteration. *)
Fixpoint run_pass (fuel : nat) (arr : nat) (i : nat) (args : list Value)
    (st : Pass) : option Pass :=
  match fuel with
  | O => None
  | S fuel' =>
      match deref (bus (world st)) arr !! i with
      | None => Some st
      | Some sub => run_pass fuel' arr (S i) args (pass_step args st sub)
      end
  end.

(** The loops at lines 85-87 and 102-104. *)
Definition prune (event : string) (hs : list Handler) (w : World) : World :=
  set_bus (foldl (λ b h, EventBus.off event h b) (bus w) hs) w.

(** The message of line 109. *)
Definition summary (n : nat) (event : string) : string :=
  pretty n +:+ " handler(s) threw during " +:+ dquote +:+ event +:+ dquote.

(** Lines 106-111: how the promise of [emit] settles. *)
Definition outcome (errors : list Value) (event : string) : EmitResult :=
  if decide (0 < length errors)%nat
  then AggregateError errors (summary (length errors) event)
  else Resolved.

(** Line 71, [this.listeners.get(event) ?? []]: the stored array object, or
    a fresh empty one. *)
Definition getListeners (event : string) (w : World) : nat * World :=
  match listeners (bus w) !! event with
  | Some l => (l, w)
  | None => let '(l, b) := alloc [] (bus w) in (l, set_bus b w)
  end.

(** Lines 68-112.  Returns the final state, the outcome of the returned
    promise and the handler invocations in the order they were made. *)
Definition emit (fuel : nat) (event : string) (args : list Value) (w : World)
    : option (World * EmitResult * list Call) :=
  let '(subs, w0) := getListeners event w in
  p1 ← run_pass fuel subs 0 args (mkPass w0 [] [] []);
  let w2 := prune event (toRemove p1) (world p1) in
  p2 ← run_pass fuel (wildcardListeners (bus w2)) 0 (VStr event :: args)
         (mkPass w2 (errors p1) [] (calls p1));
  let w4 := prune "*" (toRemove p2) (world p2) in
  Some (w4, outcome (errors p2) event, calls p2).

(** The message of line 118. *)
Definition timeoutMessage (event : string) (timeout : Z) : string :=
  "waitFor(" +:+ dquote +:+ event +:+ dquote +:+ ") timed out after "
    +:+ NumberToString timeout +:+ "ms".

(** Lines 114-128.  Returns the new state and the index of the promise. *)
Definition waitFor (event : string) (timeout : Z) (w : World) : World * nat :=
  let k := nextWait w in
  ({| bus := EventBus.once event (Waiter k) 0 (bus w);
      hstate := hstate w;
      timers := <[k := Armed event timeout]> (timers w);
      promises := <[k := Pending]> (promises w);
      nextWait := S k |}, k).

(** The callback of [setTimeout] (lines 116-119); it runs when the timer
    elapses while still pending. *)
Definition timerElapses (k : nat) (w : World) : World :=
  match timers w !! k with
  | Some (Armed event timeout) =>
      {| bus := EventBus.off event (Waiter k) (bus w);
         hstate := hstate w;
         timers := <[k := Fired]> (timers w);
         promises := settle k (Rejected (VError (timeoutMessage event timeout)))
                       (promises w);
         nextWait := nextWait w |}
  | _ => w
  end.

(** *** The dispatcher as the specification words it

    Section 4.2 of the specification: snapshot the sequence, then iterate
    that snapshot strictly in order.  These two definitions follow the
    specification, not the source; they are compared with [run_pass] and
    [emit] below. *)
Definition snapshot_pass (snapshot : list Subscription) (args : list Value)
    (st : Pass) : Pass :=
  foldl (pass_step args) st snapshot.

Definition snapshot_emit (event : string) (args : list Value) (w : World)
    : World * EmitResult * list Call :=
  let '(subs, w0) := getListeners event w in
  let p1 := snapshot_pass (deref (bus w0) subs) args (mkPass w0 [] [] []) in
  let w2 := prune event (toRemove p1) (world p1) in
  let p2 := snapshot_pass (wildcardOf (bus w2)) (VStr event :: args)
              (mkPass w2 (errors p1) [] (calls p1)) in
  let w4 := prune "*" (toRemove p2) (world p2) in
  (w4, outcome (errors p2) event, calls p2).

(** The [k]-th [waitFor], called for [event] with [timeout], is still
    waiting: its promise is pending, its timer is pending, and its one-shot
    subscription is registered. *)
Definition waiting (k : nat) (event : string) (timeout : Z) (w : World) : Prop :=
  promises w !! k = Some Pending ∧
  timers w !! k = Some (Armed event timeout) ∧
  Subscription.mk (Waiter k) 0 true ∈ subsOf event (bus w).

(** Calls made on the bus from outside a handler. *)
Inductive Op :=
  | OOn (event : string) (f : nat) (priority : Z)
  | OOnce (event : string) (f : nat) (priority : Z)
  | OOff (event : string) (f : nat)
  | OEmit (fuel : nat) (event : string) (args : list Value)
  | OWaitFor (event : string) (timeout : Z)
  | ORemoveAll (event : option string)
  | OTimer (k : nat).

(** One call; [None] when an emission does not finish within its fuel. *)
Definition run_op (o : Op) (w : World) : option World :=
  match o with
  | OOn e f p => Some (set_bus (EventBus.on e (Fn f) p (bus w)) w)
  | OOnce e f p => Some (set_bus (EventBus.once e (Fn f) p (bus w)) w)
  | OOff e f => Some (set_bus (EventBus.off e (Fn f) (bus w)) w)
  | OEmit fuel e args => r ← emit fuel e args w; Some r.1.1
  | OWaitFor e t => Some (waitFor e t w).1
  | ORemoveAll e => Some (set_bus (EventBus.removeAllListeners e (bus w)) w)
  | OTimer k => Some (timerElapses k w)
  end.

Fixpoint run_ops (os : list Op) (w : World) : option World :=
  match os with
  | [] => Some w
  | o :: os' => w' ← run_op o w; run_ops os' w'
  end.

(** *** Classes of handler bodies and states *)

(** No handler body calls the bus. *)
Definition quiet : Prop := ∀ f args st, (behave f args st).1.1 = [].


(** States the program can be in between two calls from outside. *)
Definition reachable (w : World) : Prop :=
  ∃ st os, run_ops os (newWorld st) = Some w.

End Dispatch.

Arguments World : clear implicits.
Arguments Pass : clear implicits.


(** ** Handler bodies used in the examples *)

(** Handler 1 throws the string [x], handler 2 throws an [Error]; the
    others return.  None calls the bus. *)
Definition quietBodies (f : nat) (args : list Value) (st : unit)
    : list Action * Outcome * unit :=
  match f with
  | 1%nat => ([], Throws (VStr "x"), tt)
  | 2%nat => ([], Throws (VError "boom"), tt)
  | _ => ([], Returns, tt)
  end.


(** Handler 3 registers handler 0 on [ping] at priority 0.  Handler 5
    registers handler 0 on [ping] at priority 10, the first time it runs
    only (its state remembers that it has run). *)
Definition registeringBodies (f : nat) (args : list Value) (st : bool)
    : list Action * Outcome * bool :=
  match f with
  | 3%nat => ([AOn "ping" (Fn 0) 0], Returns, st)
  | 5%nat => if st then ([], Returns, st)
             else ([AOn "ping" (Fn 0) 10], Returns, true)
  | _ => ([], Returns, st)
  end.

(** Every handler registers itself once more on [ping] each time it
    runs. *)
Definition selfRegisteringBodies (f : nat) (args : list Value) (st : unit)
    : list Action * Outcome * unit :=
  ([AOn "ping" (Fn f) 0], Returns, tt).

(** The scenario of section 8 of the specification: on [ping], handler 1
    (throwing [x]) at priority 10 and handler 0 (returning) at priority 1;
    and handler 2 (throwing an [Error]) on the wildcard name. *)
Definition pingWorld : World unit :=
  set_bus
    (EventBus.on "*" (Fn 2) 0
       (EventBus.on "ping" (Fn 0) 1 (EventBus.on "ping" (Fn 1) 10 newBus)))
    (newWorld tt).

(** ** Reading a list of invocations *)

(** What one invocation adds to the error collection of [emit]. *)
Definition failure (o : Outcome) : list Value :=
  match o with
  | Throws err => [toError err]
  | Returns => []
  end.

(** The failures of a list of invocations, in order. *)
Definition failures (cs : list Call) : list Value :=
  flat_map (λ c, failure (result c)) cs.

(** The handlers of the once-subscriptions of a sequence, in order. *)
Definition onceHandlers (l : list Subscription) : list Handler :=
  Subscription.handler <$> filter (λ s, Subscription.once s = true) l.

(** ** Invariants of the registry *)

(** Sorted by descending priority. *)
Definition descending (l : list Subscription) : Prop :=
  StronglySorted (λ a b, Subscription.priority b ≤ Subscription.priority a) l.


(** Where a stable descending sort puts a subscription pushed at the end of
    a sorted array: behind every subscription of higher or equal priority and
    in front of the first one of lower priority. *)
Fixpoint place (s : Subscription) (l : list Subscription) : list Subscription :=
  match l with
  | [] => [s]
  | b :: l' =>
      if Subscription.priority b <? Subscription.priority s
      then s :: b :: l'
      else b :: place s l'
  end.

(** Every array object of the bus is sorted. *)
Definition bus_sorted (b : Bus) : Prop := ∀ l, descending (deref b l).

(** What holds of the bus between any two calls: arrays are sorted, the
    registry refers to allocated array objects, no array object is stored
    under two names, and the wildcard name is not a key of the map. *)
Record bus_inv (b : Bus) : Prop := {
  inv_sorted : bus_sorted b;
  inv_wild : (wildcardListeners b < nextLoc b)%nat;
  inv_bound : ∀ e l, listeners b !! e = Some l → (l < nextLoc b)%nat;
  inv_sep : ∀ e, listeners b !! e ≠ Some (wildcardListeners b);
  inv_inj : ∀ e1 e2 l,
    listeners b !! e1 = Some l → listeners b !! e2 = Some l → e1 = e2;
  inv_star : listeners b !! "*" = None
}.

(** The map of specific events holds no stale key: every stored sequence
    has an element. *)
Definition keys_nonempty (b : Bus) : Prop :=
  ∀ e l, listeners b !! e = Some l → deref b l ≠ [].

(** * The dispatcher in full

    [emit] above takes handlers whose bodies call [on], [once], [off] and
    [removeAllListeners], and throw values that [String] converts.  The
    definitions of this module lift both limits.  While [emit] awaits a
    handler, its body may also call [waitFor] and the timers of earlier
    [waitFor] calls may elapse; and a handler may throw an object that
    [String] cannot convert, such as [Object.create(null)].  The conversion
    of lines 78 and 95 then throws a [TypeError] inside the [catch] clause:
    the exception leaves the loop and [emit], whose promise rejects with
    it. *)

Module Full.

(** A thrown value: a value of the model, or an object without [toString]
    and [valueOf]. *)
Inductive Thrown :=
  | Plain (v : Value)
  | Bare.

#[global] Instance Thrown_eq_dec : EqDecision Thrown.
Proof. solve_decision. Defined.

(** The [TypeError] thrown by [String] on a [Bare] object. *)
Definition typeError : Value := VError "Cannot convert object to primitive value".

(** [err instanceof Error ? err : new Error(String(err))] (lines 78 and 95):
    the value pushed on [errors], or [None] when the conversion throws. *)
Definition wrap (t : Thrown) : option Value :=
  match t with
  | Plain v => Some (if instanceofError v then v else VError (ToString v))
  | Bare => None
  end.

(** What [await sub.handler(...)] gives. *)
Inductive Completion :=
  | Returns
  | Throws (t : Thrown).

#[global] Instance Completion_eq_dec : EqDecision Completion.
Proof. solve_decision. Defined.

(** What happens on the bus while a handler is awaited: a call made by its
    body or by other code that runs meanwhile, or a timer of [waitFor] that
    elapses meanwhile. *)
Inductive Effect :=
  | Does (a : Action)
  | WaitsFor (event : string) (timeout : Z)
  | Elapses (k : nat).

(** The effects that add a subscription. *)
Definition registers (ef : Effect) : bool :=
  match ef with
  | Does a => negb (is_removal a)
  | WaitsFor _ _ => true
  | Elapses _ => false
  end.

(** One handler invocation, as observed from outside. *)
Record Call := mkCall { callee : Handler; argv : list Value; result : Completion }.

Section Dispatch.

Context {HState : Type}.
Variable behave : nat → list Value → HState → list Effect * Completion * HState.

Definition perform (w : World HState) (ef : Effect) : World HState :=
  match ef with
  | Does a => set_bus (run_action a (bus w)) w
  | WaitsFor event timeout => (waitFor event timeout w).1
  | Elapses k => timerElapses k w
  end.

(** [await handler(...argv)]. *)
Definition invoke (h : Handler) (args : list Value) (w : World HState)
    : World HState * Completion :=
  match h with
  | Fn f =>
      let '(efs, out, st) := behave f args (hstate w) in
      (foldl perform
         {| bus := bus w; hstate := st; timers := timers w;
            promises := promises w; nextWait := nextWait w |} efs, out)
  | Waiter k =>
      ({| bus := bus w; hstate := hstate w; timers := clearTimeout k (timers w);
          promises := settle k (Fulfilled args) (promises w);
          nextWait := nextWait w |}, Returns)
  end.

(** Loop state of one [for (const sub of arr)] pass; [thrown] is the
    exception that has left the loop, if any. *)
Record Pass := mkPass {
  world : World HState;
  errors : list Value;
  toRemove : list Handler;
  calls : list Call;
  thrown : option Value
}.

(** The body of the loops at lines 74-83 and 91-100.  When the conversion
    in the [catch] clause throws, nothing is pushed and lines 80-82 are not
    reached. *)
Definition pass_step (args : list Value) (st : Pass) (sub : Subscription) : Pass :=
  let '(w', out) := invoke (Subscription.handler sub) args (world st) in
  let remove := if Subscription.once sub
                then toRemove st ++ [Subscription.handler sub]
                else toRemove st in
  let made := calls st ++ [mkCall (Subscription.handler sub) args out] in
  match out with
  | Returns =>
      {| world := w'; errors := errors st; toRemove := remove; calls := made;
         thrown := None |}
  | Throws t =>
      match wrap t with
      | Some err =>
          {| world := w'; errors := errors st ++ [err]; toRemove := remove;
             calls := made; thrown := None |}
      | None =>
          {| world := w'; errors := errors st; toRemove := toRemove st;
             calls := made; thrown := Some typeError |}
      end
  end.

(** The loops: the iterator reads the live array object at each step, and
    an exception ends the loop. *)
Fixpoint run_pass (fuel : nat) (arr : nat) (i : nat) (args : list Value)
    (st : Pass) : option Pass :=
  match fuel with
  | O => None
  | S fuel' =>
      match deref (bus (world st)) arr !! i with
      | None => Some st
      | Some sub =>
          let st' := pass_step args st sub in
          match thrown st' with
          | Some _ => Some st'
          | None => run_pass fuel' arr (S i) args st'
          end
      end
  end.

(** Lines 68-112. *)
Definition emit (fuel : nat) (event : string) (args : list Value) (w : World HState)
    : option (World HState * EmitResult * list Call) :=
  let '(subs, w0) := getListeners event w in
  p1 ← run_pass fuel subs 0 args (mkPass w0 [] [] [] None);
  match thrown p1 with
  | Some err => Some (world p1, Uncaught err, calls p1)
  | None =>
      let w2 := prune event (toRemove p1) (world p1) in
      p2 ← run_pass fuel (wildcardListeners (bus w2)) 0 (VStr event :: args)
             (mkPass w2 (errors p1) [] (calls p1) None);
      match thrown p2 with
      | Some err => Some (world p2, Uncaught err, calls p2)
      | None =>
          Some (prune "*" (toRemove p2) (world p2), outcome (errors p2) event, calls p2)
      end
  end.

(** One call from outside a handler. *)
Definition run_op (o : Op) (w : World HState) : option (World HState) :=
  match o with
  | OOn e f p => Some (set_bus (EventBus.on e (Fn f) p (bus w)) w)
  | OOnce e f p => Some (set_bus (EventBus.once e (Fn f) p (bus w)) w)
  | OOff e f => Some (set_bus (EventBus.off e (Fn f) (bus w)) w)
  | OEmit fuel e args => r ← emit fuel e args w; Some r.1.1
  | OWaitFor e t => Some (waitFor e t w).1
  | ORemoveAll e => Some (set_bus (EventBus.removeAllListeners e (bus w)) w)
  | OTimer k => Some (timerElapses k w)
  end.

Fixpoint run_ops (os : list Op) (w : World HState) : option (World HState) :=
  match os with
  | [] => Some w
  | o :: os' => w' ← run_op o w; run_ops os' w'
  end.

Definition reachable (w : World HState) : Prop :=
  ∃ st os, run_ops os (newWorld st) = Some w.

(** The invocations [handler(...args)] of [targets], made one after the
    other from the private state [st]: each with the completion that its body
    gives in the state left by the previous ones.  The closure of a [waitFor]
    returns. *)
Fixpoint replay (targets : list (Handler * list Value)) (st : HState)
    : list Call * HState :=
  match targets with
  | [] => ([], st)
  | (h, args) :: rest =>
      let '(out, st1) :=
        match h with
        | Fn f => ((behave f args st).1.2, (behave f args st).2)
        | Waiter _ => (Returns, st)
        end in
      (mkCall h args out :: (replay rest st1).1, (replay rest st1).2)
  end.

(** The invocations [cs] are those of the bodies: made in this order from
    the private state [st], they complete as [cs] records and leave [st']. *)
Definition performed (cs : list Call) (st st' : HState) : Prop :=
  replay ((λ c, (callee c, argv c)) <$> cs) st = (cs, st').

(** The state after the invocations [handler(...args)] of [targets], made
    one after the other. *)
Definition enact (targets : list (Handler * list Value)) (w : World HState)
    : World HState :=
  foldl (λ w t, (invoke t.1 t.2 w).1) w targets.

(** Nothing happens on the bus while a handler is awaited. *)
Definition quiet : Prop := ∀ f args st, (behave f args st).1.1 = [].

(** No subscription is added while a handler is awaited. *)
Definition no_registration : Prop :=
  ∀ f args st, Forall (λ ef, registers ef = false) (behave f args st).1.1.

(** Every value a handler throws is one that [String] converts. *)
Definition convertible : Prop :=
  ∀ f args st, (behave f args st).1.2 ≠ Throws Bare.

(** Timer [k] does not elapse while a handler is awaited. *)
Definition patient (k : nat) : Prop :=
  ∀ f args st, Elapses k ∉ (behave f args st).1.1.

End Dispatch.

Arguments Pass : clear implicits.

(** The failures that the invocations [cs] leave in the error collection:
    an [Error] as it is, any other value in a new [Error] whose message is
    that value as a string. *)
Definition recorded (cs : list Call) : list Value :=
  flat_map (λ c, match result c with
                 | Throws (Plain (VError m)) => [VError m]
                 | Throws (Plain VUndefined) => [VError "undefined"]
                 | Throws (Plain VNull) => [VError "null"]
                 | Throws (Plain (VBool true)) => [VError "true"]
                 | Throws (Plain (VBool false)) => [VError "false"]
                 | Throws (Plain (VNum n)) =>
                     [VError (if Z.abs n <=? 2 ^ 53 then pretty n else NumberToString n)]
                 | Throws (Plain (VStr s)) => [VError s]
                 | Throws (Plain VObject) => [VError "[object Object]"]
                 | Throws Bare => []
                 | Returns => []
                 end) cs.

End Full.

(** ** The states of a [waitFor]

    The [k]-th call of [waitFor], made for [event] with [timeout], is in one
    of three states: nothing has happened yet, its closure has been invoked,
    or its timer has elapsed. *)
Definition stillPending {S} (k : nat) (event : string) (timeout : Z) (w : World S)
    : Prop :=
  promises w !! k = Some Pending ∧ timers w !! k = Some (Armed event timeout).

Definition resolvedWith {S} (k : nat) (args : list Value) (w : World S) : Prop :=
  promises w !! k = Some (Fulfilled args) ∧ timers w !! k = Some Cleared.

Definition timedOut {S} (k : nat) (event : string) (timeout : Z) (w : World S)
    : Prop :=
  promises w !! k = Some (Rejected (VError (timeoutMessage event timeout))) ∧
  timers w !! k = Some Fired.

(** What is known of the [k]-th [waitFor] at some point: it has been called,
    and it is pending (if [mayPend]), or resolved with arguments that satisfy
    [A], or timed out (if [allow]). *)
Definition waitState {S} (k : nat) (event : string) (timeout : Z) (mayPend : Prop)
    (A : list Value → Prop) (allow : Prop) (w : World S) : Prop :=
  (k < nextWait w)%nat ∧
  ((mayPend ∧ stillPending k event timeout w) ∨
   (∃ args, A args ∧ resolvedWith k args w) ∨
   (allow ∧ timedOut k event timeout w)).

(** The invocations that a pass over [l] with [args] is to make. *)
Definition targets (args : list Value) (l : list Subscription)
    : list (Handler * list Value) :=
  (λ s, (Subscription.handler s, args)) <$> l.

(** The wildcard subscriptions that are stored when line 91 is reached,
    after the first loop of [emit(event, ...args)] has invoked the sequence
    captured for the event and lines 85-87 have pruned it. *)
Definition wildcardPass {S}
    (behave : nat → list Value → S → list Full.Effect * Full.Completion * S)
    (event : string) (args : list Value) (w : World S) : list Subscription :=
  let subs := specificOf event (bus w) in
  wildcardOf
    (bus (prune event (onceHandlers subs)
            (Full.enact behave (targets args subs) (getListeners event w).2))).

(** The handlers of [emit] as handlers of the full dispatcher. *)
Definition lift {S} (behave : Bodies S) (f : nat) (args : list Value) (st : S)
    : list Full.Effect * Full.Completion * S :=
  let '(acts, out, st') := behave f args st in
  (Full.Does <$> acts,
   match out with
   | Returns => Full.Returns
   | Throws v => Full.Throws (Full.Plain v)
   end,
   st').

(** ** Handlers of the full dispatcher used in the examples *)

(** Handlers that throw and do nothing else: handler 1 throws the string
    [x], handler 2 an [Error], handler 6 the number 42, handler 9
    [undefined] and handler 10 the number 10^21.  The others return. *)
Definition throwingBodies (f : nat) (args : list Value) (st : unit)
    : list Full.Effect * Full.Completion * unit :=
  match f with
  | 1%nat => ([], Full.Throws (Full.Plain (VStr "x")), tt)
  | 2%nat => ([], Full.Throws (Full.Plain (VError "boom")), tt)
  | 6%nat => ([], Full.Throws (Full.Plain (VNum 42)), tt)
  | 9%nat => ([], Full.Throws (Full.Plain VUndefined), tt)
  | 10%nat => ([], Full.Throws (Full.Plain (VNum (10 ^ 21))), tt)
  | _ => ([], Full.Returns, tt)
  end.

(** Handler 1 throws the string [x] and handler 7 an object that [String]
    cannot convert.  Handler 4 unsubscribes handler 1 from the wildcard
    name.  Handler 8 is slow: while it is awaited, the timer of the first
    [waitFor] elapses.  The others return. *)
Definition fullBodies (f : nat) (args : list Value) (st : unit)
    : list Full.Effect * Full.Completion * unit :=
  match f with
  | 1%nat => ([], Full.Throws (Full.Plain (VStr "x")), tt)
  | 4%nat => ([Full.Does (AOff "*" (Fn 1))], Full.Returns, tt)
  | 7%nat => ([], Full.Throws Full.Bare, tt)
  | 8%nat => ([Full.Elapses 0], Full.Returns, tt)
  | _ => ([], Full.Returns, tt)
  end.


(** The first time it runs, handler 6 registers handler 11 at priority 20
    and handler 12 at priority 9 on [ping], and handler 13 registers
    handler 0 on the wildcard name at priority 10. *)
Definition reorderingBodies (f : nat) (args : list Value) (st : bool)
    : list Action * Outcome * bool :=
  match f with
  | 6%nat => if st then ([], Returns, st)
             else ([AOn "ping" (Fn 11) 20; AOn "ping" (Fn 12) 9], Returns, true)
  | 13%nat => if st then ([], Returns, st)
              else ([AOn "*" (Fn 0) 10], Returns, true)
  | _ => ([], Returns, st)
  end.

(** On [ping]: handlers 1, 6, 2 and 10, which throw the string [x], the
    number 42, an [Error] and the number 10^21; on the wildcard name,
    handler 9, which throws [undefined]. *)
Definition throwingWorld : World unit :=
  set_bus
    (EventBus.on "*" (Fn 9) 0
       (EventBus.on "ping" (Fn 10) 0
          (EventBus.on "ping" (Fn 2) 1
             (EventBus.on "ping" (Fn 6) 5
                (EventBus.on "ping" (Fn 1) 10 newBus)))))
    (newWorld tt).

(** * StateMachine: the guarded transition table

    The class [StateMachine] of [src/__tests__/EventBus.test.ts], lines
    587-742 (its tests import it from [src/models/StateMachine]).

    States and events are strings.  A guard is modelled by a boolean function
    of the context, which neither throws nor changes the context, and a
    lifecycle hook by a function that returns or throws; a hook that calls
    back into the machine is outside the model.  [maxHistory] is an integer.
    [serialize] and [deserialize] go through JSON text and are not
    modelled. *)

(** [arr.join(sep)] for an array of strings. *)
Fixpoint join (sep : string) (l : list string) : string :=
  match l with
  | [] => EmptyString
  | [x] => x
  | x :: l' => x +:+ sep +:+ join sep l'
  end.

(** [[...new Set(arr)]]: the elements in the order of their first
    occurrence. *)
Fixpoint uniq (seen : list string) (l : list string) : list string :=
  match l with
  | [] => []
  | x :: l' => if decide (x ∈ seen) then uniq seen l' else x :: uniq (x :: seen) l'
  end.

Module StateMachine.

Record TransitionRule := mkRule {
  from : string;
  to : string;
  event : string;
  guard : option (gmap string Value → bool)
}.

Record LifecycleHooks := mkHooks {
  onEnter : option (string → string → Outcome);   (* state, previous *)
  onExit : option (string → string → Outcome)     (* state, next *)
}.

(** The fields of the class. *)
Record t := mk {
  current : string;
  transitions : list TransitionRule;
  history : list string;
  maxHistory : Z;
  context : gmap string Value;
  hooks : LifecycleHooks
}.

(** A call made to a hook. *)
Inductive HookCall :=
  | Exit (state next : string)
  | Enter (state previous : string).

(** A method either returns a value or throws one; in both cases it leaves
    the machine in some state. *)
Inductive Result (A : Type) :=
  | Returned (a : A) (m : t)
  | Threw (err : Value) (m : t).
Arguments Returned {A} a m.
Arguments Threw {A} err m.

Definition machine {A} (r : Result A) : t :=
  match r with Returned _ m => m | Threw _ m => m end.

(** The constructor (lines 613-627); [None] is an option left out. *)
Definition create (initial : string) (rules : list TransitionRule)
    (optMaxHistory : option Z) (optContext : option (gmap string Value))
    (optHooks : option LifecycleHooks) : t :=
  {| current := initial;
     transitions := rules;
     history := [];
     maxHistory := default 50 optMaxHistory;
     context := default ∅ optContext;
     hooks := default (mkHooks None None) optHooks |}.

(** [!t.guard || t.guard(this.context)] *)
Definition guardPasses (m : t) (r : TransitionRule) : bool :=
  match guard r with
  | None => true
  | Some g => g (context m)
  end.

(** The predicate of lines 655-658 and 678-681. *)
Definition matches (m : t) (ev : string) (r : TransitionRule) : bool :=
  String.eqb (from r) (current m) && String.eqb (event r) ev && guardPasses m r.

(** The predicate of lines 667-669. *)
Definition leaves (m : t) (r : TransitionRule) : bool :=
  String.eqb (from r) (current m) && guardPasses m r.

(** Lines 653-660. *)
Definition canTransition (ev : string) (m : t) : bool :=
  existsb (matches m ev) (transitions m).

(** Lines 662-674. *)
Definition getAvailableEvents (m : t) : list string :=
  uniq [] (map event (List.filter (leaves m) (transitions m))).

(** The message of lines 687-688. *)
Definition noTransitionMessage (ev : string) (m : t) : string :=
  "No valid transition for event " +:+ dquote +:+ ev +:+ dquote
    +:+ " from state " +:+ dquote +:+ current m +:+ dquote
    +:+ ". Available events: [" +:+ join ", " (getAvailableEvents m) +:+ "]".

(** [hook?.(a, b)] *)
Definition callHook (hook : option (string → string → Outcome)) (a b : string)
    : Outcome :=
  match hook with
  | Some f => f a b
  | None => Returns
  end.

(** Lines 696-699: push, then drop the oldest entry when over the bound. *)
Definition remember (previous : string) (m : t) : list string :=
  let h := history m ++ [previous] in
  if (maxHistory m <? Z.of_nat (length h)) then tail h else h.

(** The machine once lines 696-701 have run: [previous] is pushed on the
    history and [rule.to] is the current state. *)
Definition moved (rule : TransitionRule) (m : t) : t :=
  {| current := to rule;
     transitions := transitions m;
     history := remember (current m) m;
     maxHistory := maxHistory m;
     context := context m;
     hooks := hooks m |}.

(** Lines 676-706.  The second component lists the calls made to the hooks,
    in order. *)
Definition transition (ev : string) (m : t) : Result string * list HookCall :=
  match List.find (matches m ev) (transitions m) with
  | None => (Threw (VError (noTransitionMessage ev m)) m, [])
  | Some rule =>
      let previous := current m in
      let exitCalls :=
        match onExit (hooks m) with
        | Some _ => [Exit previous (to rule)]
        | None => []
        end in
      match callHook (onExit (hooks m)) previous (to rule) with
      | Throws err => (Threw err m, exitCalls)
      | Returns =>
          let enterCalls :=
            match onEnter (hooks m) with
            | Some _ => [Enter (to rule) previous]
            | None => []
            end in
          match callHook (onEnter (hooks m)) (to rule) previous with
          | Throws err => (Threw err (moved rule m), exitCalls ++ enterCalls)
          | Returns => (Returned (to rule) (moved rule m), exitCalls ++ enterCalls)
          end
      end
  end.

(** Lines 708-715. *)
Definition undo (m : t) : Result string :=
  match last (history m) with
  | None => Threw (VError "No history to undo") m
  | Some previous =>
      Returned previous
        {| current := previous;
           transitions := transitions m;
           history := removelast (history m);
           maxHistory := maxHistory m;
           context := context m;
           hooks := hooks m |}
  end.

(** Lines 717-721. *)
Definition reset (initial : string) (m : t) : t :=
  {| current := initial;
     transitions := transitions m;
     history := [];
     maxHistory := maxHistory m;
     context := ∅;
     hooks := hooks m |}.

(** Lines 645-647: the keys of [update] override those of the context. *)
Definition setContext (update : gmap string Value) (m : t) : t :=
  {| current := current m;
     transitions := transitions m;
     history := history m;
     maxHistory := maxHistory m;
     context := update ∪ context m;
     hooks := hooks m |}.

(** A call of a mutating method. *)
Inductive Op :=
  | OTransition (ev : string)
  | OUndo
  | OReset (initial : string)
  | OSetContext (update : gmap string Value).

(** The machine after a call, whether it returned or threw. *)
Definition run_op (o : Op) (m : t) : t :=
  match o with
  | OTransition ev => machine (transition ev m).1
  | OUndo => machine (undo m)
  | OReset initial => reset initial m
  | OSetContext update => setContext update m
  end.

Definition run_ops (os : list Op) (m : t) : t := foldl (λ m o, run_op o m) m os.

(** The events [evs] taken one after the other, as long as each transition
    returns. *)
Fixpoint transitionAll (evs : list string) (m : t) : option t :=
  match evs with
  | [] => Some m
  | ev :: evs' =>
      match (transition ev m).1 with
      | Returned _ m' => transitionAll evs' m'
      | Threw _ _ => None
      end
  end.

(** [undo], [n] times, as long as each returns. *)
Fixpoint undoN (n : nat) (m : t) : option t :=
  match n with
  | O => Some m
  | S n' =>
      match undo m with
      | Returned _ m' => undoN n' m'
      | Threw _ _ => None
      end
  end.

End StateMachine.

(** The machine of the tests: idle, loading, success, error. *)
Definition fetchRules : list StateMachine.TransitionRule :=
  [StateMachine.mkRule "idle" "loading" "FETCH" None;
   StateMachine.mkRule "loading" "success" "RESOLVE" None;
   StateMachine.mkRule "loading" "error" "REJECT" None;
   StateMachine.mkRule "error" "loading" "RETRY" None;
   StateMachine.mkRule "success" "idle" "RESET" None;
   StateMachine.mkRule "error" "idle" "RESET" None].

Definition fetchMachine : StateMachine.t :=
  StateMachine.create "idle" fetchRules None None None.

(** The history and the current state, oldest first: the states the machine
    went through. *)
Definition trail (m : StateMachine.t) : list string :=
  StateMachine.history m ++ [StateMachine.current m].

(** Some rule of the table leads from [a] to [b]. *)
Definition edge (rules : list StateMachine.TransitionRule) (a b : string) : Prop :=
  ∃ r, r ∈ rules ∧ StateMachine.from r = a ∧ StateMachine.to r = b.

(** Every state of [l] is followed by one that a rule leads to. *)
Fixpoint walk (rules : list StateMachine.TransitionRule) (l : list string) : Prop :=
  match l with
  | a :: (b :: _) as l' => edge rules a b ∧ walk rules l'
  | _ => True
  end.

(** A machine with two rules for one event; the first is guarded by the
    flag [vip] of the context. *)
Definition isVip (ctx : gmap string Value) : bool :=
  match ctx !! "vip" with
  | Some (VBool true) => true
  | _ => false
  end.

Definition doorRules : list StateMachine.TransitionRule :=
  [StateMachine.mkRule "lobby" "lounge" "ENTER" (Some isVip);
   StateMachine.mkRule "lobby" "hall" "ENTER" None;
   StateMachine.mkRule "hall" "lobby" "LEAVE" None;
   StateMachine.mkRule "lounge" "lobby" "LEAVE" None].

(** Hooks: [onEnter] throws on entering [hall], [onExit] throws on leaving
    [lounge]. *)
Definition doorHooks : StateMachine.LifecycleHooks :=
  StateMachine.mkHooks
    (Some (λ state _, if String.eqb state "hall"
                      then Throws (VError "hall is closed") else Returns))
    (Some (λ state _, if String.eqb state "lounge"
                      then Throws (VError "stay") else Returns)).

Definition doorMachine : StateMachine.t :=
  StateMachine.create "lobby" doorRules (Some 1) None (Some doorHooks).

(** * [clamp]

    [src/__tests__/EventBus.test.ts], lines 583-586.  A number is NaN or an
    integer: [clamp] compares and selects, it does no arithmetic. *)

Inductive Num :=
  | NaN
  | Int (z : Z).

(** [a > b]: false when an operand is NaN. *)
Definition num_gt (a b : Num) : bool :=
  match a, b with
  | Int x, Int y => y <? x
  | _, _ => false
  end.

(** [Math.max(a, b)] and [Math.min(a, b)]: NaN when an operand is NaN. *)
Definition Math_max (a b : Num) : Num :=
  match a, b with
  | Int x, Int y => Int (Z.max x y)
  | _, _ => NaN
  end.

Definition Math_min (a b : Num) : Num :=
  match a, b with
  | Int x, Int y => Int (Z.min x y)
  | _, _ => NaN
  end.

(** The thrown value on the left, the returned number on the right. *)
Definition clamp (value min max : Num) : Value + Num :=
  if num_gt min max then inl (VError "min must be <= max")
  else inr (Math_min (Math_max value min) max).

(** * SearchableList: the keyboard and the mouse

    The handlers [handleKeyDown] (lines 202-239) and [onClick] (lines
    308-312) of the component [SearchableList] in
    [src/src/services/EventBus.ts].  The state is what the two handlers read
    and write; the debounced filter of the query and the rendering are not
    modelled. *)

Module SearchableList.

(** [disabled] left out is [false]. *)
Record SearchableListItem := mkItem {
  id : string;
  label : string;
  description : option string;
  disabled : bool
}.

Record State := mkState {
  query : string;
  filtered : list SearchableListItem;
  activeIndex : Z
}.

Inductive Key :=
  | ArrowDown
  | ArrowUp
  | Enter
  | Escape
  | OtherKey (name : string).

(** [filtered.filter((i) => !i.disabled)] *)
Definition enabledItems (st : State) : list SearchableListItem :=
  List.filter (λ i, negb (disabled i)) (filtered st).

(** Lines 202-239: the state after the key, and the items passed to
    [onSelect]. *)
Definition handleKeyDown (k : Key) (st : State) : State * list SearchableListItem :=
  let n := Z.of_nat (length (enabledItems st)) in
  match k with
  | ArrowDown =>
      let next := activeIndex st + 1 in
      (mkState (query st) (filtered st) (if n <=? next then 0 else next), [])
  | ArrowUp =>
      let next := activeIndex st - 1 in
      (mkState (query st) (filtered st) (if next <? 0 then n - 1 else next), [])
  | Enter =>
      if (0 <=? activeIndex st) && (activeIndex st <? n)
      then (st, match enabledItems st !! Z.to_nat (activeIndex st) with
                | Some item => [item]
                | None => []
                end)
      else (st, [])
  | Escape => (mkState EmptyString (filtered st) (activeIndex st), [])
  | OtherKey _ => (st, [])
  end.

(** Lines 308-312: a click on the [index]-th rendered item. *)
Definition onClick (index : nat) (st : State) : list SearchableListItem :=
  match filtered st !! index with
  | Some item => if disabled item then [] else [item]
  | None => []
  end.

Inductive Input :=
  | KeyDown (k : Key)
  | Click (index : nat).

Definition input (i : Input) (st : State) : State * list SearchableListItem :=
  match i with
  | KeyDown k => handleKeyDown k st
  | Click index => (st, onClick index st)
  end.

(** A sequence of inputs: the final state and every item selected, in
    order. *)
Fixpoint inputs (l : list Input) (st : State) : State * list SearchableListItem :=
  match l with
  | [] => (st, [])
  | i :: l' =>
      let '(st1, sel1) := input i st in
      let '(st2, sel2) := inputs l' st1 in
      (st2, sel1 ++ sel2)
  end.

(** The state of the first render: [useState('')], [useState(items)],
    [useState(-1)]. *)
Definition initial (items : list SearchableListItem) : State :=
  mkState EmptyString items (-1).

End SearchableList.

(** Three fruits, the second one disabled. *)
Definition fruits : list SearchableList.SearchableListItem :=
  [SearchableList.mkItem "1" "Apple" None false;
   SearchableList.mkItem "2" "Banana" (Some "yellow") true;
   SearchableList.mkItem "3" "Cherry" None false].

(** ** Sorting *)

Lemma sort_insert_perm a l : sort_insert a l ≡ₚ a :: l.
Proof.
  induction l as [|b l IH]; simpl; [done|].
  destruct (compareFn a b <=? 0); [done|].
  rewrite IH. apply Permutation_swap.
Qed.

Lemma sort_perm l : sort l ≡ₚ l.
Proof.
  induction l as [|a l IH]; simpl; [done|].
  by rewrite sort_insert_perm, IH.
Qed.

Lemma descending_cons a l :
  descending (a :: l) ↔
  descending l ∧ Forall (λ b, Subscription.priority b ≤ Subscription.priority a) l.
Proof.
  unfold descending. split.
  - intros H. inversion H; subst. by split.
  - intros [H1 H2]. by constructor.
Qed.

Lemma descending_nil : descending [].
Proof. constructor. Qed.

Lemma sort_insert_descending a l : descending l → descending (sort_insert a l).
Proof.
  induction l as [|b l IH]; simpl; intros Hl.
  - apply descending_cons. split; [apply descending_nil | constructor].
  - apply descending_cons in Hl as Hl'. destruct Hl' as [Hd Hall].
    unfold compareFn. destruct (Z.leb_spec (Subscription.priority b - Subscription.priority a) 0).
    + apply descending_cons. split; [done|]. constructor; [lia|].
      eapply Forall_impl; [exact Hall|]. simpl. intros; lia.
    + apply descending_cons. split; [by apply IH|].
      rewrite sort_insert_perm. constructor; [lia | done].
Qed.

Lemma sort_descending l : descending (sort l).
Proof.
  induction l as [|a l IH]; simpl; [apply descending_nil|].
  by apply sort_insert_descending.
Qed.

Lemma sort_insert_head a l :
  Forall (λ b, Subscription.priority b ≤ Subscription.priority a) l →
  sort_insert a l = a :: l.
Proof.
  destruct l as [|b l]; simpl; [done|].
  intros H. apply Forall_cons in H as [H _]. unfold compareFn.
  destruct (Z.leb_spec (Subscription.priority b - Subscription.priority a) 0); [done | lia].
Qed.

Lemma sort_insert_place a s l :
  Forall (λ b, Subscription.priority b ≤ Subscription.priority a) l →
  sort_insert a (place s l) = place s (a :: l).
Proof.
  intros Hall. simpl.
  destruct (Z.ltb_spec (Subscription.priority a) (Subscription.priority s)) as [Hlt|Hge].
  - (* everything in [l] is below [s] as well *)
    assert (place s l = s :: l) as ->.
    { destruct l as [|b l]; simpl; [done|].
      apply Forall_cons in Hall as [Hb _].
      destruct (Z.ltb_spec (Subscription.priority b) (Subscription.priority s)); [done | lia]. }
    simpl. unfold compareFn.
    destruct (Z.leb_spec (Subscription.priority s - Subscription.priority a) 0); [lia|].
    by rewrite sort_insert_head.
  - apply sort_insert_head.
    rewrite (Forall_forall _ (place s l)). intros x Hx.
    assert (x ∈ s :: l) as Hx'.
    { clear -Hx. induction l as [|b l IH]; simpl in *; [done|].
      destruct (Subscription.priority b <? Subscription.priority s).
      - done.
      - apply elem_of_cons in Hx as [->|Hx].
        + apply elem_of_cons. right. apply elem_of_cons. by left.
        + apply IH, elem_of_cons in Hx as [->|Hx]; apply elem_of_cons; [by left|].
          right. apply elem_of_cons. by right. }
    apply elem_of_cons in Hx' as [->|Hx']; [lia|].
    by apply (proj1 (Forall_forall _ l) Hall).
Qed.

(** Pushing at the end of a sorted array and sorting is [place]. *)
Lemma sort_push l s : descending l → sort (l ++ [s]) = place s l.
Proof.
  induction l as [|a l IH]; intros Hl; [done|].
  apply descending_cons in Hl as [Hd Hall].
  change (sort ((a :: l) ++ [s])) with (sort_insert a (sort (l ++ [s]))).
  rewrite IH by done. by apply sort_insert_place.
Qed.

Lemma place_perm s l : place s l ≡ₚ l ++ [s].
Proof.
  induction l as [|b l IH]; simpl; [done|].
  destruct (Subscription.priority b <? Subscription.priority s).
  - change (s :: b :: l) with ([s] ++ (b :: l)).
    change (b :: l ++ [s]) with ((b :: l) ++ [s]). apply Permutation_app_comm.
  - by rewrite IH.
Qed.

Lemma place_descending s l : descending l → descending (place s l).
Proof. intros H. rewrite <- sort_push by done. apply sort_descending. Qed.

(** [place] splits the array in two and puts the new element between. *)
Lemma place_split s l :
  ∃ l1 l2, l = l1 ++ l2 ∧ place s l = l1 ++ s :: l2 ∧
    Forall (λ b, Subscription.priority s ≤ Subscription.priority b) l1.
Proof.
  induction l as [|b l (l1 & l2 & E1 & E2 & F)]; simpl.
  - by exists [], [].
  - destruct (Z.ltb_spec (Subscription.priority b) (Subscription.priority s)).
    + by exists [], (b :: l).
    + exists (b :: l1), l2. rewrite E1 at 1. rewrite E2. repeat split; try done.
      by constructor.
Qed.



Lemma filter_all {A} (P : A → Prop) `{∀ x, Decision (P x)} (l : list A) :
  (∀ x, x ∈ l → P x) → filter P l = l.
Proof.
  induction l as [|a l IH]; intros Hall; [done|].
  rewrite filter_cons_True by (apply Hall; by left).
  f_equal. apply IH. intros x Hx. apply Hall. by right.
Qed.

Lemma filter_descending (P : Subscription → Prop) `{∀ s, Decision (P s)} l :
  descending l → descending (filter P l).
Proof.
  induction l as [|a l IH]; intros Hl; [apply descending_nil|].
  apply descending_cons in Hl as [Hd Hall].
  rewrite filter_cons. case_decide; [|by apply IH].
  apply descending_cons. split; [by apply IH|].
  apply Forall_forall. intros x Hx. apply list_elem_of_filter in Hx as [_ Hx].
  by apply (proj1 (Forall_forall _ l) Hall).
Qed.

(** ** The store of array objects *)

Lemma deref_store b l v l' :
  deref (store l v b) l' = if decide (l = l') then v else deref b l'.
Proof. unfold deref, store; simpl. apply lookup_total_insert. Qed.

Lemma deref_alloc b v l' :
  deref (alloc v b).2 l' = if decide (nextLoc b = l') then v else deref b l'.
Proof. unfold deref, alloc; simpl. apply lookup_total_insert. Qed.

Lemma newBus_inv : bus_inv newBus.
Proof.
  split; simpl; try done; try lia.
  intros l. unfold deref, newBus; simpl.
  destruct (decide (l = 0%nat)) as [->|Hne].
  - rewrite lookup_total_singleton_eq. apply descending_nil.
  - rewrite lookup_total_singleton_ne by done. apply descending_nil.
Qed.

Lemma store_inv b l v : bus_inv b → descending v → bus_inv (store l v b).
Proof.
  intros [] Hv. split; try (simpl; done).
  intros l'. rewrite deref_store. case_decide; [done | apply inv_sorted0].
Qed.

Lemma alloc_inv b v : bus_inv b → descending v → bus_inv (alloc v b).2.
Proof.
  intros [] Hv. split; try (simpl; done); try (simpl; lia).
  - intros l'. rewrite deref_alloc. case_decide; [done | apply inv_sorted0].
  - simpl. intros e l He. apply inv_bound0 in He. lia.
Qed.

Lemma alloc_wildcard_inv b v :
  bus_inv b → descending v → bus_inv (set_wildcardListeners (nextLoc b) (alloc v b).2).
Proof.
  intros Hb Hv. destruct (alloc_inv b v Hb Hv). destruct Hb.
  split; simpl in *; try done; try lia.
  intros e He. apply inv_bound1 in He. lia.
Qed.

Lemma alloc_listener_inv b v e :
  bus_inv b → descending v → e ≠ "*" →
  bus_inv (set_listeners (<[e := nextLoc b]> (listeners b)) (alloc v b).2).
Proof.
  intros Hb Hv Hne. destruct (alloc_inv b v Hb Hv). destruct Hb.
  split; simpl in *; try done.
  - intros e' l. rewrite lookup_insert. case_decide.
    + intros [= <-]. lia.
    + apply inv_bound0.
  - intros e'. rewrite lookup_insert. case_decide.
    + intros [= E]. lia.
    + apply inv_sep0.
  - intros e1 e2 l. rewrite !lookup_insert. repeat case_decide; subst.
    + done.
    + intros [= <-] H2. apply inv_bound1 in H2. lia.
    + intros H1 [= <-]. apply inv_bound1 in H1. lia.
    + apply inv_inj0.
  - by rewrite lookup_insert_ne.
Qed.

Lemma delete_listener_inv b e :
  bus_inv b → bus_inv (set_listeners (delete e (listeners b)) b).
Proof.
  intros []. split; simpl; try done.
  - intros e' l H. apply lookup_delete_Some in H as [_ H]. by eapply inv_bound0.
  - intros e' H. apply lookup_delete_Some in H as [_ H]. by eapply inv_sep0.
  - intros e1 e2 l H1 H2. apply lookup_delete_Some in H1 as [_ H1].
    apply lookup_delete_Some in H2 as [_ H2]. by eapply inv_inj0.
  - apply lookup_delete_None. by right.
Qed.

Lemma clear_listeners_inv b : bus_inv b → bus_inv (set_listeners ∅ b).
Proof. intros []. split; simpl; done. Qed.

(** ** [on] and [once] *)

Lemma register_inv e h p o b : bus_inv b → bus_inv (EventBus.register e h p o b).
Proof.
  intros Hb. unfold EventBus.register, push_sort.
  case_decide; [apply store_inv; [done | apply sort_descending]|].
  destruct (listeners b !! e) as [l|] eqn:El.
  - apply store_inv; [done | apply sort_descending].
  - simpl. apply store_inv; [|apply sort_descending].
    by apply (alloc_listener_inv b []); [|apply descending_nil|].
Qed.

Lemma register_nextLoc e h p o b : (nextLoc b ≤ nextLoc (EventBus.register e h p o b))%nat.
Proof.
  unfold EventBus.register, push_sort. case_decide; [done|].
  destruct (listeners b !! e); simpl; lia.
Qed.

(** Unfolds the store operations down to map lookups. *)
Ltac heap_unfold :=
  unfold subsOf, wildcardOf, specificOf, deref, push_sort, store, alloc,
    set_listeners, set_wildcardListeners in *;
  simpl in *.

Ltac heap_cases :=
  repeat (rewrite ?lookup_total_insert, ?lookup_insert in *; case_decide; subst;
          simpl in *);
  try done; try lia.

(** The sequence designated by the name gets the new subscription, pushed
    and sorted. *)
Lemma register_subsOf e h p o b :
  subsOf e (EventBus.register e h p o b) = sort (subsOf e b ++ [Subscription.mk h p o]).
Proof.
  unfold EventBus.register. heap_unfold.
  case_decide; heap_unfold.
  - by rewrite lookup_total_insert_eq.
  - destruct (listeners b !! e) as [l|] eqn:El; heap_unfold.
    + by rewrite El, lookup_total_insert_eq.
    + by rewrite lookup_insert_eq, !lookup_total_insert_eq.
Qed.

(** Any other array object keeps its content. *)
Lemma register_subsOf_ne e e' h p o b :
  bus_inv b → e' ≠ e → subsOf e' (EventBus.register e h p o b) = subsOf e' b.
Proof.
  intros Hb Hne. unfold EventBus.register.
  pose proof (inv_wild b Hb) as Hw. pose proof (inv_sep b Hb) as Hs.
  pose proof (inv_bound b Hb) as Hbd. pose proof (inv_inj b Hb) as Hi.
  heap_unfold.
  destruct (decide (e = "*")) as [->|He]; heap_unfold.
  - rewrite !decide_False by done.
    destruct (listeners b !! e') as [l|] eqn:El; [|done].
    rewrite lookup_total_insert_ne; [done|]. intros ?; subst. by eapply Hs.
  - destruct (listeners b !! e) as [l|] eqn:El; heap_unfold.
    + case_decide.
      * rewrite lookup_total_insert_ne; [done|]. intros ?; subst. by eapply Hs.
      * destruct (listeners b !! e') as [l'|] eqn:El'; [|done].
        rewrite lookup_total_insert_ne; [done|]. intros ?; subst.
        destruct Hne. by eapply Hi.
    + case_decide.
      * rewrite !lookup_total_insert_ne; [done|lia|lia].
      * rewrite lookup_insert_ne by done.
        destruct (listeners b !! e') as [l'|] eqn:El'; [|done].
        apply Hbd in El'. rewrite !lookup_total_insert_ne; [done|lia|lia].
Qed.

(** An array object that exists before the call is either left alone or is
    the one pushed into. *)
Lemma register_deref e h p o b l :
  (l < nextLoc b)%nat →
  deref (EventBus.register e h p o b) l = deref b l ∨
  deref (EventBus.register e h p o b) l = sort (deref b l ++ [Subscription.mk h p o]).
Proof.
  intros Hl. unfold EventBus.register. heap_unfold.
  case_decide; heap_unfold.
  - rewrite lookup_total_insert. case_decide; subst; auto.
  - destruct (listeners b !! e) as [l'|]; heap_unfold.
    + rewrite lookup_total_insert. case_decide; subst; auto.
    + left. rewrite !lookup_total_insert_ne; [done|lia|lia].
Qed.

Lemma register_wildcard_listeners h p o b :
  listeners (EventBus.register "*" h p o b) = listeners b.
Proof. done. Qed.

(** ** [off] *)

Lemma off_inv e h b : bus_inv b → bus_inv (EventBus.off e h b).
Proof.
  intros Hb. unfold EventBus.off.
  case_decide.
  - simpl. apply alloc_wildcard_inv; [done|].
    apply filter_descending, (inv_sorted b Hb).
  - destruct (listeners b !! e) as [l|] eqn:El; [|done]. simpl.
    case_decide.
    + apply (delete_listener_inv (alloc _ b).2), alloc_inv; [done|].
      apply filter_descending, (inv_sorted b Hb).
    + apply alloc_listener_inv; [done| |done].
      apply filter_descending, (inv_sorted b Hb).
Qed.

Lemma off_nextLoc e h b : (nextLoc b ≤ nextLoc (EventBus.off e h b))%nat.
Proof.
  unfold EventBus.off. case_decide; simpl; [lia|].
  destruct (listeners b !! e); simpl; [|lia]. case_decide; simpl; lia.
Qed.

(** [off] never writes into an existing array object. *)
Lemma off_deref e h b l :
  (l < nextLoc b)%nat → deref (EventBus.off e h b) l = deref b l.
Proof.
  intros Hl. unfold EventBus.off. heap_unfold. case_decide; heap_unfold.
  - rewrite lookup_total_insert_ne; [done|lia].
  - destruct (listeners b !! e); heap_unfold; [|done].
    case_decide; heap_unfold; rewrite lookup_total_insert_ne; done || lia.
Qed.

Lemma off_subsOf e h b :
  subsOf e (EventBus.off e h b) = filter (λ s, Subscription.handler s ≠ h) (subsOf e b).
Proof.
  unfold EventBus.off. heap_unfold.
  case_decide; heap_unfold.
  - by rewrite lookup_total_insert_eq.
  - destruct (listeners b !! e) as [l|] eqn:El; heap_unfold; [|by rewrite El].
    rewrite lookup_total_insert_eq.
    case_decide as Hlen; heap_unfold.
    + rewrite lookup_delete_eq. symmetry. by apply nil_length_inv.
    + by rewrite lookup_insert_eq, lookup_total_insert_eq.
Qed.

Lemma off_subsOf_ne e e' h b :
  bus_inv b → e' ≠ e → subsOf e' (EventBus.off e h b) = subsOf e' b.
Proof.
  intros Hb Hne. unfold EventBus.off.
  pose proof (inv_wild b Hb) as Hw. pose proof (inv_bound b Hb) as Hbd.
  heap_unfold.
  destruct (decide (e = "*")) as [->|He]; heap_unfold.
  - rewrite !decide_False by done.
    destruct (listeners b !! e') as [l'|] eqn:El'; [|done].
    apply Hbd in El'. rewrite lookup_total_insert_ne; [done|lia].
  - destruct (listeners b !! e) as [l|] eqn:El; heap_unfold; [|done].
    destruct (decide (e' = "*")).
    + case_decide; heap_unfold; (rewrite lookup_total_insert_ne; [done|lia]).
    + case_decide; heap_unfold.
      * rewrite lookup_delete_ne by done.
        destruct (listeners b !! e') as [l'|] eqn:El'; [|done].
        apply Hbd in El'. rewrite lookup_total_insert_ne; [done|lia].
      * rewrite lookup_insert_ne by done.
        destruct (listeners b !! e') as [l'|] eqn:El'; [|done].
        apply Hbd in El'. rewrite lookup_total_insert_ne; [done|lia].
Qed.

(** ** [removeAllListeners] *)

Lemma removeAllListeners_inv e b : bus_inv b → bus_inv (EventBus.removeAllListeners e b).
Proof.
  intros Hb. unfold EventBus.removeAllListeners.
  destruct e as [ev|]; [case_decide; [|case_decide]|]; simpl.
  - apply alloc_wildcard_inv; [done | apply descending_nil].
  - apply (alloc_wildcard_inv (set_listeners ∅ b));
      [by apply clear_listeners_inv | apply descending_nil].
  - by apply delete_listener_inv.
  - apply (alloc_wildcard_inv (set_listeners ∅ b));
      [by apply clear_listeners_inv | apply descending_nil].
Qed.

Lemma removeAllListeners_nextLoc e b :
  (nextLoc b ≤ nextLoc (EventBus.removeAllListeners e b))%nat.
Proof.
  unfold EventBus.removeAllListeners.
  destruct e as [ev|]; [case_decide; [|case_decide]|]; simpl; lia.
Qed.

Lemma removeAllListeners_deref e b l :
  (l < nextLoc b)%nat → deref (EventBus.removeAllListeners e b) l = deref b l.
Proof.
  intros Hl. unfold EventBus.removeAllListeners. heap_unfold.
  destruct e as [ev|]; [case_decide; [|case_decide]|]; heap_unfold; try done;
    rewrite lookup_total_insert_ne; done || lia.
Qed.


(** ** Bus calls made by handler bodies *)

Lemma run_action_inv a b : bus_inv b → bus_inv (run_action a b).
Proof.
  destruct a; simpl; unfold EventBus.on, EventBus.once;
    auto using register_inv, off_inv, removeAllListeners_inv.
Qed.

Lemma run_action_nextLoc a b : (nextLoc b ≤ nextLoc (run_action a b))%nat.
Proof.
  destruct a; simpl; unfold EventBus.on, EventBus.once;
    auto using register_nextLoc, off_nextLoc, removeAllListeners_nextLoc.
Qed.

Lemma run_actions_inv acts b : bus_inv b → bus_inv (run_actions acts b).
Proof.
  revert b. induction acts as [|a acts IH]; intros b Hb; [done|].
  apply IH. by apply run_action_inv.
Qed.




(** ** One pass of the dispatcher *)

Section Passes.

Context {HState : Type}.
Variable behave : Bodies HState.


Lemma invoke_inv h args (w : World HState) :
  bus_inv (bus w) → bus_inv (bus (invoke behave h args w).1).
Proof.
  intros Hb. destruct h as [f|k]; simpl; [|done].
  destruct (behave f args (hstate w)) as [[acts out] st]. simpl.
  by apply run_actions_inv.
Qed.






(** The components of the loop state after one step. *)
Lemma pass_step_world args st sub :
  world (pass_step behave args st sub)
  = (invoke behave (Subscription.handler sub) args (world st)).1.
Proof.
  unfold pass_step. by destruct (invoke _ _ _ _).
Qed.

Lemma pass_step_bus_inv args (st : Pass HState) sub :
  bus_inv (bus (world st)) → bus_inv (bus (world (pass_step behave args st sub))).
Proof. rewrite pass_step_world. apply invoke_inv. Qed.

Lemma pass_step_errors args (st : Pass HState) sub :
  errors (pass_step behave args st sub)
  = errors st ++ failure (invoke behave (Subscription.handler sub) args (world st)).2.
Proof.
  unfold pass_step. destruct (invoke _ _ _ _) as [w' [|err]]; simpl; [|done].
  by rewrite app_nil_r.
Qed.

Lemma pass_step_calls args (st : Pass HState) sub :
  calls (pass_step behave args st sub)
  = calls st ++ [mkCall (Subscription.handler sub) args
                   (invoke behave (Subscription.handler sub) args (world st)).2].
Proof. unfold pass_step. by destruct (invoke _ _ _ _). Qed.


(** Whatever the handlers do, a pass that ends has only added invocations
    with the arguments of the pass, and exactly their failures. *)
Lemma run_pass_calls fuel arr i args (st st' : Pass HState) :
  run_pass behave fuel arr i args st = Some st' →
  ∃ cs, calls st' = calls st ++ cs ∧ Forall (λ c, argv c = args) cs ∧
        errors st' = errors st ++ failures cs.
Proof.
  revert i st. induction fuel as [|fuel IH]; intros i st; simpl; [done|].
  destruct (deref (bus (world st)) arr !! i) as [sub|].
  - intros H. apply IH in H as (cs & E1 & F & E2).
    rewrite pass_step_calls, <- app_assoc in E1.
    rewrite pass_step_errors, <- app_assoc in E2.
    eexists. split; [exact E1|]. split.
    + by constructor.
    + rewrite E2. unfold failures. simpl. done.
  - intros [= <-]. exists []. by rewrite !app_nil_r.
Qed.

Lemma run_pass_inv fuel arr i args (st st' : Pass HState) :
  run_pass behave fuel arr i args st = Some st' →
  bus_inv (bus (world st)) → bus_inv (bus (world st')).
Proof.
  revert i st. induction fuel as [|fuel IH]; intros i st; simpl; [done|].
  destruct (deref (bus (world st)) arr !! i) as [sub|].
  - intros H Hb. eapply IH; [exact H|]. by apply pass_step_bus_inv.
  - by intros [= <-].
Qed.

(** *** Refinement: when handlers only unsubscribe, the loop of the source
    is the iteration of a snapshot *)









(** ** Pruning and the whole emission *)

Lemma subsOf_specific e b : e ≠ "*" → subsOf e b = specificOf e b.
Proof. intros H. unfold subsOf. by rewrite decide_False. Qed.

Lemma prune_inv e hs (w : World HState) : bus_inv (bus w) → bus_inv (bus (prune e hs w)).
Proof.
  unfold prune. simpl. generalize (bus w). clear w.
  induction hs as [|h hs IH]; intros b Hb; [done|].
  simpl. by apply IH, off_inv.
Qed.

Lemma prune_subsOf e hs (w : World HState) :
  subsOf e (bus (prune e hs w))
  = filter (λ s, Subscription.handler s ∉ hs) (subsOf e (bus w)).
Proof.
  unfold prune. simpl. generalize (bus w). clear w.
  induction hs as [|h hs IH]; intros b; simpl.
  - symmetry. apply filter_all. intros s _. apply not_elem_of_nil.
  - rewrite IH, off_subsOf, list_filter_filter.
    apply list_filter_iff. intros s. rewrite not_elem_of_cons. tauto.
Qed.

Lemma prune_subsOf_ne e e' hs (w : World HState) :
  bus_inv (bus w) → e' ≠ e → subsOf e' (bus (prune e hs w)) = subsOf e' (bus w).
Proof.
  unfold prune. simpl. generalize (bus w). clear w.
  induction hs as [|h hs IH]; intros b Hb Hne; [done|].
  simpl. rewrite IH; [by apply off_subsOf_ne | by apply off_inv | done].
Qed.


(** The array read at line 71, and the state after reading it. *)
Lemma getListeners_spec e (w : World HState) :
  bus_inv (bus w) →
  bus_inv (bus (getListeners e w).2) ∧
  ((getListeners e w).1 < nextLoc (bus (getListeners e w).2))%nat ∧
  deref (bus (getListeners e w).2) (getListeners e w).1 = specificOf e (bus w) ∧
  (∀ e', subsOf e' (bus (getListeners e w).2) = subsOf e' (bus w)) ∧
  hstate (getListeners e w).2 = hstate w ∧
  timers (getListeners e w).2 = timers w ∧
  promises (getListeners e w).2 = promises w.
Proof.
  intros Hb. unfold getListeners, specificOf.
  destruct (listeners (bus w) !! e) as [l|] eqn:El; simpl.
  - split; [done|]. split; [by eapply inv_bound|]. done.
  - split; [apply (alloc_inv (bus w) []); [done | apply descending_nil]|].
    split; [lia|]. split; [unfold deref; simpl; by rewrite lookup_total_insert_eq|].
    split; [|done]. intros e'. unfold subsOf, wildcardOf, specificOf, deref. simpl.
    pose proof (inv_wild _ Hb). pose proof (inv_bound _ Hb) as Hbd.
    case_decide.
    + rewrite lookup_total_insert_ne; [done|lia].
    + destruct (listeners (bus w) !! e') as [l'|] eqn:El'; [|done].
      apply Hbd in El'. rewrite lookup_total_insert_ne; [done|lia].
Qed.


(** *** Emissions whose handlers do not call the bus *)

Lemma specificOf_star b : bus_inv b → specificOf "*" b = [].
Proof. intros Hb. unfold specificOf. by rewrite (inv_star b Hb). Qed.



(** Whatever the handlers do, an emission that ends has made a block of
    invocations with the arguments of the emission, then a block with the
    event name in front, and it settles by the failures of all of them. *)
Lemma emit_calls fuel e args (w w' : World HState) r cs :
  emit behave fuel e args w = Some (w', r, cs) →
  ∃ cs1 cs2, cs = cs1 ++ cs2 ∧
    Forall (λ c, argv c = args) cs1 ∧
    Forall (λ c, argv c = VStr e :: args) cs2 ∧
    r = outcome (failures cs1 ++ failures cs2) e.
Proof.
  unfold emit.
  destruct (getListeners e w) as [subs w0].
  destruct (run_pass behave fuel subs 0 args _) as [p1|] eqn:E1; [|done]. simpl.
  destruct (run_pass behave fuel _ 0 (VStr e :: args) _) as [p2|] eqn:E2; [|done].
  simpl. intros [= <- <- <-].
  apply run_pass_calls in E1 as (cs1 & C1 & F1 & R1).
  apply run_pass_calls in E2 as (cs2 & C2 & F2 & R2).
  simpl in *. exists cs1, cs2. by rewrite C2, C1, R2, R1.
Qed.

Lemma emit_inv fuel e args (w w' : World HState) r cs :
  emit behave fuel e args w = Some (w', r, cs) →
  bus_inv (bus w) → bus_inv (bus w').
Proof.
  unfold emit. intros H Hb.
  destruct (getListeners_spec e w Hb) as (Hb0 & _).
  destruct (getListeners e w) as [subs w0]. simpl in Hb0.
  destruct (run_pass behave fuel subs 0 args _) as [p1|] eqn:E1; [|done]. simpl in H.
  destruct (run_pass behave fuel _ 0 (VStr e :: args) _) as [p2|] eqn:E2; [|done].
  simpl in H. injection H as <- _ _.
  apply prune_inv. eapply run_pass_inv; [exact E2|]. simpl.
  apply prune_inv. eapply run_pass_inv; [exact E1|]. done.
Qed.

Lemma waitFor_inv e t (w : World HState) :
  bus_inv (bus w) → bus_inv (bus (waitFor e t w).1).
Proof. simpl. apply register_inv. Qed.

Lemma timerElapses_inv k (w : World HState) :
  bus_inv (bus w) → bus_inv (bus (timerElapses k w)).
Proof.
  intros Hb. unfold timerElapses.
  destruct (timers w !! k) as [[| |]|]; try done. simpl. by apply off_inv.
Qed.

Lemma run_op_inv o (w w' : World HState) :
  run_op behave o w = Some w' → bus_inv (bus w) → bus_inv (bus w').
Proof.
  destruct o; simpl; intros H Hb; simplify_eq; simpl;
    unfold EventBus.on, EventBus.once;
    auto using register_inv, off_inv, removeAllListeners_inv, timerElapses_inv.
  destruct (emit behave fuel event args w) as [[[w1 r] cs]|] eqn:E; [|done].
  simpl in H. simplify_eq. by eapply emit_inv.
Qed.

Lemma run_ops_inv os (w w' : World HState) :
  run_ops behave os w = Some w' → bus_inv (bus w) → bus_inv (bus w').
Proof.
  revert w. induction os as [|o os IH]; intros w; simpl; [by intros [= <-]|].
  destruct (run_op behave o w) as [w1|] eqn:E; [|done]. simpl.
  intros H Hb. eapply IH; [exact H|]. by eapply run_op_inv.
Qed.

Lemma reachable_inv (w : World HState) :
  reachable behave w → bus_inv (bus w).
Proof. intros (st & os & H). eapply run_ops_inv; [exact H | apply newBus_inv]. Qed.

(** More fuel does not change an emission that ends. *)
Lemma run_pass_fuel fuel n arr i args (st st' : Pass HState) :
  run_pass behave fuel arr i args st = Some st' →
  run_pass behave (fuel + n) arr i args st = Some st'.
Proof.
  revert i st. induction fuel as [|fuel IH]; intros i st; simpl; [done|].
  destruct (deref (bus (world st)) arr !! i); [apply IH | done].
Qed.

Lemma emit_fuel fuel n e args (w : World HState) x :
  emit behave fuel e args w = Some x → emit behave (fuel + n) e args w = Some x.
Proof.
  unfold emit. destruct (getListeners e w) as [subs w0].
  destruct (run_pass behave fuel subs 0 args _) as [p1|] eqn:E1; [|done].
  rewrite (run_pass_fuel _ n _ _ _ _ _ E1). simpl.
  destruct (run_pass behave fuel _ 0 (VStr e :: args) _) as [p2|] eqn:E2; [|done].
  by rewrite (run_pass_fuel _ n _ _ _ _ _ E2).
Qed.


End Passes.

(** * The properties of the specification *)

(** Closes a decidable goal on concrete data by evaluation. *)
Ltac by_compute := apply (bool_decide_unpack _); vm_compute; exact I.

(** ** Counting: register, then unregister *)

Lemma listenerCount_subsOf e b : EventBus.listenerCount e b = length (subsOf e b).
Proof.
  unfold EventBus.listenerCount, subsOf, wildcardOf, specificOf.
  case_decide; [done|]. by destruct (listeners b !! e).
Qed.

(** After [register] and the matching [off], the count is the number of
    subscriptions of the other handlers. *)
Lemma count_after_roundtrip e h p o b :
  EventBus.listenerCount e (EventBus.off e h (EventBus.register e h p o b))
  = length (filter (λ s, Subscription.handler s ≠ h) (subsOf e b)).
Proof.
  rewrite listenerCount_subsOf, off_subsOf, register_subsOf.
  rewrite sort_perm, filter_app, length_app.
  rewrite (filter_cons_False _ (Subscription.mk h p o)) by (simpl; tauto).
  simpl. lia.
Qed.

(** C8, as stated, fails: when the handler already has a subscription on the
    event, the matching unregister removes that one as well. *)
Lemma count_roundtrip_counterexample :
  EventBus.listenerCount "e"
    (EventBus.off "e" (Fn 1)
       (EventBus.on "e" (Fn 1) 0 (EventBus.on "e" (Fn 1) 0 newBus)))
  ≠ EventBus.listenerCount "e" (EventBus.on "e" (Fn 1) 0 newBus).
Proof. vm_compute. discriminate. Qed.

(** C8 (amended): for every registry state, event name [e] and handler [h]
    that has no subscription on [e] yet, [listenerCount e] after registering
    [h] on [e] (by [on] or by [once]) and then unregistering it is what it was
    before the registration. *)
Theorem count_roundtrip e h p b :
  h ∉ (Subscription.handler <$> subsOf e b) →
  EventBus.listenerCount e (EventBus.off e h (EventBus.on e h p b))
  = EventBus.listenerCount e b ∧
  EventBus.listenerCount e (EventBus.off e h (EventBus.once e h p b))
  = EventBus.listenerCount e b.
Proof.
  intros Hh. unfold EventBus.on, EventBus.once.
  rewrite !count_after_roundtrip, listenerCount_subsOf.
  rewrite filter_all; [done|].
  intros s Hs E. apply Hh. rewrite <- E. by apply list_elem_of_fmap_2.
Qed.

Lemma count_roundtrip_witness :
  (Fn 1 ∉ (Subscription.handler <$> subsOf "e" (EventBus.on "e" (Fn 2) 5 newBus))) ∧
  EventBus.listenerCount "e"
    (EventBus.off "e" (Fn 1)
       (EventBus.on "e" (Fn 1) 7 (EventBus.on "e" (Fn 2) 5 newBus)))
  = EventBus.listenerCount "e" (EventBus.on "e" (Fn 2) 5 newBus).
Proof.
  assert (Fn 1 ∉ (Subscription.handler <$> subsOf "e" (EventBus.on "e" (Fn 2) 5 newBus)))
    as H by by_compute.
  split; [exact H|].
  exact (proj1 (count_roundtrip "e" (Fn 1) 7 (EventBus.on "e" (Fn 2) 5 newBus) H)).
Defined.

(** ** Failures recorded by an emission *)

Lemma failures_app cs1 cs2 : failures (cs1 ++ cs2) = failures cs1 ++ failures cs2.
Proof. unfold failures. apply flat_map_app. Qed.

Lemma toError_is_error v : instanceofError (toError v) = true.
Proof. by destruct v. Qed.

Lemma failures_are_error_objects cs :
  Forall (λ err, instanceofError err = true) (failures cs).
Proof.
  induction cs as [|c cs IH]; [constructor|].
  unfold failures. simpl. destruct (result c) as [|v]; simpl; [done|].
  constructor; [apply toError_is_error | done].
Qed.

(** ** Order and arguments of the invocations *)

Lemma specificOf_descending e b : bus_inv b → descending (specificOf e b).
Proof.
  intros Hb. unfold specificOf.
  destruct (listeners b !! e); [apply (inv_sorted b Hb) | apply descending_nil].
Qed.

Lemma wildcardOf_descending b : bus_inv b → descending (wildcardOf b).
Proof. intros Hb. apply (inv_sorted b Hb). Qed.


Lemma pingWorld_inv : bus_inv (bus pingWorld).
Proof.
  unfold pingWorld, EventBus.on. simpl.
  repeat apply register_inv. apply newBus_inv.
Qed.

(** ** The outcome of an emission *)

Lemma failures_length cs :
  length (failures cs) = length (filter (λ c, result c ≠ Returns) cs).
Proof.
  induction cs as [|c cs IH]; [done|].
  unfold failures in *. simpl. rewrite filter_cons, length_app, IH.
  destruct (result c); simpl; done.
Qed.

(** The scenario of section 8: both handlers of [ping] run, and the
    emission fails with one failure and the message of the specification. *)
Example ping_scenario :
  ∃ w',
    emit quietBodies 3 "ping" []
      (set_bus (EventBus.on "ping" (Fn 0) 1 (EventBus.on "ping" (Fn 1) 10 newBus))
         (newWorld tt))
    = Some (w',
            AggregateError [VError "x"]
              ("1 handler(s) threw during " +:+ dquote +:+ "ping" +:+ dquote),
            [mkCall (Fn 1) [] (Throws (VStr "x")); mkCall (Fn 0) [] Returns]).
Proof. eexists. vm_compute. reflexivity. Qed.

(** ** The order of the stored sequences *)






(** ** The wildcard name *)

Lemma run_pass_empty {HState} (behave : Bodies HState) fuel arr i args
    (st : Pass HState) :
  deref (bus (world st)) arr !! i = None →
  run_pass behave (S fuel) arr i args st = Some st.
Proof. intros H. simpl. by rewrite H. Qed.

(** In a state where ["*"] is not a key of the map, the first loop of
    [emit "*"] has nothing to iterate, whatever the handlers do. *)
Lemma emit_star_calls {HState} (behave : Bodies HState) fuel args
    (w w' : World HState) r cs :
  bus_inv (bus w) →
  emit behave fuel "*" args w = Some (w', r, cs) →
  Forall (λ c, argv c = VStr "*" :: args) cs.
Proof.
  intros Hb. unfold emit, getListeners. rewrite (inv_star _ Hb).
  unfold alloc. cbn beta iota zeta.
  destruct fuel as [|fuel]; [done|].
  rewrite run_pass_empty.
  2:{ unfold deref. simpl. by rewrite lookup_total_insert_eq. }
  cbn [mbind option_bind].
  destruct (run_pass behave (S fuel) _ 0 (VStr "*" :: args) _) as [p2|] eqn:E2; [|done].
  cbn [mbind option_bind]. intros [= _ _ <-].
  apply run_pass_calls in E2 as (cs2 & C2 & F2 & _). simpl in C2. by rewrite C2.
Qed.

Lemma pingWorld_reachable : reachable quietBodies pingWorld.
Proof. by exists tt, [OOn "ping" 1 10; OOn "ping" 0 1; OOn "*" 2 0]. Qed.

(** ** One handler registered by [on] and by [once] *)

Lemma elem_of_sort (s : Subscription) l : s ∈ sort l ↔ s ∈ l.
Proof. by rewrite sort_perm. Qed.

Lemma elem_of_onceHandlers (s : Subscription) (l : list Subscription) :
  s ∈ l → Subscription.once s = true → Subscription.handler s ∈ onceHandlers l.
Proof.
  intros Hs Ho. unfold onceHandlers.
  apply list_elem_of_fmap_2. by apply list_elem_of_filter.
Qed.






(** ** Registering while an emission is in progress *)

(** C2, at two inputs the source can receive.  While [ping] is emitted,
    handler 3 registers handler 0 on [ping]: the loop of the source, which
    iterates the stored array object, invokes handler 0 in the same pass,
    where the iteration of a snapshot invokes handler 3 only.  And when
    handler 5 registers handler 0 at a higher priority, the in-place sort
    moves handler 5 under the iterator again: it is invoked twice by one
    emission. *)
Theorem registration_during_emit_is_visible :
  (∃ w' r,
     emit registeringBodies 5 "ping" []
       (set_bus (EventBus.on "ping" (Fn 3) 0 newBus) (newWorld false))
     = Some (w', r, [mkCall (Fn 3) [] Returns; mkCall (Fn 0) [] Returns])) ∧
  (snapshot_emit registeringBodies "ping" []
     (set_bus (EventBus.on "ping" (Fn 3) 0 newBus) (newWorld false))).2
  = [mkCall (Fn 3) [] Returns] ∧
  (∃ w' r,
     emit registeringBodies 5 "ping" []
       (set_bus (EventBus.on "ping" (Fn 5) 0 newBus) (newWorld false))
     = Some (w', r, [mkCall (Fn 5) [] Returns; mkCall (Fn 5) [] Returns])) ∧
  (snapshot_emit registeringBodies "ping" []
     (set_bus (EventBus.on "ping" (Fn 5) 0 newBus) (newWorld false))).2
  = [mkCall (Fn 5) [] Returns].
Proof.
  split; [eexists _, _; vm_compute; reflexivity|].
  split; [vm_compute; reflexivity|].
  split; [eexists _, _; vm_compute; reflexivity|].
  vm_compute; reflexivity.
Qed.

(** ** Unsubscribing while an emission is in progress *)


Lemma off_without e h b :
  h ∉ (Subscription.handler <$> subsOf e (EventBus.off e h b)).
Proof.
  rewrite off_subsOf. intros Hin.
  apply list_elem_of_fmap in Hin as (s & E & Hs).
  apply list_elem_of_filter in Hs as [Hs _]. by apply Hs.
Qed.



(** *** What stays under the iterator when handlers register as well *)

Lemma elem_of_drop_S {A} (s : A) j l : s ∈ drop (S j) l → s ∈ drop j l.
Proof.
  revert j. induction l as [|a l IH]; intros j; [by rewrite !drop_nil|].
  destruct j as [|j]; simpl.
  - rewrite drop_0. intros H. by right.
  - apply IH.
Qed.

Lemma drop_insert_mono {A} (x s : A) j l1 l2 :
  s ∈ drop j (l1 ++ l2) → s ∈ drop j (l1 ++ x :: l2).
Proof.
  revert j. induction l1 as [|a l1 IH]; intros j; simpl.
  - destruct j as [|j]; simpl.
    + rewrite drop_0. intros H. by right.
    + apply elem_of_drop_S.
  - destruct j as [|j]; simpl; [|apply IH].
    rewrite !elem_of_cons, !elem_of_app, elem_of_cons. tauto.
Qed.

(** A subscription at or behind an index is still at or behind it after a
    sorted insertion: registrations never take an element away from what the
    iterator has yet to visit. *)
Lemma place_keeps_tail x (s : Subscription) j l :
  s ∈ drop j l → s ∈ drop j (place x l).
Proof.
  destruct (place_split x l) as (l1 & l2 & E1 & E2 & _).
  rewrite E2, E1. apply drop_insert_mono.
Qed.

Lemma run_action_keeps_tail a b arr j (s : Subscription) :
  bus_inv b → (arr < nextLoc b)%nat →
  s ∈ drop j (deref b arr) → s ∈ drop j (deref (run_action a b) arr).
Proof.
  intros Hb Harr Hs. destruct a as [e h p|e h p|e h|ev]; simpl.
  - unfold EventBus.on.
    destruct (register_deref e h p false b arr Harr) as [-> | ->]; [done|].
    rewrite sort_push by apply (inv_sorted b Hb). by apply place_keeps_tail.
  - unfold EventBus.once.
    destruct (register_deref e h p true b arr Harr) as [-> | ->]; [done|].
    rewrite sort_push by apply (inv_sorted b Hb). by apply place_keeps_tail.
  - by rewrite off_deref.
  - by rewrite removeAllListeners_deref.
Qed.








(** ** Timers and promises of [waitFor] *)

Section Promises.

Context {HState : Type}.
Variable behave : Bodies HState.

Lemma settle_other k k' p (pm : gmap nat Promise) :
  k ≠ k' → settle k' p pm !! k = pm !! k.
Proof.
  intros Hne. unfold settle. destruct (pm !! k') as [[| |]|]; try done.
  by rewrite lookup_insert_ne.
Qed.

Lemma settle_pending k p (pm : gmap nat Promise) :
  pm !! k = Some Pending → settle k p pm !! k = Some p.
Proof. intros H. unfold settle. rewrite H. apply lookup_insert_eq. Qed.

(** A settled promise does not change any more. *)
Lemma settle_settled k k' p q (pm : gmap nat Promise) :
  pm !! k = Some q → q ≠ Pending → settle k' p pm !! k = Some q.
Proof.
  intros H Hq. destruct (decide (k = k')) as [<-|Hne].
  - unfold settle. rewrite H. by destruct q.
  - by rewrite settle_other.
Qed.

Lemma clearTimeout_other k k' (tm : gmap nat Timer) :
  k ≠ k' → clearTimeout k' tm !! k = tm !! k.
Proof.
  intros Hne. unfold clearTimeout. destruct (tm !! k') as [[| |]|]; try done.
  by rewrite lookup_insert_ne.
Qed.

Lemma clearTimeout_armed k e t (tm : gmap nat Timer) :
  tm !! k = Some (Armed e t) → clearTimeout k tm !! k = Some Cleared.
Proof. intros H. unfold clearTimeout. rewrite H. apply lookup_insert_eq. Qed.

Lemma clearTimeout_cleared k k' (tm : gmap nat Timer) :
  tm !! k = Some Cleared → clearTimeout k' tm !! k = Some Cleared.
Proof.
  intros H. destruct (decide (k = k')) as [<-|Hne].
  - unfold clearTimeout. by rewrite H.
  - by rewrite clearTimeout_other.
Qed.

Lemma invoke_settled h args (w : World HState) k q :
  promises w !! k = Some q → q ≠ Pending →
  promises (invoke behave h args w).1 !! k = Some q.
Proof.
  intros H Hq. destruct h as [f|k']; simpl.
  - by destruct (behave f args (hstate w)) as [[acts out] st].
  - by apply settle_settled.
Qed.

Lemma pass_step_settled args (st : Pass HState) sub k q :
  promises (world st) !! k = Some q → q ≠ Pending →
  promises (world (pass_step behave args st sub)) !! k = Some q.
Proof. rewrite pass_step_world. apply invoke_settled. Qed.

Lemma run_pass_settled fuel arr i args (st st' : Pass HState) k q :
  run_pass behave fuel arr i args st = Some st' →
  promises (world st) !! k = Some q → q ≠ Pending →
  promises (world st') !! k = Some q.
Proof.
  revert i st. induction fuel as [|fuel IH]; intros i st; simpl; [done|].
  destruct (deref (bus (world st)) arr !! i) as [sub|].
  - intros H Hk Hq. eapply IH; [exact H | by apply pass_step_settled | done].
  - by intros [= <-].
Qed.

(** Whatever the handlers do, an emission leaves a settled promise alone. *)
Lemma emit_settled fuel e args (w w' : World HState) r cs k q :
  emit behave fuel e args w = Some (w', r, cs) →
  promises w !! k = Some q → q ≠ Pending → promises w' !! k = Some q.
Proof.
  unfold emit. intros H Hk Hq.
  assert (promises (getListeners e w).2 = promises w) as Hp0.
  { unfold getListeners. by destruct (listeners (bus w) !! e). }
  destruct (getListeners e w) as [subs w0]. simpl in Hp0.
  destruct (run_pass behave fuel subs 0 args _) as [p1|] eqn:E1; [|done]. simpl in H.
  destruct (run_pass behave fuel _ 0 (VStr e :: args) _) as [p2|] eqn:E2; [|done].
  simpl in H. injection H as <- _ _. simpl.
  eapply run_pass_settled; [exact E2| |done]. simpl.
  eapply run_pass_settled; [exact E1| |done]. simpl. by rewrite Hp0.
Qed.

Lemma snapshot_pass_cons sub l args (st : Pass HState) :
  snapshot_pass behave (sub :: l) args st
  = snapshot_pass behave l args (pass_step behave args st sub).
Proof. done. Qed.

Lemma snapshot_pass_settled l args (st : Pass HState) k q :
  promises (world st) !! k = Some q → q ≠ Pending →
  promises (world (snapshot_pass behave l args st)) !! k = Some q.
Proof.
  revert st. induction l as [|sub l IH]; intros st Hk Hq; [done|].
  rewrite snapshot_pass_cons. apply IH; [by apply pass_step_settled | done].
Qed.

Lemma snapshot_pass_cleared l args (st : Pass HState) k :
  timers (world st) !! k = Some Cleared →
  timers (world (snapshot_pass behave l args st)) !! k = Some Cleared.
Proof.
  revert st. induction l as [|sub l IH]; intros st Hk; [done|].
  rewrite snapshot_pass_cons. apply IH. rewrite pass_step_world.
  destruct (Subscription.handler sub) as [f|k']; simpl.
  - by destruct (behave f args (hstate (world st))) as [[acts out] s'].
  - by apply clearTimeout_cleared.
Qed.

(** A pass over a sequence that holds the closure of a pending [waitFor]
    resolves its promise with the arguments of the pass and clears its
    timer. *)
Lemma snapshot_pass_fulfils l args (st : Pass HState) k e t :
  Waiter k ∈ (Subscription.handler <$> l) →
  promises (world st) !! k = Some Pending ∨
  promises (world st) !! k = Some (Fulfilled args) →
  timers (world st) !! k = Some (Armed e t) ∨
  timers (world st) !! k = Some Cleared →
  promises (world (snapshot_pass behave l args st)) !! k = Some (Fulfilled args) ∧
  timers (world (snapshot_pass behave l args st)) !! k = Some Cleared.
Proof.
  revert st. induction l as [|sub l IH]; intros st Hin Hp Ht.
  - by apply elem_of_nil in Hin.
  - rewrite snapshot_pass_cons.
    destruct (decide (Subscription.handler sub = Waiter k)) as [E|Hne].
    + assert (promises (world (pass_step behave args st sub)) !! k
              = Some (Fulfilled args) ∧
              timers (world (pass_step behave args st sub)) !! k = Some Cleared)
        as [Hp' Ht'].
      { rewrite pass_step_world, E. simpl. split.
        - destruct Hp as [Hp|Hp]; [by apply settle_pending | by apply settle_settled].
        - destruct Ht as [Ht|Ht];
            [by eapply clearTimeout_armed | by apply clearTimeout_cleared]. }
      split; [by apply snapshot_pass_settled | by apply snapshot_pass_cleared].
    + apply IH.
      * rewrite fmap_cons in Hin. apply elem_of_cons in Hin as [Hin|Hin]; [|done].
        by destruct Hne.
      * rewrite pass_step_world.
        destruct (Subscription.handler sub) as [f|k']; simpl.
        -- by destruct (behave f args (hstate (world st))) as [[acts out] s'].
        -- rewrite settle_other; [done|]. intros ->. by destruct Hne.
      * rewrite pass_step_world.
        destruct (Subscription.handler sub) as [f|k']; simpl.
        -- by destruct (behave f args (hstate (world st))) as [[acts out] s'].
        -- rewrite clearTimeout_other; [done|]. intros ->. by destruct Hne.
Qed.

End Promises.

Lemma snapshot_emit_unfold {HState} (behave : Bodies HState) e args
    (w : World HState) :
  bus_inv (bus w) →
  let p1 := snapshot_pass behave (specificOf e (bus w)) args
              (mkPass (getListeners e w).2 [] [] []) in
  let w2 := prune e (toRemove p1) (world p1) in
  let p2 := snapshot_pass behave (wildcardOf (bus w2)) (VStr e :: args)
              (mkPass w2 (errors p1) [] (calls p1)) in
  snapshot_emit behave e args w
  = (prune "*" (toRemove p2) (world p2), outcome (errors p2) e, calls p2).
Proof.
  intros Hb. unfold snapshot_emit.
  destruct (getListeners_spec e w Hb) as (_ & _ & Hd0 & _).
  destruct (getListeners e w) as [subs w0]. cbn [fst snd] in *.
  by rewrite Hd0.
Qed.

Lemma off_idempotent e h b :
  subsOf e (EventBus.off e h (EventBus.off e h b)) = subsOf e (EventBus.off e h b).
Proof.
  rewrite !off_subsOf. apply filter_all. intros s Hs.
  by apply list_elem_of_filter in Hs as [Hs _].
Qed.

(** The scenario of section 8: [waitFor("done", 1000)] without any emission. *)
Example waitFor_done_times_out :
  promises (timerElapses 0 (waitFor "done" 1000 (newWorld tt)).1) !! 0%nat
  = Some (Rejected (VError ("waitFor(" +:+ dquote +:+ "done" +:+ dquote
                              +:+ ") timed out after 1000ms"))) ∧
  EventBus.listenerCount "done" (bus (waitFor "done" 1000 (newWorld tt)).1) = 1%nat ∧
  EventBus.listenerCount "done"
    (bus (timerElapses 0 (waitFor "done" 1000 (newWorld tt)).1)) = 0%nat.
Proof. by vm_compute. Qed.

(** * Further properties of the bus *)

(** ** [removeAllListeners] *)

(** With the name of an event, [removeAllListeners] (lines 140-141) deletes
    the entry of that event and nothing else; with the wildcard name (lines
    138-139) it empties the wildcard sequence and nothing else. *)
Theorem removeAllListeners_one_name ev b :
  bus_inv b → ev ≠ EmptyString →
  subsOf ev (EventBus.removeAllListeners (Some ev) b) = [] ∧
  EventBus.listenerCount ev (EventBus.removeAllListeners (Some ev) b) = 0%nat ∧
  ∀ e, e ≠ ev →
    subsOf e (EventBus.removeAllListeners (Some ev) b) = subsOf e b.
Proof.
  intros Hb Hne.
  pose proof (inv_wild b Hb) as Hw. pose proof (inv_bound b Hb) as Hbd.
  pose proof (inv_star b Hb) as Hstar.
  assert (subsOf ev (EventBus.removeAllListeners (Some ev) b) = []) as Hempty.
  { unfold EventBus.removeAllListeners.
    destruct (decide (ev = "*")) as [->|Hs]; [|rewrite decide_False by done];
      heap_unfold.
    - by rewrite lookup_total_insert_eq.
    - rewrite decide_False by done. by rewrite lookup_delete_eq. }
  split; [done|]. split; [by rewrite listenerCount_subsOf, Hempty|].
  intros e He. unfold EventBus.removeAllListeners.
  destruct (decide (ev = "*")) as [->|Hs]; [|rewrite decide_False by done];
    heap_unfold.
  - rewrite !decide_False by done.
    destruct (listeners b !! e) as [l|] eqn:El; [|done].
    apply Hbd in El. rewrite lookup_total_insert_ne; [done|lia].
  - destruct (decide (e = "*")); [done|]. by rewrite lookup_delete_ne.
Qed.

Lemma removeAllListeners_one_name_witness :
  bus_inv (bus pingWorld) ∧ "ping" ≠ EmptyString ∧
  EventBus.listenerCount "ping" (bus pingWorld) = 2%nat ∧
  EventBus.listenerCount "ping"
    (EventBus.removeAllListeners (Some "ping") (bus pingWorld)) = 0%nat ∧
  subsOf "*" (EventBus.removeAllListeners (Some "ping") (bus pingWorld))
  = subsOf "*" (bus pingWorld).
Proof.
  assert ("ping" ≠ EmptyString) as Hne by discriminate.
  destruct (removeAllListeners_one_name "ping" (bus pingWorld) pingWorld_inv Hne)
    as (_ & Hcount & Hframe).
  split; [exact pingWorld_inv|]. split; [exact Hne|].
  split; [by vm_compute|]. split; [exact Hcount|].
  apply Hframe. discriminate.
Defined.

(** ** [off] and [on], one name at a time *)

(** [off] for a handler that has no subscription under the name (in
    particular for a name that was never registered) changes no sequence
    and is no error. *)
Theorem off_absent e h b :
  bus_inv b → h ∉ (Subscription.handler <$> subsOf e b) →
  ∀ e', subsOf e' (EventBus.off e h b) = subsOf e' b.
Proof.
  intros Hb Hh e'. destruct (decide (e' = e)) as [->|Hne].
  - rewrite off_subsOf. apply filter_all. intros s Hs E. apply Hh.
    rewrite <- E. by apply list_elem_of_fmap_2.
  - by apply off_subsOf_ne.
Qed.

Lemma off_absent_witness :
  bus_inv (bus pingWorld) ∧
  (Fn 9 ∉ (Subscription.handler <$> subsOf "ping" (bus pingWorld))) ∧
  subsOf "ping" (EventBus.off "ping" (Fn 9) (bus pingWorld))
  = subsOf "ping" (bus pingWorld).
Proof.
  assert (Fn 9 ∉ (Subscription.handler <$> subsOf "ping" (bus pingWorld))) as H
    by by_compute.
  split; [exact pingWorld_inv|]. split; [exact H|].
  exact (off_absent "ping" (Fn 9) (bus pingWorld) pingWorld_inv H "ping").
Defined.

(** A registration adds exactly one subscription under its name and leaves
    every other name as it is: [listenerCount] of the name goes up by one,
    that of the other names (the wildcard name among them) is unchanged. *)
Theorem register_counts e h p b :
  bus_inv b →
  EventBus.listenerCount e (EventBus.on e h p b) = S (EventBus.listenerCount e b) ∧
  EventBus.listenerCount e (EventBus.once e h p b) = S (EventBus.listenerCount e b) ∧
  ∀ e', e' ≠ e →
    EventBus.listenerCount e' (EventBus.on e h p b) = EventBus.listenerCount e' b ∧
    EventBus.listenerCount e' (EventBus.once e h p b) = EventBus.listenerCount e' b.
Proof.
  intros Hb. unfold EventBus.on, EventBus.once.
  rewrite !listenerCount_subsOf, !register_subsOf, !sort_perm, !length_app.
  split; [simpl; lia|]. split; [simpl; lia|].
  intros e' Hne. rewrite !listenerCount_subsOf.
  by rewrite !register_subsOf_ne.
Qed.

Lemma register_counts_witness :
  bus_inv (bus pingWorld) ∧
  EventBus.listenerCount "ping" (EventBus.on "ping" (Fn 7) 3 (bus pingWorld)) = 3%nat ∧
  EventBus.listenerCount "*" (EventBus.on "ping" (Fn 7) 3 (bus pingWorld)) = 1%nat.
Proof.
  destruct (register_counts "ping" (Fn 7) 3 (bus pingWorld) pingWorld_inv)
    as (Hon & _ & Hframe).
  split; [exact pingWorld_inv|]. split; [exact Hon|].
  destruct (Hframe "*") as [H _]; [discriminate|]. exact H.
Defined.

(** ** A rule for invariants of the registry *)

(** A property of the bus that the three mutators and the allocation of an
    array keep is kept by every emission, whatever the handlers do, and by
    every run of operations. *)
Section Preservation.

Context {HState : Type}.
Variable behave : Bodies HState.
Variable P : Bus → Prop.
Hypothesis P_register : ∀ e h p o b, bus_inv b → P b → P (EventBus.register e h p o b).
Hypothesis P_off : ∀ e h b, bus_inv b → P b → P (EventBus.off e h b).
Hypothesis P_removeAll :
  ∀ ev b, bus_inv b → P b → P (EventBus.removeAllListeners ev b).
Hypothesis P_alloc : ∀ b, bus_inv b → P b → P (alloc [] b).2.

Lemma preserved_run_actions acts b : bus_inv b → P b → P (run_actions acts b).
Proof.
  revert b. induction acts as [|a acts IH]; intros b Hb HP; [done|].
  simpl. apply IH; [by apply run_action_inv|].
  destruct a; simpl; unfold EventBus.on, EventBus.once; auto.
Qed.

Lemma preserved_invoke h args (w : World HState) :
  bus_inv (bus w) → P (bus w) → P (bus (invoke behave h args w).1).
Proof.
  intros Hb HP. destruct h as [f|k]; simpl; [|done].
  destruct (behave f args (hstate w)) as [[acts out] st]. simpl.
  by apply preserved_run_actions.
Qed.

Lemma preserved_run_pass fuel arr i args (st st' : Pass HState) :
  run_pass behave fuel arr i args st = Some st' →
  bus_inv (bus (world st)) → P (bus (world st)) → P (bus (world st')).
Proof.
  revert i st. induction fuel as [|fuel IH]; intros i st; simpl; [done|].
  destruct (deref (bus (world st)) arr !! i) as [sub|].
  - intros H Hb HP. eapply IH; [exact H | by apply pass_step_bus_inv|].
    rewrite pass_step_world. by apply preserved_invoke.
  - by intros [= <-].
Qed.

Lemma preserved_prune e hs (w : World HState) :
  bus_inv (bus w) → P (bus w) → P (bus (prune e hs w)).
Proof.
  unfold prune. simpl. generalize (bus w). clear w.
  induction hs as [|h hs IH]; intros b Hb HP; [done|].
  simpl. apply IH; [by apply off_inv | by apply P_off].
Qed.

Lemma preserved_emit fuel e args (w w' : World HState) r cs :
  emit behave fuel e args w = Some (w', r, cs) →
  bus_inv (bus w) → P (bus w) → P (bus w').
Proof.
  unfold emit. intros H Hb HP.
  destruct (getListeners_spec e w Hb) as (Hb0 & _).
  assert (P (bus (getListeners e w).2)) as HP0.
  { unfold getListeners. destruct (listeners (bus w) !! e); [done|]. by apply P_alloc. }
  destruct (getListeners e w) as [subs w0]. simpl in Hb0, HP0.
  destruct (run_pass behave fuel subs 0 args _) as [p1|] eqn:E1; [|done]. simpl in H.
  destruct (run_pass behave fuel _ 0 (VStr e :: args) _) as [p2|] eqn:E2; [|done].
  simpl in H. injection H as <- _ _.
  pose proof (run_pass_inv behave _ _ _ _ _ _ E1 Hb0) as Hb1.
  pose proof (preserved_run_pass _ _ _ _ _ _ E1 Hb0 HP0) as HP1.
  pose proof (prune_inv e (toRemove p1) (world p1) Hb1) as Hb2.
  pose proof (preserved_prune e (toRemove p1) (world p1) Hb1 HP1) as HP2.
  apply preserved_prune.
  - by apply (run_pass_inv behave _ _ _ _ _ _ E2).
  - by apply (preserved_run_pass _ _ _ _ _ _ E2).
Qed.

Lemma preserved_run_op o (w w' : World HState) :
  run_op behave o w = Some w' → bus_inv (bus w) → P (bus w) → P (bus w').
Proof.
  destruct o; simpl; intros H Hb HP; simplify_eq; simpl;
    unfold EventBus.on, EventBus.once; auto.
  - destruct (emit behave fuel event args w) as [[[w1 r] cs]|] eqn:E; [|done].
    simpl in H. simplify_eq. by eapply preserved_emit.
  - unfold timerElapses. destruct (timers w !! k) as [[| |]|]; simpl; auto.
Qed.

Lemma preserved_run_ops os (w w' : World HState) :
  run_ops behave os w = Some w' → bus_inv (bus w) → P (bus w) → P (bus w').
Proof.
  revert w. induction os as [|o os IH]; intros w; simpl; [by intros [= <-]|].
  destruct (run_op behave o w) as [w1|] eqn:E; [|done]. simpl.
  intros H Hb HP. eapply IH; [exact H | by eapply run_op_inv | by eapply preserved_run_op].
Qed.

End Preservation.

(** ** No stale key in the map of events *)

Lemma sort_not_nil l : l ≠ [] → sort l ≠ [].
Proof.
  intros Hl E. apply Hl. apply Permutation_nil_r. by rewrite <- E, sort_perm.
Qed.

Lemma register_keys_nonempty e h p o b :
  bus_inv b → keys_nonempty b → keys_nonempty (EventBus.register e h p o b).
Proof.
  intros Hb Hk e' l. unfold EventBus.register, keys_nonempty in *.
  pose proof (inv_sep b Hb) as Hs. pose proof (inv_bound b Hb) as Hbd.
  assert (∀ l0 s, sort (l0 ++ [s]) ≠ []) as Hpush.
  { intros l0 s. apply sort_not_nil. by destruct l0. }
  destruct (decide (e = "*")) as [->|He];
    [|destruct (listeners b !! e) as [l0|] eqn:El0]; heap_unfold.
  - intros El. rewrite lookup_total_insert_ne; [by eapply Hk|].
    intros ?; subst. by apply Hs in El.
  - intros El. rewrite lookup_total_insert. case_decide; [apply Hpush | by eapply Hk].
  - rewrite lookup_insert. case_decide.
    + intros [= <-]. rewrite lookup_total_insert_eq. apply Hpush.
    + intros El. pose proof (Hbd _ _ El).
      rewrite !lookup_total_insert_ne by lia. by eapply Hk.
Qed.

Lemma off_keys_nonempty e h b :
  bus_inv b → keys_nonempty b → keys_nonempty (EventBus.off e h b).
Proof.
  intros Hb Hk e' l. unfold EventBus.off, keys_nonempty in *.
  pose proof (inv_bound b Hb) as Hbd.
  destruct (decide (e = "*")) as [->|He];
    [|destruct (listeners b !! e) as [l0|] eqn:El0]; heap_unfold.
  - intros El. pose proof (Hbd _ _ El).
    rewrite lookup_total_insert_ne by lia. by eapply Hk.
  - rewrite lookup_total_insert_eq.
    destruct (decide (length (filter (λ s, Subscription.handler s ≠ h)
                                (heap b !!! l0)) = 0%nat)) as [Hlen|Hlen]; simpl.
    + intros El. apply lookup_delete_Some in El as [_ El].
      pose proof (Hbd _ _ El). rewrite lookup_total_insert_ne by lia.
      by eapply Hk.
    + rewrite lookup_insert. case_decide.
      * intros [= <-]. rewrite lookup_total_insert_eq.
        intros E. apply Hlen. by rewrite E.
      * intros El. pose proof (Hbd _ _ El).
        rewrite lookup_total_insert_ne by lia. by eapply Hk.
  - apply Hk.
Qed.

Lemma removeAllListeners_keys_nonempty ev b :
  bus_inv b → keys_nonempty b → keys_nonempty (EventBus.removeAllListeners ev b).
Proof.
  intros Hb Hk e' l. unfold EventBus.removeAllListeners, keys_nonempty in *.
  pose proof (inv_bound b Hb) as Hbd.
  destruct ev as [ev|];
    [destruct (decide (ev = "*")); [|destruct (decide (ev = EmptyString))]|];
    heap_unfold; try done.
  - intros El. pose proof (Hbd _ _ El).
    rewrite lookup_total_insert_ne by lia. by eapply Hk.
  - intros El. apply lookup_delete_Some in El as [_ El]. by eapply Hk.
Qed.

Lemma alloc_keys_nonempty b :
  bus_inv b → keys_nonempty b → keys_nonempty (alloc [] b).2.
Proof.
  intros Hb Hk e l. unfold keys_nonempty in *. heap_unfold. intros El.
  pose proof (inv_bound b Hb _ _ El). rewrite lookup_total_insert_ne by lia.
  by eapply Hk.
Qed.

(** In every reachable state an event is a key of the map exactly when it has
    a subscription: [off] deletes the entry of an event with its last
    subscription (lines 61-62), and nothing else stores an empty array. *)
Theorem no_stale_keys {HState} (behave : Bodies HState) (w : World HState) e :
  reachable behave w → e ≠ "*" →
  (is_Some (listeners (bus w) !! e) ↔ (0 < EventBus.listenerCount e (bus w))%nat).
Proof.
  intros (st & os & Hrun) He.
  assert (keys_nonempty (bus w)) as Hk.
  { eapply (preserved_run_ops behave keys_nonempty); [..|exact Hrun| |].
    - intros. by apply register_keys_nonempty.
    - intros. by apply off_keys_nonempty.
    - intros. by apply removeAllListeners_keys_nonempty.
    - intros. by apply alloc_keys_nonempty.
    - apply newBus_inv.
    - by intros e' l. }
  unfold EventBus.listenerCount. rewrite decide_False by done.
  destruct (listeners (bus w) !! e) as [l|] eqn:El.
  - split; [|by eauto]. intros _. specialize (Hk e l El).
    destruct (deref (bus w) l); [done | simpl; lia].
  - split; [by intros [? ?] | lia].
Qed.

Lemma no_stale_keys_witness :
  reachable quietBodies pingWorld ∧ "ping" ≠ "*" ∧
  is_Some (listeners (bus pingWorld) !! "ping") ∧
  ¬ is_Some (listeners (bus pingWorld) !! "pong").
Proof.
  split; [exact pingWorld_reachable|].
  assert ("ping" ≠ "*") as H1 by discriminate.
  assert ("pong" ≠ "*") as H2 by discriminate.
  split; [exact H1|]. split.
  - apply (no_stale_keys quietBodies pingWorld "ping" pingWorld_reachable H1).
    vm_compute. lia.
  - intros H. apply (no_stale_keys quietBodies pingWorld "pong" pingWorld_reachable H2) in H.
    vm_compute in H. lia.
Defined.

(** ** Pruning and insertion *)

Lemma pruned_once_free (l : list Subscription) s :
  s ∈ filter (λ s, Subscription.handler s ∉ onceHandlers l) l →
  Subscription.once s = false.
Proof.
  intros Hs. apply list_elem_of_filter in Hs as [Hno Hs].
  destruct (Subscription.once s) eqn:E; [|done].
  destruct Hno. by apply elem_of_onceHandlers.
Qed.

Lemma place_keeps_or_adds x (sub : Subscription) i l :
  l !! i = Some sub →
  sub ∈ drop (S i) (place x l) ∨ x ∈ drop (S i) (place x l).
Proof.
  intros Hi. destruct (place_split x l) as (l1 & l2 & -> & -> & _).
  destruct (decide (i < length l1)%nat) as [Hlt|Hge].
  - right. apply list_elem_of_lookup. exists (length l1 - S i)%nat.
    rewrite lookup_drop.
    replace (S i + (length l1 - S i))%nat with (length l1 + 0)%nat by lia.
    rewrite lookup_app_r by lia.
    by replace (length l1 + 0 - length l1)%nat with 0%nat by lia.
  - left. apply list_elem_of_lookup. exists 0%nat. rewrite lookup_drop.
    rewrite lookup_app_r in Hi by lia. rewrite lookup_app_r by lia.
    replace (S i + 0 - length l1)%nat with (S (i - length l1)) by lia. done.
Qed.

(** ** Settled promises *)

Lemma run_pass_nextWait {HState} (behave : Bodies HState) fuel arr i args
    (st st' : Pass HState) :
  run_pass behave fuel arr i args st = Some st' →
  nextWait (world st') = nextWait (world st).
Proof.
  revert i st. induction fuel as [|fuel IH]; intros i st; simpl; [done|].
  destruct (deref (bus (world st)) arr !! i) as [sub|]; [|by intros [= <-]].
  intros H. rewrite (IH _ _ H), pass_step_world.
  destruct (Subscription.handler sub) as [f|k]; simpl; [|done].
  by destruct (behave f args (hstate (world st))) as [[acts out] s'].
Qed.

Lemma emit_nextWait {HState} (behave : Bodies HState) fuel e args
    (w w' : World HState) r cs :
  emit behave fuel e args w = Some (w', r, cs) → nextWait w' = nextWait w.
Proof.
  unfold emit. intros H.
  assert (nextWait (getListeners e w).2 = nextWait w) as H0.
  { unfold getListeners. by destruct (listeners (bus w) !! e). }
  destruct (getListeners e w) as [subs w0]. simpl in H0.
  destruct (run_pass behave fuel subs 0 args _) as [p1|] eqn:E1; [|done]. simpl in H.
  destruct (run_pass behave fuel _ 0 (VStr e :: args) _) as [p2|] eqn:E2; [|done].
  simpl in H. injection H as <- _ _. simpl.
  apply run_pass_nextWait in E1, E2. simpl in *. congruence.
Qed.

Lemma run_op_settled {HState} (behave : Bodies HState) o (w w' : World HState) k q :
  run_op behave o w = Some w' →
  (k < nextWait w)%nat → promises w !! k = Some q → q ≠ Pending →
  (k < nextWait w')%nat ∧ promises w' !! k = Some q.
Proof.
  intros H Hk Hp Hq. destruct o; simpl in H; simplify_eq; simpl; try done.
  - destruct (emit behave fuel event args w) as [[[w1 r] cs]|] eqn:E; [|done].
    simpl in H. simplify_eq. split.
    + by rewrite (emit_nextWait _ _ _ _ _ _ _ _ E).
    + by eapply emit_settled.
  - split; [lia|]. by rewrite lookup_insert_ne by lia.
  - unfold timerElapses. destruct (timers w !! k0) as [[| |]|]; simpl; try done.
    split; [done|]. by apply settle_settled.
Qed.

(** A promise of [waitFor] settles once: after it is fulfilled or rejected,
    no run of calls (registrations, emissions with any handlers, timers
    elapsing, further [waitFor]) changes it. *)
Theorem settled_promise_is_final {HState} (behave : Bodies HState) os
    (w w' : World HState) k q :
  run_ops behave os w = Some w' →
  (k < nextWait w)%nat → promises w !! k = Some q → q ≠ Pending →
  promises w' !! k = Some q.
Proof.
  revert w. induction os as [|o os IH]; intros w; simpl; [by intros [= <-]|].
  destruct (run_op behave o w) as [w1|] eqn:E; [|done]. simpl.
  intros H Hk Hp Hq.
  destruct (run_op_settled behave o w w1 k q E Hk Hp Hq) as [Hk1 Hp1].
  by eapply IH.
Qed.

Lemma settled_promise_is_final_witness :
  ∃ w',
    run_ops quietBodies
      [OEmit 3 "done" [VNum 1]; OWaitFor "done" 10; OTimer 0; OEmit 3 "done" []]
      (timerElapses 0 (waitFor "done" 1000 pingWorld).1)
    = Some w' ∧
    (0 < nextWait (timerElapses 0 (waitFor "done" 1000 pingWorld).1))%nat ∧
    promises w' !! 0%nat
    = Some (Rejected (VError ("waitFor(" +:+ dquote +:+ "done" +:+ dquote
                                +:+ ") timed out after 1000ms"))).
Proof.
  set (w1 := timerElapses 0 (waitFor "done" 1000 pingWorld).1).
  destruct (run_ops quietBodies
              [OEmit 3 "done" [VNum 1]; OWaitFor "done" 10; OTimer 0; OEmit 3 "done" []]
              w1) as [w'|] eqn:E; [|vm_compute in E; discriminate E].
  assert (0 < nextWait w1)%nat as Hk by (vm_compute; lia).
  exists w'. split; [reflexivity|]. split; [exact Hk|].
  apply (settled_promise_is_final quietBodies _ w1 w' 0%nat _ E Hk);
    [vm_compute; reflexivity | discriminate].
Defined.

(** * The dispatcher in full: what handlers and passes preserve *)

Section FullPasses.

Context {HState : Type}.
Variable behave : nat → list Value → HState → list Full.Effect * Full.Completion * HState.

Lemma perform_inv (w : World HState) ef :
  bus_inv (bus w) → bus_inv (bus (Full.perform w ef)).
Proof.
  intros Hb. destruct ef as [a|e t|k]; simpl.
  - by apply run_action_inv.
  - by apply register_inv.
  - by apply timerElapses_inv.
Qed.

Lemma timerElapses_nextLoc k (w : World HState) :
  (nextLoc (bus w) ≤ nextLoc (bus (timerElapses k w)))%nat.
Proof.
  unfold timerElapses. destruct (timers w !! k) as [[e t| |]|]; try done.
  simpl. apply off_nextLoc.
Qed.

Lemma perform_nextLoc (w : World HState) ef :
  (nextLoc (bus w) ≤ nextLoc (bus (Full.perform w ef)))%nat.
Proof.
  destruct ef as [a|e t|k]; simpl.
  - apply run_action_nextLoc.
  - apply register_nextLoc.
  - apply timerElapses_nextLoc.
Qed.

Lemma timerElapses_deref k (w : World HState) l :
  (l < nextLoc (bus w))%nat → deref (bus (timerElapses k w)) l = deref (bus w) l.
Proof.
  intros Hl. unfold timerElapses. destruct (timers w !! k) as [[e t| |]|]; try done.
  simpl. by apply off_deref.
Qed.

Lemma register_keeps_tail e h p o b arr j (s : Subscription) :
  bus_inv b → (arr < nextLoc b)%nat →
  s ∈ drop j (deref b arr) → s ∈ drop j (deref (EventBus.register e h p o b) arr).
Proof.
  intros Hb Harr Hs.
  destruct (register_deref e h p o b arr Harr) as [-> | ->]; [done|].
  rewrite sort_push by apply (inv_sorted b Hb). by apply place_keeps_tail.
Qed.

(** Nothing that happens while a handler is awaited takes an element away
    from what an iterator has yet to visit. *)
Lemma perform_keeps_tail (w : World HState) ef arr j (s : Subscription) :
  bus_inv (bus w) → (arr < nextLoc (bus w))%nat →
  s ∈ drop j (deref (bus w) arr) → s ∈ drop j (deref (bus (Full.perform w ef)) arr).
Proof.
  intros Hb Harr Hs. destruct ef as [a|e t|k]; simpl.
  - by apply run_action_keeps_tail.
  - by apply register_keeps_tail.
  - by rewrite timerElapses_deref.
Qed.

Lemma perform_hstate (w : World HState) ef : hstate (Full.perform w ef) = hstate w.
Proof.
  destruct ef as [a|e t|k]; simpl; try done.
  unfold timerElapses. by destruct (timers w !! k) as [[| |]|].
Qed.

Lemma performs_inv (w : World HState) efs :
  bus_inv (bus w) → bus_inv (bus (foldl Full.perform w efs)).
Proof.
  revert w. induction efs as [|ef efs IH]; intros w Hb; [done|].
  simpl. by apply IH, perform_inv.
Qed.

Lemma performs_nextLoc (w : World HState) efs :
  (nextLoc (bus w) ≤ nextLoc (bus (foldl Full.perform w efs)))%nat.
Proof.
  revert w. induction efs as [|ef efs IH]; intros w; [done|].
  simpl. pose proof (perform_nextLoc w ef). pose proof (IH (Full.perform w ef)). lia.
Qed.

Lemma performs_keeps_tail (w : World HState) efs arr j (s : Subscription) :
  bus_inv (bus w) → (arr < nextLoc (bus w))%nat →
  s ∈ drop j (deref (bus w) arr) →
  s ∈ drop j (deref (bus (foldl Full.perform w efs)) arr).
Proof.
  revert w. induction efs as [|ef efs IH]; intros w Hb Harr Hs; [done|].
  simpl. apply IH.
  - by apply perform_inv.
  - pose proof (perform_nextLoc w ef). lia.
  - by apply perform_keeps_tail.
Qed.

Lemma performs_hstate (w : World HState) efs :
  hstate (foldl Full.perform w efs) = hstate w.
Proof.
  revert w. induction efs as [|ef efs IH]; intros w; [done|].
  simpl. by rewrite IH, perform_hstate.
Qed.

(** ** One invocation *)

Lemma full_invoke_inv h args (w : World HState) :
  bus_inv (bus w) → bus_inv (bus (Full.invoke behave h args w).1).
Proof.
  intros Hb. destruct h as [f|k]; simpl; [|done].
  destruct (behave f args (hstate w)) as [[efs out] st]. simpl.
  by apply performs_inv.
Qed.

Lemma full_invoke_nextLoc h args (w : World HState) :
  (nextLoc (bus w) ≤ nextLoc (bus (Full.invoke behave h args w).1))%nat.
Proof.
  destruct h as [f|k]; simpl; [|done].
  destruct (behave f args (hstate w)) as [[efs out] st]. simpl.
  apply (performs_nextLoc (mkWorld _ _ _ _ _)).
Qed.

Lemma full_invoke_keeps_tail h args (w : World HState) arr j (s : Subscription) :
  bus_inv (bus w) → (arr < nextLoc (bus w))%nat →
  s ∈ drop j (deref (bus w) arr) →
  s ∈ drop j (deref (bus (Full.invoke behave h args w).1) arr).
Proof.
  intros Hb Harr Hs. destruct h as [f|k]; simpl; [|done].
  destruct (behave f args (hstate w)) as [[efs out] st]. simpl.
  by apply (performs_keeps_tail (mkWorld _ _ _ _ _)).
Qed.

(** An invocation is the execution of the body: its completion and the
    private state it leaves are those the body gives. *)
Lemma full_invoke_replay h args (w : World HState) :
  Full.replay behave [(h, args)] (hstate w)
  = ([Full.mkCall h args (Full.invoke behave h args w).2],
     hstate (Full.invoke behave h args w).1).
Proof.
  destruct h as [f|k]; simpl; [|done].
  destruct (behave f args (hstate w)) as [[efs out] st]. simpl.
  by rewrite (performs_hstate (mkWorld _ _ _ _ _)).
Qed.

Lemma replay_app ts1 ts2 (st : HState) :
  Full.replay behave (ts1 ++ ts2) st
  = ((Full.replay behave ts1 st).1
       ++ (Full.replay behave ts2 (Full.replay behave ts1 st).2).1,
     (Full.replay behave ts2 (Full.replay behave ts1 st).2).2).
Proof.
  revert st. induction ts1 as [|[h args] ts1 IH]; intros st; simpl.
  - by destruct (Full.replay behave ts2 st).
  - destruct h as [f|k]; simpl; by rewrite IH.
Qed.

Lemma performed_nil (st : HState) : Full.performed behave [] st st.
Proof. done. Qed.

Lemma performed_app cs1 cs2 (st1 st2 st3 : HState) :
  Full.performed behave cs1 st1 st2 → Full.performed behave cs2 st2 st3 →
  Full.performed behave (cs1 ++ cs2) st1 st3.
Proof.
  unfold Full.performed. intros H1 H2.
  rewrite fmap_app, replay_app, H1. cbn [fst snd]. by rewrite H2.
Qed.

Lemma full_invoke_performed h args (w : World HState) :
  Full.performed behave [Full.mkCall h args (Full.invoke behave h args w).2]
    (hstate w) (hstate (Full.invoke behave h args w).1).
Proof. unfold Full.performed. simpl. apply full_invoke_replay. Qed.

(** ** One step of a pass *)

Lemma full_pass_step_world args (st : Full.Pass HState) sub :
  Full.world (Full.pass_step behave args st sub)
  = (Full.invoke behave (Subscription.handler sub) args (Full.world st)).1.
Proof.
  unfold Full.pass_step. destruct (Full.invoke _ _ _ _) as [w' [|t]]; [done|].
  by destruct (Full.wrap t).
Qed.

Lemma full_pass_step_calls args (st : Full.Pass HState) sub :
  Full.calls (Full.pass_step behave args st sub)
  = Full.calls st ++ [Full.mkCall (Subscription.handler sub) args
                        (Full.invoke behave (Subscription.handler sub) args
                           (Full.world st)).2].
Proof.
  unfold Full.pass_step. destruct (Full.invoke _ _ _ _) as [w' [|t]]; [done|].
  by destruct (Full.wrap t).
Qed.

Lemma recorded_app cs1 cs2 :
  Full.recorded (cs1 ++ cs2) = Full.recorded cs1 ++ Full.recorded cs2.
Proof. unfold Full.recorded. apply flat_map_app. Qed.

(** What the [catch] clause pushes is what [recorded] lists. *)
Lemma wrap_recorded h args t err :
  Full.wrap t = Some err → Full.recorded [Full.mkCall h args (Full.Throws t)] = [err].
Proof.
  destruct t as [v|]; [|done]. intros [= <-].
  destruct v as [| |[|]|n|s| |m]; try reflexivity. simpl. unfold NumberToString. by destruct (Z.abs n <=? 2 ^ 53).
Qed.

Lemma wrap_none t : Full.wrap t = None ↔ t = Full.Bare.
Proof. destruct t; split; done. Qed.

(** The step either goes on, having pushed exactly the failure of the
    invocation, or leaves the loop on an object that has no string. *)
Lemma full_pass_step_cases args (st : Full.Pass HState) sub :
  let c := Full.mkCall (Subscription.handler sub) args
             (Full.invoke behave (Subscription.handler sub) args (Full.world st)).2 in
  (Full.thrown (Full.pass_step behave args st sub) = None ∧
   Full.result c ≠ Full.Throws Full.Bare ∧
   Full.errors (Full.pass_step behave args st sub) = Full.errors st ++ Full.recorded [c] ∧
   Full.toRemove (Full.pass_step behave args st sub)
   = Full.toRemove st ++ onceHandlers [sub]) ∨
  (Full.thrown (Full.pass_step behave args st sub) = Some Full.typeError ∧
   Full.result c = Full.Throws Full.Bare ∧
   Full.errors (Full.pass_step behave args st sub) = Full.errors st ∧
   Full.toRemove (Full.pass_step behave args st sub) = Full.toRemove st).
Proof.
  cbv zeta. unfold Full.pass_step.
  assert (∀ l : list Handler,
            (if Subscription.once sub then l ++ [Subscription.handler sub] else l)
            = l ++ onceHandlers [sub]) as Hrem.
  { intros l. unfold onceHandlers. rewrite filter_cons, filter_nil.
    destruct (Subscription.once sub) eqn:E; case_decide; try done.
    by rewrite app_nil_r. }
  destruct (Full.invoke _ _ _ _) as [w' [|t]]; cbn [snd Full.result].
  - left. cbn [Full.thrown Full.errors Full.toRemove]. rewrite Hrem.
    split; [done|]. split; [done|]. split; [|done]. by rewrite app_nil_r.
  - destruct (Full.wrap t) as [err|] eqn:W.
    + left. cbn [Full.thrown Full.errors Full.toRemove].
      rewrite Hrem, (wrap_recorded (Subscription.handler sub) args _ _ W).
      split; [done|]. split; [|done]. intros [= ->]. done.
    + right. apply wrap_none in W as ->. done.
Qed.

(** ** A whole pass *)

Lemma full_run_pass_S fuel arr i args (st : Full.Pass HState) :
  Full.run_pass behave (S fuel) arr i args st
  = match deref (bus (Full.world st)) arr !! i with
    | None => Some st
    | Some sub =>
        match Full.thrown (Full.pass_step behave args st sub) with
        | Some _ => Some (Full.pass_step behave args st sub)
        | None => Full.run_pass behave fuel arr (S i) args (Full.pass_step behave args st sub)
        end
    end.
Proof. done. Qed.

Lemma full_run_pass_inv fuel arr i args (st st' : Full.Pass HState) :
  Full.run_pass behave fuel arr i args st = Some st' →
  bus_inv (bus (Full.world st)) → bus_inv (bus (Full.world st')).
Proof.
  revert i st. induction fuel as [|fuel IH]; intros i st; [done|].
  rewrite full_run_pass_S.
  destruct (deref (bus (Full.world st)) arr !! i) as [sub|]; [|by intros [= <-]].
  intros H Hb.
  assert (bus_inv (bus (Full.world (Full.pass_step behave args st sub)))) as Hb'.
  { rewrite full_pass_step_world. by apply full_invoke_inv. }
  destruct (Full.thrown _); [by injection H as <-|]. by eapply IH.
Qed.

(** Whatever the handlers do, a pass that ends has added invocations with
    the arguments of the pass, which are the executions of the bodies.  It
    has pushed exactly their failures, unless it was left on an object that
    has no string, thrown by its last invocation. *)
Lemma full_run_pass_calls fuel arr i args (st st' : Full.Pass HState) :
  Full.run_pass behave fuel arr i args st = Some st' →
  Full.thrown st = None →
  ∃ cs, Full.calls st' = Full.calls st ++ cs ∧
    Forall (λ c, Full.argv c = args) cs ∧
    Full.performed behave cs (hstate (Full.world st)) (hstate (Full.world st')) ∧
    ((Full.thrown st' = None ∧
      (∀ c, c ∈ cs → Full.result c ≠ Full.Throws Full.Bare) ∧
      Full.errors st' = Full.errors st ++ Full.recorded cs) ∨
     (Full.thrown st' = Some Full.typeError ∧
      (∃ cs0 c, cs = cs0 ++ [c] ∧ Full.result c = Full.Throws Full.Bare ∧
                ∀ c0, c0 ∈ cs0 → Full.result c0 ≠ Full.Throws Full.Bare))).
Proof.
  revert i st. induction fuel as [|fuel IH]; intros i st; [done|].
  rewrite full_run_pass_S.
  destruct (deref (bus (Full.world st)) arr !! i) as [sub|].
  2:{ intros [= <-] Ht. exists []. rewrite !app_nil_r.
      split; [done|]. split; [done|]. split; [apply performed_nil|].
      left. split; [done|]. split; [|done]. intros c Hc. by apply elem_of_nil in Hc. }
  intros H Ht.
  pose proof (full_pass_step_calls args st sub) as C.
  pose proof (full_pass_step_world args st sub) as Ew.
  pose proof (full_invoke_performed (Subscription.handler sub) args (Full.world st)) as P.
  rewrite <- Ew in P.
  destruct (full_pass_step_cases args st sub) as [(T & R & Er & _)|(T & R & Er & _)];
    rewrite T in H.
  - destruct (IH _ _ H T) as (cs & C' & F & P' & D).
    rewrite C, <- app_assoc in C'.
    eexists. split; [exact C'|]. split; [by constructor|].
    split; [by eapply (performed_app [_])|].
    destruct D as [(T' & R' & E')|(T' & cs0 & c & -> & Rc & R0)].
    + left. split; [done|]. split.
      * intros c [->|Hc]%elem_of_cons; [done | by apply R'].
      * rewrite E', Er, <- app_assoc. by rewrite <- recorded_app.
    + right. split; [done|]. eexists (_ :: cs0), c. split; [done|]. split; [done|].
      intros c0 [->|Hc]%elem_of_cons; [done | by apply R0].
  - injection H as <-. eexists [_]. split; [exact C|]. split; [by constructor|].
    split; [exact P|]. right. split; [done|].
    eexists [], _. split; [done|]. split; [exact R|].
    intros c0 Hc. by apply elem_of_nil in Hc.
Qed.

(** Whatever the handlers do, a pass that runs to its end has invoked every
    subscription that was in the array, at or behind the iterator, when it
    started. *)
Lemma full_run_pass_covers fuel arr i args (st st' : Full.Pass HState) :
  Full.run_pass behave fuel arr i args st = Some st' →
  Full.thrown st' = None →
  bus_inv (bus (Full.world st)) → (arr < nextLoc (bus (Full.world st)))%nat →
  ∃ cs, Full.calls st' = Full.calls st ++ cs ∧
    ∀ s, s ∈ drop i (deref (bus (Full.world st)) arr) →
      ∃ c, c ∈ cs ∧ Full.callee c = Subscription.handler s ∧ Full.argv c = args.
Proof.
  revert i st. induction fuel as [|fuel IH]; intros i st; [done|].
  rewrite full_run_pass_S.
  destruct (deref (bus (Full.world st)) arr !! i) as [sub|] eqn:E.
  2:{ intros [= <-] _ _ _. exists []. split; [by rewrite app_nil_r|].
      apply lookup_ge_None in E. intros s. rewrite drop_ge by done.
      intros Hs. by apply elem_of_nil in Hs. }
  intros H Ht Hb Harr.
  pose proof (full_pass_step_calls args st sub) as C.
  pose proof (full_pass_step_world args st sub) as Ew.
  destruct (Full.thrown (Full.pass_step behave args st sub)) eqn:T.
  { injection H as <-. congruence. }
  destruct (IH _ _ H Ht) as (cs & C' & Hcov).
  { rewrite Ew. by apply full_invoke_inv. }
  { rewrite Ew.
    pose proof (full_invoke_nextLoc (Subscription.handler sub) args (Full.world st)). lia. }
  rewrite C, <- app_assoc in C'.
  eexists. split; [exact C'|].
  intros s Hs. rewrite (drop_S _ _ _ E) in Hs.
  apply elem_of_cons in Hs as [->|Hs].
  - eexists. split; [by left | done].
  - destruct (Hcov s) as (c & Hc & Hc').
    { rewrite Ew. by apply full_invoke_keeps_tail. }
    exists c. split; [by right | done].
Qed.

End FullPasses.

Section FullEmit.

Context {HState : Type}.
Variable behave : nat → list Value → HState → list Full.Effect * Full.Completion * HState.


(** How [emit] is made of its two passes. *)
Lemma full_emit_cases fuel e args (w w' : World HState) r cs :
  Full.emit behave fuel e args w = Some (w', r, cs) →
  ∃ p1,
    Full.run_pass behave fuel (getListeners e w).1 0 args
      (Full.mkPass (getListeners e w).2 [] [] [] None) = Some p1 ∧
    ((∃ err, Full.thrown p1 = Some err ∧
             w' = Full.world p1 ∧ r = Uncaught err ∧ cs = Full.calls p1) ∨
     (Full.thrown p1 = None ∧
      ∃ p2,
        Full.run_pass behave fuel
          (wildcardListeners (bus (prune e (Full.toRemove p1) (Full.world p1)))) 0
          (VStr e :: args)
          (Full.mkPass (prune e (Full.toRemove p1) (Full.world p1))
             (Full.errors p1) [] (Full.calls p1) None) = Some p2 ∧
        ((∃ err, Full.thrown p2 = Some err ∧
                 w' = Full.world p2 ∧ r = Uncaught err ∧ cs = Full.calls p2) ∨
         (Full.thrown p2 = None ∧
          w' = prune "*" (Full.toRemove p2) (Full.world p2) ∧
          r = outcome (Full.errors p2) e ∧ cs = Full.calls p2)))).
Proof.
  unfold Full.emit. destruct (getListeners e w) as [subs w0]. cbn [fst snd].
  destruct (Full.run_pass behave fuel subs 0 args _) as [p1|] eqn:E1; [|done].
  cbn [mbind option_bind]. intros H. exists p1. split; [done|].
  destruct (Full.thrown p1) as [err|] eqn:T1.
  { injection H as <- <- <-. left. by exists err. }
  right. split; [done|].
  destruct (Full.run_pass behave fuel _ 0 (VStr e :: args) _) as [p2|] eqn:E2; [|done].
  cbn [mbind option_bind] in H. exists p2. split; [done|].
  destruct (Full.thrown p2) as [err|] eqn:T2.
  { injection H as <- <- <-. left. by exists err. }
  injection H as <- <- <-. by right.
Qed.



Lemma full_emit_inv fuel e args (w w' : World HState) r cs :
  Full.emit behave fuel e args w = Some (w', r, cs) →
  bus_inv (bus w) → bus_inv (bus w').
Proof.
  intros H Hb. apply full_emit_cases in H as (p1 & E1 & H).
  destruct (getListeners_spec e w Hb) as (Hb0 & _).
  apply full_run_pass_inv in E1; [|done].
  destruct H as [(err & _ & -> & _)|(_ & p2 & E2 & H)]; [done|].
  apply full_run_pass_inv in E2; [|by apply prune_inv].
  destruct H as [(err & _ & -> & _)|(_ & -> & _)]; [done|]. by apply prune_inv.
Qed.

Lemma full_run_op_inv o (w w' : World HState) :
  Full.run_op behave o w = Some w' → bus_inv (bus w) → bus_inv (bus w').
Proof.
  destruct o; simpl; intros H Hb; simplify_eq; simpl;
    unfold EventBus.on, EventBus.once;
    auto using register_inv, off_inv, removeAllListeners_inv, timerElapses_inv.
  destruct (Full.emit behave fuel event args w) as [[[w1 r] cs]|] eqn:E; [|done].
  simpl in H. simplify_eq. by eapply full_emit_inv.
Qed.

Lemma full_run_ops_inv os (w w' : World HState) :
  Full.run_ops behave os w = Some w' → bus_inv (bus w) → bus_inv (bus w').
Proof.
  revert w. induction os as [|o os IH]; intros w; simpl; [by intros [= <-]|].
  destruct (Full.run_op behave o w) as [w1|] eqn:E; [|done]. simpl.
  intros H Hb. eapply IH; [exact H|]. by eapply full_run_op_inv.
Qed.

Lemma full_reachable_inv (w : World HState) :
  Full.reachable behave w → bus_inv (bus w).
Proof. intros (st & os & H). eapply full_run_ops_inv; [exact H | apply newBus_inv]. Qed.

(** *** Emissions during which nothing else happens on the bus *)

Lemma full_invoke_quiet_bus h args (w : World HState) :
  Full.quiet behave → bus (Full.invoke behave h args w).1 = bus w.
Proof.
  intros Hq. destruct h as [f|k]; simpl; [|done].
  specialize (Hq f args (hstate w)).
  destruct (behave f args (hstate w)) as [[efs out] st]. simpl in *. by subst.
Qed.

Lemma full_invoke_convertible h args (w : World HState) :
  Full.convertible behave → (Full.invoke behave h args w).2 ≠ Full.Throws Full.Bare.
Proof.
  intros Hc. destruct h as [f|k]; simpl; [|done].
  specialize (Hc f args (hstate w)).
  by destruct (behave f args (hstate w)) as [[efs out] st].
Qed.

Lemma full_run_pass_quiet fuel arr i args (st : Full.Pass HState) :
  Full.quiet behave → Full.convertible behave → Full.thrown st = None →
  (length (deref (bus (Full.world st)) arr) - i < fuel)%nat →
  ∃ st',
    Full.run_pass behave fuel arr i args st = Some st' ∧
    Full.thrown st' = None ∧
    bus (Full.world st') = bus (Full.world st) ∧
    Full.calls st'
    = Full.calls st
        ++ (Full.replay behave (targets args (drop i (deref (bus (Full.world st)) arr)))
              (hstate (Full.world st))).1 ∧
    hstate (Full.world st')
    = (Full.replay behave (targets args (drop i (deref (bus (Full.world st)) arr)))
         (hstate (Full.world st))).2 ∧
    Full.errors st'
    = Full.errors st
        ++ Full.recorded
             (Full.replay behave (targets args (drop i (deref (bus (Full.world st)) arr)))
                (hstate (Full.world st))).1 ∧
    Full.toRemove st'
    = Full.toRemove st ++ onceHandlers (drop i (deref (bus (Full.world st)) arr)).
Proof.
  intros Hq Hc. revert i st. induction fuel as [|fuel IH]; intros i st Ht Hlen; [lia|].
  rewrite full_run_pass_S.
  destruct (deref (bus (Full.world st)) arr !! i) as [sub|] eqn:E.
  2:{ apply lookup_ge_None in E. rewrite drop_ge by done.
      exists st. simpl. by rewrite !app_nil_r. }
  pose proof (lookup_lt_Some _ _ _ E) as Hi.
  pose proof (full_pass_step_calls behave args st sub) as C.
  pose proof (full_pass_step_world behave args st sub) as Ew.
  pose proof (full_invoke_replay behave (Subscription.handler sub) args (Full.world st)) as R.
  rewrite <- Ew in R.
  assert (bus (Full.world (Full.pass_step behave args st sub)) = bus (Full.world st))
    as Hbus by (by rewrite Ew, full_invoke_quiet_bus).
  destruct (full_pass_step_cases behave args st sub)
    as [(T & _ & Er & Rm)|(_ & Rb & _)].
  2:{ exfalso. by eapply full_invoke_convertible. }
  rewrite T.
  destruct (IH (S i) _ T) as (st' & E' & T' & B' & C' & H' & Er' & Rm').
  { rewrite Hbus. lia. }
  rewrite Hbus in *.
  exists st'. split; [done|]. split; [done|]. split; [done|].
  rewrite (drop_S _ _ _ E). unfold targets in *. rewrite fmap_cons.
  change ((Subscription.handler sub, args) :: ?l) with ([(Subscription.handler sub, args)] ++ l).
  rewrite (replay_app behave), R. cbn [fst snd].
  split; [by rewrite C', C, <- app_assoc|]. split; [done|]. split.
  - by rewrite Er', Er, <- app_assoc, <- recorded_app.
  - rewrite Rm', Rm, <- app_assoc. f_equal. unfold onceHandlers.
    by rewrite <- fmap_app, <- filter_app.
Qed.

(** With nothing else happening on the bus, the two passes run over the
    sequences stored when [emit] is called. *)
Lemma full_emit_quiet fuel e args (w : World HState) :
  Full.quiet behave → Full.convertible behave → bus_inv (bus w) →
  (length (specificOf e (bus w)) < fuel)%nat →
  (length (wildcardOf (bus w)) < fuel)%nat →
  ∃ w',
    Full.emit behave fuel e args w
    = Some (w',
            outcome (Full.recorded
                       (Full.replay behave
                          (targets args (specificOf e (bus w))
                             ++ targets (VStr e :: args) (wildcardOf (bus w)))
                          (hstate w)).1) e,
            (Full.replay behave
               (targets args (specificOf e (bus w))
                  ++ targets (VStr e :: args) (wildcardOf (bus w)))
               (hstate w)).1) ∧
    hstate w'
    = (Full.replay behave
         (targets args (specificOf e (bus w))
            ++ targets (VStr e :: args) (wildcardOf (bus w)))
         (hstate w)).2 ∧
    bus_inv (bus w') ∧
    wildcardOf (bus w')
    = filter (λ s, Subscription.handler s ∉ onceHandlers (wildcardOf (bus w)))
        (wildcardOf (bus w)) ∧
    (e ≠ "*" →
     specificOf e (bus w')
     = filter (λ s, Subscription.handler s ∉ onceHandlers (specificOf e (bus w)))
         (specificOf e (bus w))).
Proof.
  intros Hq Hc Hb Hf1 Hf2. unfold Full.emit.
  destruct (getListeners_spec e w Hb) as (Hb0 & Hl0 & Hd0 & Hs0 & Hh0 & _).
  destruct (getListeners e w) as [subs w0]. cbn [fst snd] in *.
  destruct (full_run_pass_quiet fuel subs 0 args (Full.mkPass w0 [] [] [] None) Hq Hc)
    as (p1 & -> & T1 & B1 & C1 & H1 & Er1 & Rm1); [done|simpl; rewrite Hd0; lia|].
  cbn [mbind option_bind]. rewrite T1.
  cbn [Full.world Full.calls Full.errors Full.toRemove app] in *.
  rewrite drop_0, Hd0, Hh0 in *.
  set (w2 := prune e (Full.toRemove p1) (Full.world p1)).
  assert (bus_inv (bus w2)) as Hb2 by (apply prune_inv; by rewrite B1).
  assert (wildcardOf (bus w2) = wildcardOf (bus w)) as HW.
  { change (subsOf "*" (bus w2) = subsOf "*" (bus w)). rewrite <- Hs0, <- B1.
    destruct (decide (e = "*")) as [->|Hne].
    - subst w2. rewrite Rm1, (specificOf_star _ Hb). done.
    - apply prune_subsOf_ne; [by rewrite B1 | done]. }
  destruct (full_run_pass_quiet fuel (wildcardListeners (bus w2)) 0 (VStr e :: args)
              (Full.mkPass w2 (Full.errors p1) [] (Full.calls p1) None) Hq Hc)
    as (p2 & -> & T2 & B2 & C2 & H2 & Er2 & Rm2); [done| |].
  { cbn [Full.world]. change (deref (bus w2) (wildcardListeners (bus w2)))
      with (wildcardOf (bus w2)). rewrite HW. lia. }
  cbn [mbind option_bind]. rewrite T2.
  cbn [Full.world Full.calls Full.errors Full.toRemove app] in *.
  change (deref (bus w2) (wildcardListeners (bus w2))) with (wildcardOf (bus w2)) in *.
  rewrite drop_0, HW in *. change (hstate w2) with (hstate (Full.world p1)) in *.
  rewrite H1 in *.
  eexists. rewrite (replay_app behave). cbn [fst snd].
  split; [|split; [|split; [|split]]].
  - rewrite C2, C1, Er2, Er1, recorded_app. done.
  - done.
  - apply prune_inv. by rewrite B2.
  - change (wildcardOf ?b) with (subsOf "*" b) at 1.
    rewrite prune_subsOf, B2, Rm2.
    change (subsOf "*" (bus w2)) with (wildcardOf (bus w2)). by rewrite HW.
  - intros Hne. rewrite <- (subsOf_specific e (bus (prune _ _ _))) by done.
    rewrite prune_subsOf_ne by (by rewrite ?B2). rewrite B2. subst w2.
    rewrite prune_subsOf, B1, Hs0, Rm1. by rewrite subsOf_specific.
Qed.

End FullEmit.

(** * The states of a [waitFor] under the full dispatcher *)

Section FullWait.

Context {HState : Type}.
Variable behave : nat → list Value → HState → list Full.Effect * Full.Completion * HState.
Variable k : nat.
Variable e : string.
Variable t : Z.

Lemma timerElapses_other k' (w : World HState) :
  k' ≠ k →
  promises (timerElapses k' w) !! k = promises w !! k ∧
  timers (timerElapses k' w) !! k = timers w !! k.
Proof.
  intros Hne. unfold timerElapses.
  destruct (timers w !! k') as [[e' t'| |]|]; try done. simpl.
  rewrite settle_other by done. by rewrite lookup_insert_ne.
Qed.

Lemma timerElapses_nextWait k' (w : World HState) :
  nextWait (timerElapses k' w) = nextWait w.
Proof. unfold timerElapses. by destruct (timers w !! k') as [[| |]|]. Qed.

Lemma timerElapses_pending (w : World HState) :
  stillPending k e t w → timedOut k e t (timerElapses k w).
Proof.
  intros [Hp Ht]. unfold timedOut, timerElapses. rewrite Ht. simpl.
  split; [by apply settle_pending | apply lookup_insert_eq].
Qed.

Lemma timerElapses_resolved args k' (w : World HState) :
  resolvedWith k args w → resolvedWith k args (timerElapses k' w).
Proof.
  intros [Hp Ht]. destruct (decide (k' = k)) as [->|Hne].
  - unfold timerElapses. by rewrite Ht.
  - destruct (timerElapses_other k' w Hne) as [Ep Et]. unfold resolvedWith.
    by rewrite Ep, Et.
Qed.

Lemma timerElapses_timedOut k' (w : World HState) :
  timedOut k e t w → timedOut k e t (timerElapses k' w).
Proof.
  intros [Hp Ht]. destruct (decide (k' = k)) as [->|Hne].
  - unfold timerElapses. by rewrite Ht.
  - destruct (timerElapses_other k' w Hne) as [Ep Et]. unfold timedOut.
    by rewrite Ep, Et.
Qed.

(** What one effect does to the [k]-th [waitFor]: only the elapsing of its
    own timer changes its state, and only while it is pending. *)
Lemma perform_wait (w : World HState) ef :
  (k < nextWait w)%nat →
  (k < nextWait (Full.perform w ef))%nat ∧
  (∀ args, resolvedWith k args w → resolvedWith k args (Full.perform w ef)) ∧
  (timedOut k e t w → timedOut k e t (Full.perform w ef)) ∧
  (stillPending k e t w →
   (ef ≠ Full.Elapses k ∧ stillPending k e t (Full.perform w ef)) ∨
   (ef = Full.Elapses k ∧ timedOut k e t (Full.perform w ef))).
Proof.
  intros Hk. destruct ef as [a|e' t'|k']; simpl.
  - split; [done|]. split; [done|]. split; [done|]. intros H. by left.
  - unfold resolvedWith, timedOut, stillPending. simpl.
    rewrite !lookup_insert_ne by lia.
    split; [lia|]. split; [done|]. split; [done|]. intros H. by left.
  - rewrite timerElapses_nextWait. split; [done|].
    split; [intros args; apply timerElapses_resolved|].
    split; [apply timerElapses_timedOut|].
    intros H. destruct (decide (k' = k)) as [->|Hne].
    + right. split; [done|]. by apply timerElapses_pending.
    + left. split; [congruence|].
      destruct (timerElapses_other k' w Hne) as [Ep Et]. unfold stillPending.
      by rewrite Ep, Et.
Qed.

Lemma performs_wait (mp : Prop) (A : list Value → Prop) (allow : Prop)
    (w : World HState) efs :
  (mp → allow ∨ Full.Elapses k ∉ efs) →
  waitState k e t mp A allow w → waitState k e t mp A allow (foldl Full.perform w efs).
Proof.
  revert w. induction efs as [|ef efs IH]; intros w Ha H; [done|].
  simpl. apply IH.
  { intros Hm. destruct (Ha Hm) as [Hal|Hal]; [by left|].
    right. intros Hin. apply Hal. by right. }
  destruct H as [Hk H]. destruct (perform_wait w ef Hk) as (Hk' & Hr & Ht & Hp).
  split; [done|]. destruct H as [[Hm H]|[(args & HA & H)|[Hal H]]].
  - destruct (Hp H) as [[_ H']|[-> H']]; [by left|].
    right. right. split; [|done].
    destruct (Ha Hm) as [Hal|Hal]; [done|]. destruct Hal. by left.
  - right. left. exists args. split; [done|]. by apply Hr.
  - right. right. split; [done|]. by apply Ht.
Qed.

Lemma clearTimeout_fired k' (tm : gmap nat Timer) :
  tm !! k = Some Fired → clearTimeout k' tm !! k = Some Fired.
Proof.
  intros H. destruct (decide (k = k')) as [<-|Hne].
  - unfold clearTimeout. by rewrite H.
  - by rewrite clearTimeout_other.
Qed.

(** The closure of the [k]-th [waitFor] settles it, if it is not settled
    yet. *)
Lemma full_invoke_waiter (mp : Prop) (A : list Value → Prop) (allow : Prop) args
    (w : World HState) :
  (mp → A args) →
  waitState k e t mp A allow w →
  waitState k e t False A allow (Full.invoke behave (Waiter k) args w).1.
Proof.
  intros HA [Hk H]. split; [done|].
  unfold stillPending, resolvedWith, timedOut in *. simpl.
  destruct H as [[Hm [Hp Ht]]|[(a & HAa & Hp & Ht)|[Hal [Hp Ht]]]].
  - right. left. exists args. split; [by apply HA|].
    split; [by apply settle_pending | by eapply clearTimeout_armed].
  - right. left. exists a. split; [done|].
    split; [by apply settle_settled | by apply clearTimeout_cleared].
  - right. right. split; [done|].
    split; [by apply settle_settled | by apply clearTimeout_fired].
Qed.

Lemma waitState_weaken (mp mp' : Prop) (A : list Value → Prop) (allow : Prop)
    (w : World HState) :
  (mp → mp') → waitState k e t mp A allow w → waitState k e t mp' A allow w.
Proof.
  intros Hm [Hk H]. split; [done|].
  destruct H as [[H1 H2]|[H|H]]; [left; by split; [apply Hm|] | by right; left | by right; right].
Qed.

(** What one invocation does to the [k]-th [waitFor]. *)
Lemma full_invoke_wait (mp : Prop) (A : list Value → Prop) (allow : Prop) h args
    (w : World HState) :
  (mp → allow ∨ Full.patient behave k) →
  (mp → h = Waiter k → A args) →
  waitState k e t mp A allow w →
  waitState k e t mp A allow (Full.invoke behave h args w).1.
Proof.
  intros Ha HA H. destruct h as [f|k'].
  - simpl.
    pose proof (λ Hp : Full.patient behave k, Hp f args (hstate w)) as Hpat.
    destruct (behave f args (hstate w)) as [[efs out] st]. simpl in *.
    apply performs_wait; [|done].
    intros Hm. destruct (Ha Hm) as [Hal|Hal]; [by left | right; auto].
  - destruct (decide (k' = k)) as [->|Hne].
    + apply (waitState_weaken False); [done|].
      apply (full_invoke_waiter mp); [auto | done].
    + destruct H as [Hk H]. split; [done|].
      unfold stillPending, resolvedWith, timedOut in *. simpl.
      rewrite settle_other, clearTimeout_other by done. done.
Qed.

Lemma full_run_pass_wait (mp : Prop) (A : list Value → Prop) (allow : Prop)
    fuel arr i args (st st' : Full.Pass HState) :
  (mp → allow ∨ Full.patient behave k) → (mp → A args) →
  Full.run_pass behave fuel arr i args st = Some st' →
  waitState k e t mp A allow (Full.world st) →
  waitState k e t mp A allow (Full.world st').
Proof.
  intros Ha HA. revert i st. induction fuel as [|fuel IH]; intros i st; [done|].
  rewrite full_run_pass_S.
  destruct (deref (bus (Full.world st)) arr !! i) as [sub|]; [|by intros [= <-]].
  intros H Hs.
  assert (waitState k e t mp A allow (Full.world (Full.pass_step behave args st sub)))
    as Hs'.
  { rewrite full_pass_step_world. apply full_invoke_wait; auto. }
  destruct (Full.thrown _); [by injection H as <-|]. by eapply IH.
Qed.

(** A pass that runs to its end over an array that holds the closure of the
    [k]-th [waitFor] leaves it settled: resolved with the arguments of the
    pass, unless it was settled before its turn. *)
Lemma full_run_pass_settles (mp : Prop) (A : list Value → Prop) (allow : Prop)
    fuel arr i args (st st' : Full.Pass HState) (s : Subscription) :
  (mp → allow ∨ Full.patient behave k) → (mp → A args) →
  Full.run_pass behave fuel arr i args st = Some st' →
  Full.thrown st' = None →
  bus_inv (bus (Full.world st)) → (arr < nextLoc (bus (Full.world st)))%nat →
  Subscription.handler s = Waiter k →
  s ∈ drop i (deref (bus (Full.world st)) arr) →
  waitState k e t mp A allow (Full.world st) →
  waitState k e t False A allow (Full.world st').
Proof.
  intros Ha HA. revert i st. induction fuel as [|fuel IH]; intros i st; [done|].
  rewrite full_run_pass_S.
  destruct (deref (bus (Full.world st)) arr !! i) as [sub|] eqn:E.
  2:{ intros _ _ _ _ _ Hs. apply lookup_ge_None in E. rewrite drop_ge in Hs by done.
      by apply elem_of_nil in Hs. }
  intros H Ht Hb Harr Hw Hs Hst.
  pose proof (full_pass_step_world behave args st sub) as Ew.
  destruct (Full.thrown (Full.pass_step behave args st sub)) eqn:T.
  { injection H as <-. congruence. }
  rewrite (drop_S _ _ _ E) in Hs.
  destruct (decide (Subscription.handler sub = Waiter k)) as [Esub|Hne].
  - (* the closure is invoked now; the rest of the pass keeps it settled *)
    assert (waitState k e t False A allow
              (Full.world (Full.pass_step behave args st sub))) as Hnow.
    { rewrite Ew, Esub. by apply (full_invoke_waiter mp). }
    eapply (full_run_pass_wait False); [done|done|exact H|exact Hnow].
  - apply elem_of_cons in Hs as [->|Hs]; [congruence|].
    eapply (IH _ _ H Ht).
    + rewrite Ew. by apply full_invoke_inv.
    + rewrite Ew.
      pose proof (full_invoke_nextLoc behave (Subscription.handler sub) args (Full.world st)).
      lia.
    + done.
    + rewrite Ew. by apply full_invoke_keeps_tail.
    + rewrite Ew. apply full_invoke_wait; [done| |done].
      intros _ Hh. congruence.
Qed.

(** *** Through an emission and through any calls *)

Lemma prune_waitState (mp : Prop) (A : list Value → Prop) (allow : Prop) ev hs
    (w : World HState) :
  waitState k e t mp A allow w → waitState k e t mp A allow (prune ev hs w).
Proof. done. Qed.

Lemma getListeners_waitState (mp : Prop) (A : list Value → Prop) (allow : Prop) ev
    (w : World HState) :
  waitState k e t mp A allow w → waitState k e t mp A allow (getListeners ev w).2.
Proof. unfold getListeners. by destruct (listeners (bus w) !! ev). Qed.

Lemma full_emit_wait (mp : Prop) (A : list Value → Prop) (allow : Prop)
    fuel ev args (w w' : World HState) r cs :
  (mp → allow ∨ Full.patient behave k) →
  (mp → A args ∧ A (VStr ev :: args)) →
  Full.emit behave fuel ev args w = Some (w', r, cs) →
  waitState k e t mp A allow w → waitState k e t mp A allow w'.
Proof.
  intros Ha HA H Hw. apply full_emit_cases in H as (p1 & E1 & H).
  apply (full_run_pass_wait mp A allow) in E1;
    [|done|intros Hm; by destruct (HA Hm)|by apply getListeners_waitState].
  destruct H as [(err & _ & -> & _)|(_ & p2 & E2 & H)]; [done|].
  apply (full_run_pass_wait mp A allow) in E2;
    [|done|intros Hm; by destruct (HA Hm)|by apply prune_waitState].
  destruct H as [(err & _ & -> & _)|(_ & -> & _)]; [done|]. by apply prune_waitState.
Qed.

Lemma full_run_op_wait (mp : Prop) (allow : Prop) (A : list Value → Prop) o
    (w w' : World HState) :
  (mp → allow) → (mp → ∀ a, A a) →
  Full.run_op behave o w = Some w' →
  waitState k e t mp A allow w → waitState k e t mp A allow w'.
Proof.
  intros Ha HA H Hw. destruct o as [ev f p|ev f p|ev f|fuel ev args|ev t'|ev|k'];
    simpl in H; try (injection H as <-; exact Hw).
  - destruct (Full.emit behave fuel ev args w) as [[[w1 r] cs]|] eqn:E; [|done].
    simpl in H. injection H as <-.
    eapply full_emit_wait; [| |exact E|exact Hw]; auto.
  - injection H as <-.
    apply (performs_wait mp A allow w [Full.WaitsFor ev t']); [|done]. auto.
  - injection H as <-.
    apply (performs_wait mp A allow w [Full.Elapses k']); [|done]. auto.
Qed.

Lemma full_run_ops_wait (mp : Prop) (allow : Prop) (A : list Value → Prop) os
    (w w' : World HState) :
  (mp → allow) → (mp → ∀ a, A a) →
  Full.run_ops behave os w = Some w' →
  waitState k e t mp A allow w → waitState k e t mp A allow w'.
Proof.
  intros Ha HA. revert w. induction os as [|o os IH]; intros w; simpl.
  - by intros [= <-].
  - destruct (Full.run_op behave o w) as [w1|] eqn:E; [|done]. simpl.
    intros H Hw. eapply IH; [exact H|]. by eapply full_run_op_wait.
Qed.

End FullWait.

(** *** Emissions during which no subscription is registered *)

Section FullNoRegistration.

Context {HState : Type}.
Variable behave : nat → list Value → HState → list Full.Effect * Full.Completion * HState.

Lemma perform_noreg_deref (w : World HState) ef l :
  Full.registers ef = false → (l < nextLoc (bus w))%nat →
  deref (bus (Full.perform w ef)) l = deref (bus w) l.
Proof.
  intros Hr Hl. destruct ef as [a|e t|k]; simpl in *; [|done|by apply timerElapses_deref].
  destruct a; simpl in *; try done.
  - by apply off_deref.
  - by apply removeAllListeners_deref.
Qed.

Lemma performs_noreg_deref (w : World HState) efs l :
  Forall (λ ef, Full.registers ef = false) efs → (l < nextLoc (bus w))%nat →
  deref (bus (foldl Full.perform w efs)) l = deref (bus w) l.
Proof.
  revert w. induction efs as [|ef efs IH]; intros w Hall Hl; [done|].
  apply Forall_cons in Hall as [Hef Hall]. simpl.
  rewrite IH; [by apply perform_noreg_deref | done |].
  pose proof (perform_nextLoc w ef). lia.
Qed.

Lemma full_invoke_noreg_deref h args (w : World HState) l :
  Full.no_registration behave → (l < nextLoc (bus w))%nat →
  deref (bus (Full.invoke behave h args w).1) l = deref (bus w) l.
Proof.
  intros Hn Hl. destruct h as [f|k]; simpl; [|done].
  specialize (Hn f args (hstate w)).
  destruct (behave f args (hstate w)) as [[efs out] st]. simpl in *.
  by rewrite performs_noreg_deref.
Qed.

Lemma enact_cons h args ts (w : World HState) :
  Full.enact behave ((h, args) :: ts) w
  = Full.enact behave ts (Full.invoke behave h args w).1.
Proof. done. Qed.

Lemma enact_hstate ts (w : World HState) :
  hstate (Full.enact behave ts w) = (Full.replay behave ts (hstate w)).2.
Proof.
  revert w. induction ts as [|[h a] ts IH]; intros w; [done|].
  rewrite enact_cons, IH.
  change ((h, a) :: ts) with ([(h, a)] ++ ts).
  by rewrite (replay_app behave), (full_invoke_replay behave).
Qed.

Lemma enact_inv ts (w : World HState) :
  bus_inv (bus w) → bus_inv (bus (Full.enact behave ts w)).
Proof.
  revert w. induction ts as [|[h a] ts IH]; intros w Hb; [done|].
  rewrite enact_cons. by apply IH, full_invoke_inv.
Qed.


(** The array that a loop iterates is not written while no subscription is
    registered: the loop invokes the subscriptions that it held when the
    loop started. *)
Lemma full_run_pass_noreg fuel arr i args (st : Full.Pass HState) :
  Full.no_registration behave → Full.convertible behave → Full.thrown st = None →
  (arr < nextLoc (bus (Full.world st)))%nat →
  (length (deref (bus (Full.world st)) arr) - i < fuel)%nat →
  ∃ st',
    Full.run_pass behave fuel arr i args st = Some st' ∧
    Full.thrown st' = None ∧
    Full.world st'
    = Full.enact behave (targets args (drop i (deref (bus (Full.world st)) arr)))
        (Full.world st) ∧
    Full.calls st'
    = Full.calls st
        ++ (Full.replay behave (targets args (drop i (deref (bus (Full.world st)) arr)))
              (hstate (Full.world st))).1 ∧
    Full.errors st'
    = Full.errors st
        ++ Full.recorded
             (Full.replay behave (targets args (drop i (deref (bus (Full.world st)) arr)))
                (hstate (Full.world st))).1 ∧
    Full.toRemove st'
    = Full.toRemove st ++ onceHandlers (drop i (deref (bus (Full.world st)) arr)).
Proof.
  intros Hn Hc. revert i st. induction fuel as [|fuel IH]; intros i st Ht Harr Hlen; [lia|].
  rewrite full_run_pass_S.
  destruct (deref (bus (Full.world st)) arr !! i) as [sub|] eqn:E.
  2:{ apply lookup_ge_None in E. rewrite drop_ge by done.
      exists st. simpl. by rewrite !app_nil_r. }
  pose proof (lookup_lt_Some _ _ _ E) as Hi.
  pose proof (full_pass_step_calls behave args st sub) as C.
  pose proof (full_pass_step_world behave args st sub) as Ew.
  pose proof (full_invoke_replay behave (Subscription.handler sub) args (Full.world st)) as R.
  rewrite <- Ew in R.
  assert (deref (bus (Full.world (Full.pass_step behave args st sub))) arr
          = deref (bus (Full.world st)) arr) as Hd
    by (by rewrite Ew, full_invoke_noreg_deref).
  assert (arr < nextLoc (bus (Full.world (Full.pass_step behave args st sub))))%nat as Harr'.
  { rewrite Ew.
    pose proof (full_invoke_nextLoc behave (Subscription.handler sub) args (Full.world st)).
    lia. }
  destruct (full_pass_step_cases behave args st sub)
    as [(T & _ & Er & Rm)|(_ & Rb & _)].
  2:{ exfalso. by eapply full_invoke_convertible. }
  rewrite T.
  destruct (IH (S i) _ T Harr') as (st' & E' & T' & W' & C' & Er' & Rm').
  { rewrite Hd. lia. }
  rewrite Hd in *.
  exists st'. split; [done|]. split; [done|].
  rewrite (drop_S _ _ _ E). unfold targets in *. rewrite fmap_cons.
  split; [by rewrite enact_cons, W', Ew|].
  change ((Subscription.handler sub, args) :: ?l) with ([(Subscription.handler sub, args)] ++ l).
  rewrite (replay_app behave), R. cbn [fst snd].
  split; [by rewrite C', C, <- app_assoc|]. split.
  - by rewrite Er', Er, <- app_assoc, <- recorded_app.
  - rewrite Rm', Rm, <- app_assoc. f_equal. unfold onceHandlers.
    by rewrite <- fmap_app, <- filter_app.
Qed.

(** While no subscription is registered, an emission invokes the sequence
    stored for the event when [emit] is called, then the wildcard sequence
    stored when line 91 is reached. *)
Lemma full_emit_noreg fuel e args (w : World HState) :
  Full.no_registration behave → Full.convertible behave → bus_inv (bus w) →
  (length (specificOf e (bus w)) < fuel)%nat →
  (length (wildcardPass behave e args w) < fuel)%nat →
  ∃ w',
    Full.emit behave fuel e args w
    = Some (w',
            outcome (Full.recorded
                       (Full.replay behave
                          (targets args (specificOf e (bus w))
                             ++ targets (VStr e :: args) (wildcardPass behave e args w))
                          (hstate w)).1) e,
            (Full.replay behave
               (targets args (specificOf e (bus w))
                  ++ targets (VStr e :: args) (wildcardPass behave e args w))
               (hstate w)).1) ∧
    hstate w'
    = (Full.replay behave
         (targets args (specificOf e (bus w))
            ++ targets (VStr e :: args) (wildcardPass behave e args w))
         (hstate w)).2 ∧
    bus_inv (bus w').
Proof.
  intros Hn Hc Hb Hf1 Hf2. unfold Full.emit. unfold wildcardPass in *.
  destruct (getListeners_spec e w Hb) as (Hb0 & Hl0 & Hd0 & Hs0 & Hh0 & _).
  destruct (getListeners e w) as [subs w0]. cbn [fst snd] in *.
  destruct (full_run_pass_noreg fuel subs 0 args (Full.mkPass w0 [] [] [] None) Hn Hc)
    as (p1 & -> & T1 & W1 & C1 & Er1 & Rm1); [done|done|simpl; rewrite Hd0; lia|].
  cbn [mbind option_bind]. rewrite T1.
  cbn [Full.world Full.calls Full.errors Full.toRemove app] in *.
  rewrite drop_0, Hd0, Hh0 in *.
  rewrite Rm1, W1.
  set (w2 := prune e (onceHandlers (specificOf e (bus w)))
               (Full.enact behave (targets args (specificOf e (bus w))) w0)) in *.
  assert (bus_inv (bus w2)) as Hb2 by (by apply prune_inv, enact_inv).
  destruct (full_run_pass_noreg fuel (wildcardListeners (bus w2)) 0 (VStr e :: args)
              (Full.mkPass w2 (Full.errors p1) [] (Full.calls p1) None) Hn Hc)
    as (p2 & -> & T2 & W2 & C2 & Er2 & Rm2); [done| | |].
  { cbn [Full.world]. apply (inv_wild _ Hb2). }
  { cbn [Full.world]. change (deref (bus w2) (wildcardListeners (bus w2)))
      with (wildcardOf (bus w2)). lia. }
  cbn [mbind option_bind]. rewrite T2.
  cbn [Full.world Full.calls Full.errors Full.toRemove app] in *.
  change (deref (bus w2) (wildcardListeners (bus w2))) with (wildcardOf (bus w2)) in *.
  rewrite drop_0 in *.
  assert (hstate w2 = (Full.replay behave (targets args (specificOf e (bus w))) (hstate w)).2)
    as H2 by (subst w2; cbn [prune set_bus hstate]; by rewrite enact_hstate, Hh0).
  rewrite H2 in *.
  eexists. rewrite (replay_app behave). cbn [fst snd].
  split; [|split].
  - rewrite C2, C1, Er2, Er1, recorded_app. done.
  - cbn [prune set_bus hstate]. by rewrite W2, enact_hstate, H2.
  - apply prune_inv. rewrite W2. by apply enact_inv.
Qed.


End FullNoRegistration.

Lemma wildcardPass_empty {HState}
    (behave : nat → list Value → HState → list Full.Effect * Full.Completion * HState)
    e args (w : World HState) :
  bus_inv (bus w) → specificOf e (bus w) = [] →
  wildcardPass behave e args w = wildcardOf (bus w).
Proof.
  intros Hb E. unfold wildcardPass. rewrite E. unfold prune. simpl.
  destruct (getListeners_spec e w Hb) as (_ & _ & _ & Hs0 & _).
  exact (Hs0 "*").
Qed.

Lemma quiet_no_registration {HState}
    (behave : nat → list Value → HState → list Full.Effect * Full.Completion * HState) :
  Full.quiet behave → Full.no_registration behave.
Proof. intros Hq f args st. by rewrite Hq. Qed.

(** *** An emission of the awaited event *)

(** An emission of [e] that ends, made while the [k]-th [waitFor] is
    pending with its subscription registered, leaves it settled. *)
Lemma full_emit_settles {HState}
    (behave : nat → list Value → HState → list Full.Effect * Full.Completion * HState)
    k e t (allow : Prop) fuel args (w w' : World HState) r cs :
  bus_inv (bus w) → e ≠ "*" → (k < nextWait w)%nat →
  stillPending k e t w →
  Subscription.mk (Waiter k) 0 true ∈ subsOf e (bus w) →
  Full.emit behave fuel e args w = Some (w', r, cs) →
  (∀ err, r ≠ Uncaught err) →
  allow ∨ Full.patient behave k →
  waitState k e t False (λ x, x = args) allow w'.
Proof.
  intros Hb Hne Hk Hp Hin E Hr Hal.
  apply full_emit_cases in E as (p1 & E1 & H).
  destruct (getListeners_spec e w Hb) as (Hb0 & Hl0 & Hd0 & _).
  rewrite subsOf_specific in Hin by done. rewrite <- Hd0 in Hin.
  destruct H as [(err & _ & _ & -> & _)|(T1 & p2 & E2 & H)]; [by destruct (Hr err)|].
  apply (full_run_pass_settles behave k e t True (λ x, x = args) allow
           _ _ _ _ _ _ (Subscription.mk (Waiter k) 0 true)) in E1;
    [|by intros _|done|done|done|done|done|by rewrite drop_0|].
  2:{ apply getListeners_waitState. split; [done|]. left. by split. }
  apply (full_run_pass_wait behave k e t False (λ x, x = args) allow) in E2;
    [|done|done|by apply prune_waitState].
  destruct H as [(err & _ & _ & -> & _)|(_ & -> & _)]; [by destruct (Hr err)|].
  by apply prune_waitState.
Qed.

Lemma waitState_resolved {HState} k e t (A : list Value → Prop) (w : World HState) :
  waitState k e t False A False w →
  ∃ args, A args ∧ promises w !! k = Some (Fulfilled args) ∧
          timers w !! k = Some Cleared.
Proof.
  intros [_ [[[] _]|[(a & Ha & Hp & Ht)|[[] _]]]]. by exists a.
Qed.

Lemma waitFor_pending_other {HState} k e t e' t' (w : World HState) :
  bus_inv (bus w) → (k < nextWait w)%nat →
  stillPending k e t w → Subscription.mk (Waiter k) 0 true ∈ subsOf e (bus w) →
  stillPending k e t (waitFor e' t' w).1 ∧
  Subscription.mk (Waiter k) 0 true ∈ subsOf e (bus (waitFor e' t' w).1).
Proof.
  intros Hb Hk [Hp Ht] Hin. unfold stillPending. simpl.
  rewrite !lookup_insert_ne by lia. split; [done|].
  unfold EventBus.once. destruct (decide (e = e')) as [->|Hne].
  - rewrite register_subsOf, elem_of_sort. apply elem_of_app. by left.
  - by rewrite register_subsOf_ne.
Qed.

(** * The properties of the specification, on the full dispatcher *)

(** ** Failures recorded by an emission *)





(** ** The outcome of an emission *)






Lemma throwingBodies_quiet : Full.quiet throwingBodies.
Proof. intros f args st. unfold throwingBodies. by repeat (destruct f as [|f]; [done|]). Qed.

Lemma throwingBodies_convertible : Full.convertible throwingBodies.
Proof.
  intros f args st. unfold throwingBodies. by repeat (destruct f as [|f]; [done|]).
Qed.

Lemma throwingWorld_reachable : Full.reachable throwingBodies throwingWorld.
Proof.
  by exists tt, [OOn "ping" 1 10; OOn "ping" 6 5; OOn "ping" 2 1; OOn "ping" 10 0;
                 OOn "*" 9 0].
Qed.



(** The wildcard pass is read when the wildcard loop starts: a wildcard
    subscription that a handler of the event has unsubscribed meanwhile is
    not part of it.  Handler 4, on [ping], unsubscribes handler 1 from the
    wildcard name; the emission of [ping] invokes handler 4 only and
    succeeds, although handler 1 throws. *)
Example unsubscribed_before_the_wildcard_loop :
  wildcardOf (EventBus.on "*" (Fn 1) 0 (EventBus.on "ping" (Fn 4) 10 newBus))
  = [Subscription.mk (Fn 1) 0 false] ∧
  wildcardPass fullBodies "ping" []
    (set_bus (EventBus.on "*" (Fn 1) 0 (EventBus.on "ping" (Fn 4) 10 newBus))
       (newWorld tt))
  = [] ∧
  ∃ w',
    Full.emit fullBodies 5 "ping" []
      (set_bus (EventBus.on "*" (Fn 1) 0 (EventBus.on "ping" (Fn 4) 10 newBus))
         (newWorld tt))
    = Some (w', Resolved, [Full.mkCall (Fn 4) [] Full.Returns]).
Proof.
  split; [vm_compute; reflexivity|]. split; [vm_compute; reflexivity|].
  eexists. vm_compute. reflexivity.
Qed.

(** ** The race of [waitFor] on the full dispatcher *)

Lemma NumberToString_safe n : Z.abs n ≤ 2 ^ 53 → NumberToString n = pretty n.
Proof.
  intros H. unfold NumberToString.
  destruct (Z.leb_spec (Z.abs n) (2 ^ 53)); [done | lia].
Qed.

Lemma waitFor_starts {HState} e t (w : World HState) :
  waitState (nextWait w) e t True (λ _, True) True (waitFor e t w).1 ∧
  stillPending (nextWait w) e t (waitFor e t w).1 ∧
  Subscription.mk (Waiter (nextWait w)) 0 true ∈ subsOf e (bus (waitFor e t w).1).
Proof.
  assert (stillPending (nextWait w) e t (waitFor e t w).1) as Hp.
  { split; apply lookup_insert_eq. }
  split; [|split; [done|]].
  - split; [simpl; lia|]. left. by split.
  - simpl. unfold EventBus.once. rewrite register_subsOf, elem_of_sort.
    apply elem_of_app. right. by left.
Qed.

(** C7, as stated, fails in three ways.  Called with the wildcard name,
    [waitFor] resolves with the event name in front of the arguments.  When
    [removeAllListeners] has taken the one-shot subscription away, an
    emission of the event before the timer elapses does not resolve the
    future; it stays pending until the timer elapses and then fails with the
    timeout.  And when the emission starts before the timer elapses but a
    handler of higher priority is still awaited when it does, the future
    fails with the timeout although the event was emitted first. *)
Lemma waitFor_race_counterexample :
  (∃ w',
     Full.run_ops fullBodies [OWaitFor "*" 1000; OEmit 3 "*" [VNum 1]] (newWorld tt)
     = Some w' ∧
     promises w' !! 0%nat = Some (Fulfilled [VStr "*"; VNum 1])) ∧
  (∃ w' w'',
     Full.run_ops fullBodies
       [OWaitFor "done" 1000; ORemoveAll (Some "done"); OEmit 3 "done" [VStr "a"]]
       (newWorld tt) = Some w' ∧
     promises w' !! 0%nat = Some Pending ∧
     Full.run_ops fullBodies [OTimer 0] w' = Some w'' ∧
     promises w'' !! 0%nat
     = Some (Rejected (VError ("waitFor(" +:+ dquote +:+ "done" +:+ dquote
                                 +:+ ") timed out after 1000ms")))) ∧
  (∃ w',
     Full.run_ops fullBodies
       [OWaitFor "done" 1000; OOn "done" 8 10; OEmit 3 "done" [VStr "a"]]
       (newWorld tt) = Some w' ∧
     promises w' !! 0%nat
     = Some (Rejected (VError ("waitFor(" +:+ dquote +:+ "done" +:+ dquote
                                 +:+ ") timed out after 1000ms")))).
Proof.
  split; [eexists; split; [vm_compute; reflexivity | vm_compute; reflexivity]|].
  split.
  - eexists _, _. split; [vm_compute; reflexivity|].
    split; [vm_compute; reflexivity|].
    split; [vm_compute; reflexivity | vm_compute; reflexivity].
  - eexists. split; [vm_compute; reflexivity | vm_compute; reflexivity].
Qed.

(** C7 (amended): for every call [waitFor(e, T)] made in a state the bus can
    reach, the call leaves the future pending, its timer running and a
    one-shot subscription registered on [e].  Whatever is called on the bus
    afterwards, whatever the handlers do, the future is pending with the
    timer running, or resolved with the timer cancelled, or failed with a
    [Timeout] whose message is [waitFor("e") timed out after Tms] with the
    timer elapsed; it is no longer pending once the timer has elapsed, and
    once resolved or failed it never changes again: one of the two outcomes,
    never both.  While the future is pending and its one-shot subscription is
    still registered, and for [e] other than the wildcard name: an emission
    of [e] that ends without being stopped by a thrown value that has no
    string conversion, no other emission being in progress meanwhile, leaves
    the future settled; it is resolved with exactly the arguments of that
    emission and the timer is cancelled (its callback does nothing any
    more), unless the timer elapsed during the emission while a handler was
    awaited, in which case the future has failed with the [Timeout].  And
    when the timer elapses while the future is pending, the one-shot
    subscription is unregistered (unregistering again changes nothing) and
    the future fails with the [Timeout]. *)
Theorem waitFor_race {HState}
    (behave : nat → list Value → HState → list Full.Effect * Full.Completion * HState)
    e t (w : World HState) :
  Full.reachable behave w →
  let k := (waitFor e t w).2 in
  let timeout :=
    VError ("waitFor(" +:+ dquote +:+ e +:+ dquote +:+ ") timed out after "
              +:+ NumberToString t +:+ "ms") in
  stillPending k e t (waitFor e t w).1 ∧
  Subscription.mk (Waiter k) 0 true ∈ subsOf e (bus (waitFor e t w).1) ∧
  (Z.abs t ≤ 2 ^ 53 → NumberToString t = pretty t) ∧
  ∀ os w1,
    Full.run_ops behave os (waitFor e t w).1 = Some w1 →
    (stillPending k e t w1 ∨
     (∃ args, promises w1 !! k = Some (Fulfilled args) ∧ timers w1 !! k = Some Cleared) ∨
     (promises w1 !! k = Some (Rejected timeout) ∧ timers w1 !! k = Some Fired)) ∧
    (∃ q, promises (timerElapses k w1) !! k = Some q ∧ q ≠ Pending) ∧
    (∀ q os' w2,
       promises w1 !! k = Some q → q ≠ Pending →
       Full.run_ops behave os' w1 = Some w2 → promises w2 !! k = Some q) ∧
    (e ≠ "*" → stillPending k e t w1 →
     Subscription.mk (Waiter k) 0 true ∈ subsOf e (bus w1) →
     ∀ fuel args w' r cs,
       Full.emit behave fuel e args w1 = Some (w', r, cs) →
       (∀ err, r ≠ Uncaught err) →
       ((promises w' !! k = Some (Fulfilled args) ∧ timers w' !! k = Some Cleared ∧
         timerElapses k w' = w') ∨
        (promises w' !! k = Some (Rejected timeout) ∧ timers w' !! k = Some Fired)) ∧
       (Full.patient behave k →
        promises w' !! k = Some (Fulfilled args) ∧ timers w' !! k = Some Cleared ∧
        timerElapses k w' = w')) ∧
    (stillPending k e t w1 →
     promises (timerElapses k w1) !! k = Some (Rejected timeout) ∧
     timers (timerElapses k w1) !! k = Some Fired ∧
     (Waiter k ∉ (Subscription.handler <$> subsOf e (bus (timerElapses k w1)))) ∧
     subsOf e (EventBus.off e (Waiter k) (bus (timerElapses k w1)))
     = subsOf e (bus (timerElapses k w1))).
Proof.
  intros Hreach k timeout.
  destruct (waitFor_starts e t w) as (Hw0 & Hp0 & Hin0).
  split; [done|]. split; [done|].
  split; [apply NumberToString_safe|].
  intros os w1 Hos.
  assert (bus_inv (bus w1)) as Hb1.
  { eapply full_run_ops_inv; [exact Hos|]. apply waitFor_inv.
    by eapply full_reachable_inv. }
  pose proof (full_run_ops_wait behave k e t True True (λ _, True) os _ _
                (λ H, H) (λ _ _, I) Hos Hw0) as [Hk1 H1].
  split; [|split; [|split; [|split]]].
  - destruct H1 as [[_ H]|[(a & _ & H)|[_ H]]];
      [by left | right; left; by exists a | by right; right].
  - destruct H1 as [[_ H]|[(a & _ & [Hp Ht])|[_ [Hp Ht]]]].
    + destruct (timerElapses_pending k e t w1 H) as [Hrej _]. by eexists.
    + exists (Fulfilled a). split; [|done]. unfold timerElapses. by rewrite Ht.
    + eexists. split; [unfold timerElapses; rewrite Ht; exact Hp | done].
  - intros q os' w2 Hq Hne Hos'.
    destruct H1 as [[_ [Hp _]]|[(a & _ & Ha)|[_ Ht]]].
    + rewrite Hp in Hq. by injection Hq as <-.
    + assert (waitState k e t False (λ x, x = a) False w1) as Hst
        by (split; [done|]; right; left; by exists a).
      destruct (full_run_ops_wait behave k e t False False (λ x, x = a) os' _ _
                  (λ H, H) (λ H, False_ind _ H) Hos' Hst) as [_ H2].
      destruct H2 as [[[] _]|[(a' & -> & Hp2 & _)|[[] _]]].
      destruct Ha as [Hp _]. congruence.
    + assert (waitState k e t False (λ _, False) True w1) as Hst
        by (split; [done|]; right; right; by split).
      destruct (full_run_ops_wait behave k e t False True (λ _, False) os' _ _
                  (λ _, I) (λ H, False_ind _ H) Hos' Hst) as [_ H2].
      destruct H2 as [[[] _]|[(a' & [] & _)|[_ [Hp2 _]]]].
      destruct Ht as [Hp _]. congruence.
  - (* the event first *)
    intros Hne Hp Hin fuel args w' r cs E Hr.
    assert (∀ allow : Prop,
              allow ∨ Full.patient behave k →
              waitState k e t False (λ x, x = args) allow w') as Hsettled.
    { intros allow Hal.
      by apply (full_emit_settles behave k e t allow fuel args w1 w' r cs). }
    assert (∀ w0 : World HState, timers w0 !! k = Some Cleared → timerElapses k w0 = w0)
      as Hnoop.
    { intros w0 Hc. unfold timerElapses. by rewrite Hc. }
    split.
    + destruct (Hsettled True (or_introl I)) as [_ [[[] _]|[(a & -> & Hpa & Hta)|[_ Hto]]]].
      * left. split; [done|]. split; [done|]. by apply Hnoop.
      * right. exact Hto.
    + intros Hpat.
      destruct (Hsettled False (or_intror Hpat))
        as [_ [[[] _]|[(a & -> & Hpa & Hta)|[[] _]]]].
      split; [done|]. split; [done|]. by apply Hnoop.
  - (* the timer first *)
    intros Hp. destruct (timerElapses_pending k e t w1 Hp) as [Hrej Hfired].
    split; [exact Hrej|]. split; [exact Hfired|].
    destruct Hp as [_ Ht]. unfold timerElapses. rewrite Ht. cbn [bus].
    split; [apply off_without | apply off_idempotent].
Qed.

Lemma waitFor_race_witness :
  Full.reachable fullBodies (newWorld tt) ∧
  stillPending 0 "done" 1000 (waitFor "done" 1000 (newWorld tt)).1 ∧
  (∃ w' r cs,
     Full.emit fullBodies 3 "done" [VStr "a"] (waitFor "done" 1000 (newWorld tt)).1
     = Some (w', r, cs) ∧
     promises w' !! 0%nat = Some (Fulfilled [VStr "a"]) ∧
     timers w' !! 0%nat = Some Cleared) ∧
  promises (timerElapses 0 (waitFor "done" 1000 (newWorld tt)).1) !! 0%nat
  = Some (Rejected (VError ("waitFor(" +:+ dquote +:+ "done" +:+ dquote
                              +:+ ") timed out after 1000ms"))).
Proof.
  assert (Full.reachable fullBodies (newWorld tt)) as Hreach by (by exists tt, []).
  destruct (waitFor_race fullBodies "done" 1000 (newWorld tt) Hreach)
    as (Hp & Hin & _ & Hafter).
  destruct (Hafter [] _ eq_refl) as (_ & _ & _ & Hevent & Htimer).
  split; [exact Hreach|]. split; [exact Hp|]. split.
  - destruct (Full.emit fullBodies 3 "done" [VStr "a"]
                (waitFor "done" 1000 (newWorld tt)).1) as [[[w' r] cs]|] eqn:E;
      [|vm_compute in E; discriminate E].
    assert (∀ err, r ≠ Uncaught err) as Hr.
    { vm_compute in E. injection E as _ <- _. discriminate. }
    destruct (Hevent ltac:(discriminate) Hp Hin 3%nat [VStr "a"] w' r cs E Hr)
      as [[(Hf & Hc & _)|[Hrej _]] _].
    + by exists w', r, cs.
    + exfalso. vm_compute in E. injection E as <- _ _. vm_compute in Hrej.
      discriminate Hrej.
  - exact (proj1 (Htimer Hp)).
Defined.

(** ** Priority order and the wildcard name while handlers register *)

(** C4, at an input the source can receive.  Handler 6 is registered on
    [ping] at priority 1 and handler 2 on the wildcard name; the first time
    it runs, handler 6 registers handler 11 at priority 20 and handler 12 at
    priority 9 on [ping].  One emission of [ping] then invokes handler 6,
    handler 12 and handler 6 again before the wildcard handler: priorities 1,
    9 and 1, which is not the priority order, and handler 11, stored in
    front of them, is not invoked.  The iteration of a snapshot invokes
    handler 6 once.  [on] has pushed into the array that the loop iterates
    and sorted it in place, the defect shown for C2. *)
Theorem priority_order_broken_by_registration :
  (∃ w' r,
     emit reorderingBodies 5 "ping" [VNum 7]
       (set_bus (EventBus.on "*" (Fn 2) 0 (EventBus.on "ping" (Fn 6) 1 newBus))
          (newWorld false))
     = Some (w', r,
             [mkCall (Fn 6) [VNum 7] Returns; mkCall (Fn 12) [VNum 7] Returns;
              mkCall (Fn 6) [VNum 7] Returns;
              mkCall (Fn 2) [VStr "ping"; VNum 7] Returns]) ∧
     specificOf "ping" (bus w')
     = [Subscription.mk (Fn 11) 20 false; Subscription.mk (Fn 12) 9 false;
        Subscription.mk (Fn 6) 1 false]) ∧
  (snapshot_emit reorderingBodies "ping" [VNum 7]
     (set_bus (EventBus.on "*" (Fn 2) 0 (EventBus.on "ping" (Fn 6) 1 newBus))
        (newWorld false))).2
  = [mkCall (Fn 6) [VNum 7] Returns; mkCall (Fn 2) [VStr "ping"; VNum 7] Returns].
Proof.
  split; [|vm_compute; reflexivity].
  eexists _, _. split; vm_compute; reflexivity.
Qed.

(** C10, at an input the source can receive.  Handler 13 is the only
    wildcard subscriber; the first time it runs it registers handler 0 under
    the wildcard name at priority 10.  One emission of the wildcard name
    invokes handler 13 twice, each time with the wildcard name in front of
    the arguments, and does not invoke handler 0, which is stored in front
    of it; the iteration of a snapshot invokes handler 13 once.  The
    wildcard name has no entry among the named events, before and after.
    [on] has pushed into the wildcard array that the loop iterates and
    sorted it in place, the defect shown for C2. *)
Theorem wildcard_subscriber_invoked_twice :
  (∃ w' r,
     emit reorderingBodies 5 "*" [VNum 7]
       (set_bus (EventBus.on "*" (Fn 13) 0 newBus) (newWorld false))
     = Some (w', r,
             [mkCall (Fn 13) [VStr "*"; VNum 7] Returns;
              mkCall (Fn 13) [VStr "*"; VNum 7] Returns]) ∧
     wildcardOf (bus w')
     = [Subscription.mk (Fn 0) 10 false; Subscription.mk (Fn 13) 0 false] ∧
     listeners (bus w') !! "*" = None ∧
     EventBus.listenerCount "*" (bus w') = 2%nat) ∧
  EventBus.listenerCount "*" (EventBus.on "*" (Fn 13) 0 newBus) = 1%nat ∧
  listeners (EventBus.on "*" (Fn 13) 0 newBus) !! "*" = None ∧
  (snapshot_emit reorderingBodies "*" [VNum 7]
     (set_bus (EventBus.on "*" (Fn 13) 0 newBus) (newWorld false))).2
  = [mkCall (Fn 13) [VStr "*"; VNum 7] Returns].
Proof.
  split; [|split; [vm_compute; reflexivity|split; vm_compute; reflexivity]].
  eexists _, _. split; [vm_compute; reflexivity|].
  split; [vm_compute; reflexivity|]. split; vm_compute; reflexivity.
Qed.

(** ** The order of the invocations and the wildcard name *)

Lemma replay_targets {HState}
    (behave : nat → list Value → HState → list Full.Effect * Full.Completion * HState)
    ts (st : HState) :
  (λ c, (Full.callee c, Full.argv c)) <$> (Full.replay behave ts st).1 = ts.
Proof.
  revert st. induction ts as [|[h a] ts IH]; intros st; [done|].
  simpl. destruct h as [f|k]; simpl; by rewrite IH.
Qed.

Lemma replay_performed {HState}
    (behave : nat → list Value → HState → list Full.Effect * Full.Completion * HState)
    ts (st : HState) :
  Full.performed behave (Full.replay behave ts st).1 st (Full.replay behave ts st).2.
Proof.
  unfold Full.performed. rewrite replay_targets.
  by destruct (Full.replay behave ts st).
Qed.

Lemma wildcardPass_descending {HState}
    (behave : nat → list Value → HState → list Full.Effect * Full.Completion * HState)
    e args (w : World HState) :
  bus_inv (bus w) → descending (wildcardPass behave e args w).
Proof.
  intros Hb. unfold wildcardPass. apply wildcardOf_descending, prune_inv, enact_inv.
  by destruct (getListeners_spec e w Hb) as (Hb0 & _).
Qed.

(** In any state the bus can reach, while no subscription is registered and
    no handler throws a value without string conversion, an emission ends
    and its invocations are: first the handlers of the subscriptions stored
    for the event, in descending priority order and each with exactly the
    arguments; then those of the wildcard subscriptions stored when the
    wildcard loop starts, in descending priority order and each with the
    event name followed by the arguments.  Each invocation is the execution
    of the handler's body. *)
Theorem emit_order {HState}
    (behave : nat → list Value → HState → list Full.Effect * Full.Completion * HState)
    fuel e args (w : World HState) :
  Full.no_registration behave → Full.convertible behave → Full.reachable behave w →
  (length (specificOf e (bus w)) < fuel)%nat →
  (length (wildcardPass behave e args w) < fuel)%nat →
  ∃ w' r cs1 cs2,
    Full.emit behave fuel e args w = Some (w', r, cs1 ++ cs2) ∧
    (λ c, (Full.callee c, Full.argv c)) <$> cs1 = targets args (specificOf e (bus w)) ∧
    (λ c, (Full.callee c, Full.argv c)) <$> cs2
    = targets (VStr e :: args) (wildcardPass behave e args w) ∧
    descending (specificOf e (bus w)) ∧
    descending (wildcardPass behave e args w) ∧
    Full.performed behave (cs1 ++ cs2) (hstate w) (hstate w').
Proof.
  intros Hn Hc Hreach Hf1 Hf2.
  pose proof (full_reachable_inv behave w Hreach) as Hb.
  destruct (full_emit_noreg behave fuel e args w Hn Hc Hb Hf1 Hf2)
    as (w' & E & Hh & _).
  pose proof (replay_performed behave
                (targets args (specificOf e (bus w))
                   ++ targets (VStr e :: args) (wildcardPass behave e args w))
                (hstate w)) as Hp.
  rewrite <- Hh in Hp.
  rewrite (replay_app behave) in E, Hp. cbn [fst snd] in E, Hp.
  eexists w', _, _, _. split; [exact E|].
  split; [apply replay_targets|]. split; [apply replay_targets|].
  split; [by apply specificOf_descending|].
  split; [by apply wildcardPass_descending | exact Hp].
Qed.

Lemma emit_order_witness :
  Full.no_registration throwingBodies ∧ Full.convertible throwingBodies ∧
  Full.reachable throwingBodies throwingWorld ∧
  ∃ w' r cs,
    Full.emit throwingBodies 6 "ping" [VNum 7] throwingWorld = Some (w', r, cs) ∧
    (λ c, (Full.callee c, Full.argv c)) <$> cs
    = [(Fn 1, [VNum 7]); (Fn 6, [VNum 7]); (Fn 2, [VNum 7]); (Fn 10, [VNum 7]);
       (Fn 9, [VStr "ping"; VNum 7])].
Proof.
  assert (length (specificOf "ping" (bus throwingWorld)) < 6)%nat as H1
    by (vm_compute; lia).
  assert (length (wildcardPass throwingBodies "ping" [VNum 7] throwingWorld) < 6)%nat as H2
    by (vm_compute; lia).
  pose proof (quiet_no_registration _ throwingBodies_quiet) as Hn.
  split; [exact Hn|]. split; [exact throwingBodies_convertible|].
  split; [exact throwingWorld_reachable|].
  destruct (emit_order throwingBodies 6 "ping" [VNum 7] throwingWorld
              Hn throwingBodies_convertible throwingWorld_reachable H1 H2)
    as (w' & r & cs1 & cs2 & E & E1 & E2 & _).
  exists w', r, (cs1 ++ cs2). split; [exact E|].
  rewrite fmap_app, E1, E2. vm_compute. reflexivity.
Defined.

(** The wildcard name is never a key of the map of events, whatever has
    been called on the bus and whatever the handlers do: [on], [once] and
    [waitFor] with that name push into the wildcard sequence.  So the first
    loop of an emission of the wildcard name has nothing to iterate: every
    invocation of such an emission has the wildcard name in front of the
    arguments, and when no subscription is registered and no handler throws
    a value without string conversion, the emission ends and invokes the
    wildcard subscriptions stored when [emit] is called, once each and in
    their order. *)
Theorem wildcard_name_never_a_key {HState}
    (behave : nat → list Value → HState → list Full.Effect * Full.Completion * HState)
    (w : World HState) :
  Full.reachable behave w →
  listeners (bus w) !! "*" = None ∧
  (∀ fuel args w' r cs,
     Full.emit behave fuel "*" args w = Some (w', r, cs) →
     Forall (λ c, Full.argv c = VStr "*" :: args) cs) ∧
  (Full.no_registration behave → Full.convertible behave →
   ∀ fuel args,
     (length (wildcardOf (bus w)) < fuel)%nat →
     ∃ w' r cs,
       Full.emit behave fuel "*" args w = Some (w', r, cs) ∧
       (λ c, (Full.callee c, Full.argv c)) <$> cs
       = targets (VStr "*" :: args) (wildcardOf (bus w))).
Proof.
  intros Hreach. pose proof (full_reachable_inv behave w Hreach) as Hb.
  split; [apply (inv_star _ Hb)|]. split.
  - intros fuel args w' r cs E.
    apply full_emit_cases in E as (p1 & E1 & H).
    assert (p1 = Full.mkPass (getListeners "*" w).2 [] [] [] None) as ->.
    { destruct fuel as [|fuel]; [done|]. rewrite full_run_pass_S in E1.
      destruct (getListeners_spec "*" w Hb) as (_ & _ & Hd0 & _).
      cbn [Full.world] in E1.
      rewrite Hd0, (specificOf_star _ Hb) in E1. simpl in E1. congruence. }
    destruct H as [(err & T & _)|(_ & p2 & E2 & H)]; [done|].
    apply full_run_pass_calls in E2 as (cs2 & C2 & F2 & _); [|done].
    simpl in C2.
    assert (cs = Full.calls p2) as ->
      by (destruct H as [(err & _ & _ & _ & ->)|(_ & _ & _ & ->)]; done).
    by rewrite C2.
  - intros Hn Hc fuel args Hf.
    assert (wildcardPass behave "*" args w = wildcardOf (bus w)) as HW
      by (apply wildcardPass_empty; [done | by apply specificOf_star]).
    destruct (full_emit_noreg behave fuel "*" args w Hn Hc Hb) as (w' & E & _).
    { rewrite (specificOf_star _ Hb). simpl. lia. }
    { by rewrite HW. }
    rewrite HW, (specificOf_star _ Hb) in E. simpl in E.
    eexists w', _, _. split; [exact E|]. apply replay_targets.
Qed.

Lemma wildcard_name_never_a_key_witness :
  Full.reachable throwingBodies throwingWorld ∧
  listeners (bus throwingWorld) !! "*" = None ∧
  ∃ w' r cs,
    Full.emit throwingBodies 2 "*" [VNum 7] throwingWorld = Some (w', r, cs) ∧
    (λ c, (Full.callee c, Full.argv c)) <$> cs = [(Fn 9, [VStr "*"; VNum 7])].
Proof.
  pose proof throwingWorld_reachable as Hreach.
  destruct (wildcard_name_never_a_key throwingBodies throwingWorld Hreach)
    as (Hkey & _ & Hemit).
  split; [exact Hreach|]. split; [exact Hkey|].
  destruct (Hemit (quiet_no_registration _ throwingBodies_quiet)
              throwingBodies_convertible 2%nat [VNum 7])
    as (w' & r & cs & E & Hcs); [vm_compute; lia|].
  exists w', r, cs. split; [exact E|]. rewrite Hcs. vm_compute. reflexivity.
Defined.

(** ** [removeAllListeners] without a name *)

(** Without argument, and with the empty string (which is falsy, so that the
    test of line 140 fails), [removeAllListeners] removes every subscription:
    those of all events and the wildcard ones, so that every count is 0 and
    the map of events is empty.  An emission of any event then invokes no
    handler and succeeds, whatever the handlers are. *)
Theorem removeAllListeners_everything {HState}
    (behave : nat → list Value → HState → list Full.Effect * Full.Completion * HState)
    ev (w : World HState) :
  ev = None ∨ ev = Some EmptyString →
  (∀ e, subsOf e (EventBus.removeAllListeners ev (bus w)) = [] ∧
        EventBus.listenerCount e (EventBus.removeAllListeners ev (bus w)) = 0%nat) ∧
  listeners (EventBus.removeAllListeners ev (bus w)) = ∅ ∧
  ∀ fuel e args,
    ∃ w',
      Full.emit behave (S fuel) e args
        (set_bus (EventBus.removeAllListeners ev (bus w)) w)
      = Some (w', Resolved, []) ∧
      ∀ e', subsOf e' (bus w') = [].
Proof.
  intros Hev.
  assert (EventBus.removeAllListeners ev (bus w)
          = set_wildcardListeners (nextLoc (bus w))
              (alloc [] (set_listeners ∅ (bus w))).2) as ->.
  { by destruct Hev as [-> | ->]. }
  assert (∀ e, subsOf e (set_wildcardListeners (nextLoc (bus w))
                           (alloc [] (set_listeners ∅ (bus w))).2) = []) as Hsubs.
  { intros e. unfold subsOf, wildcardOf, specificOf, deref. simpl.
    case_decide; [by rewrite lookup_total_insert_eq | done]. }
  split; [|split; [done|]].
  { intros e. split; [done|]. by rewrite listenerCount_subsOf, Hsubs. }
  intros fuel e args. eexists. split.
  - unfold Full.emit, getListeners. simpl.
    rewrite lookup_empty. simpl. unfold deref. simpl.
    rewrite lookup_total_insert_eq. simpl.
    rewrite lookup_total_insert_ne by lia. rewrite lookup_total_insert_eq. simpl.
    reflexivity.
  - intros e'. unfold subsOf, wildcardOf, specificOf, deref, prune. simpl.
    case_decide; [|done].
    rewrite lookup_total_insert_ne by lia. by rewrite lookup_total_insert_eq.
Qed.

Lemma removeAllListeners_everything_witness :
  (Some EmptyString = None ∨ Some EmptyString = Some EmptyString) ∧
  0%nat ≠ EventBus.listenerCount "ping" (bus pingWorld) ∧
  subsOf "ping" (EventBus.removeAllListeners (Some EmptyString) (bus pingWorld)) = [] ∧
  subsOf "*" (EventBus.removeAllListeners (Some EmptyString) (bus pingWorld)) = [] ∧
  ∃ w',
    Full.emit throwingBodies 1 "ping" []
      (set_bus (EventBus.removeAllListeners (Some EmptyString) (bus pingWorld)) pingWorld)
    = Some (w', Resolved, []).
Proof.
  assert (Some EmptyString = None ∨ Some EmptyString = Some EmptyString) as H
    by (by right).
  destruct (removeAllListeners_everything throwingBodies _ pingWorld H)
    as (Hsubs & _ & Hemit).
  split; [exact H|]. split; [by vm_compute|].
  split; [exact (proj1 (Hsubs "ping"))|]. split; [exact (proj1 (Hsubs "*"))|].
  destruct (Hemit 0%nat "ping" []) as (w' & E & _). by exists w'.
Defined.

(** ** What an emission leaves in the registry *)

(** When nothing else happens on the bus during an emission of [e] (no
    handler calls the bus while it is awaited, no timer of [waitFor]
    elapses) and no handler throws a value without string conversion, the
    emission ends and leaves no once-subscription, neither under [e] nor
    under the wildcard name: each has had its one invocation and has been
    pruned (lines 85-87, 102-104).  A subscription of [e] survives exactly
    when its handler has no once-subscription on [e]. *)
Theorem emit_prunes_every_once {HState}
    (behave : nat → list Value → HState → list Full.Effect * Full.Completion * HState)
    fuel e args (w : World HState) :
  Full.quiet behave → Full.convertible behave → bus_inv (bus w) →
  (length (specificOf e (bus w)) < fuel)%nat →
  (length (wildcardOf (bus w)) < fuel)%nat →
  ∃ w' r cs,
    Full.emit behave fuel e args w = Some (w', r, cs) ∧
    (∀ err, r ≠ Uncaught err) ∧
    (∀ s, s ∈ subsOf e (bus w') → Subscription.once s = false) ∧
    (∀ s, s ∈ wildcardOf (bus w') → Subscription.once s = false) ∧
    (∀ s, s ∈ subsOf e (bus w') ↔
          s ∈ subsOf e (bus w) ∧
          Subscription.handler s ∉ onceHandlers (subsOf e (bus w))).
Proof.
  intros Hq Hc Hb Hf1 Hf2.
  destruct (full_emit_quiet behave fuel e args w Hq Hc Hb Hf1 Hf2)
    as (w' & E & _ & _ & HW & HS).
  eexists w', _, _. split; [exact E|].
  split; [intros err; unfold outcome; by case_decide|].
  assert (subsOf e (bus w')
          = filter (λ s, Subscription.handler s ∉ onceHandlers (subsOf e (bus w)))
              (subsOf e (bus w))) as Hsub.
  { unfold subsOf. case_decide; [done | by apply HS]. }
  split; [|split].
  - intros s Hs. rewrite Hsub in Hs. by eapply pruned_once_free.
  - intros s Hs. rewrite HW in Hs. by eapply pruned_once_free.
  - intros s. rewrite Hsub, list_elem_of_filter. tauto.
Qed.

Lemma emit_prunes_every_once_witness :
  Full.quiet throwingBodies ∧ Full.convertible throwingBodies ∧
  ∃ w' r cs,
    Full.emit throwingBodies 4 "ping" []
      (set_bus (EventBus.once "ping" (Fn 3) 5 (bus pingWorld)) pingWorld)
    = Some (w', r, cs) ∧
    Subscription.handler <$> subsOf "ping" (bus w') = [Fn 1; Fn 0].
Proof.
  split; [exact throwingBodies_quiet|]. split; [exact throwingBodies_convertible|].
  set (w := set_bus (EventBus.once "ping" (Fn 3) 5 (bus pingWorld)) pingWorld).
  assert (bus_inv (bus w)) as Hb by exact (register_inv _ _ _ _ _ pingWorld_inv).
  assert (length (specificOf "ping" (bus w)) < 4)%nat as H1 by (vm_compute; lia).
  assert (length (wildcardOf (bus w)) < 4)%nat as H2 by (vm_compute; lia).
  destruct (emit_prunes_every_once throwingBodies 4 "ping" [] w
              throwingBodies_quiet throwingBodies_convertible Hb H1 H2)
    as (w' & r & cs & E & _ & _ & _ & _).
  exists w', r, cs. split; [exact E|].
  vm_compute in E. injection E as <- _ _. by vm_compute.
Defined.

(** ** An emission that does not end *)

Lemma full_run_pass_diverges {HState}
    (behave : nat → list Value → HState → list Full.Effect * Full.Completion * HState)
    e arr args fuel :
  e ≠ "*" → Full.convertible behave →
  (∀ f a s, ∃ g p, (behave f a s).1.1 = [Full.Does (AOn e (Fn g) p)]) →
  ∀ i (st : Full.Pass HState),
    bus_inv (bus (Full.world st)) →
    listeners (bus (Full.world st)) !! e = Some arr →
    (∃ s f, s ∈ drop i (deref (bus (Full.world st)) arr) ∧ Subscription.handler s = Fn f) →
    Full.run_pass behave fuel arr i args st = None.
Proof.
  intros He Hc Hreg. induction fuel as [|fuel IH]; intros i st Hb Harr (s & f & Hs & Hf);
    [done|].
  rewrite full_run_pass_S.
  destruct (deref (bus (Full.world st)) arr !! i) as [sub|] eqn:E.
  2:{ apply lookup_ge_None in E. rewrite drop_ge in Hs by done.
      by apply elem_of_nil in Hs. }
  rewrite (drop_S _ _ _ E) in Hs.
  destruct (full_pass_step_cases behave args st sub)
    as [(T & _)|(_ & Rb & _)].
  2:{ exfalso. by eapply full_invoke_convertible. }
  rewrite T.
  pose proof (full_pass_step_world behave args st sub) as Ew.
  destruct (Subscription.handler sub) as [f0|k] eqn:Hsub.
  - (* the handler under the iterator registers on [e] *)
    destruct (Hreg f0 args (hstate (Full.world st))) as (g & p & Hacts).
    assert (bus (Full.world (Full.pass_step behave args st sub))
            = EventBus.on e (Fn g) p (bus (Full.world st))) as Hbus.
    { rewrite Ew. simpl.
      destruct (behave f0 args (hstate (Full.world st))) as [[acts out] s']. simpl in *.
      by subst acts. }
    assert (EventBus.on e (Fn g) p (bus (Full.world st))
            = push_sort arr (Subscription.mk (Fn g) p false) (bus (Full.world st))) as Hon.
    { unfold EventBus.on, EventBus.register. rewrite decide_False by done.
      by rewrite Harr. }
    apply IH.
    + rewrite Hbus. unfold EventBus.on. by apply register_inv.
    + by rewrite Hbus, Hon.
    + rewrite Hbus, Hon. unfold push_sort. rewrite deref_store, decide_True by done.
      rewrite sort_push by apply (inv_sorted _ Hb).
      destruct (place_keeps_or_adds (Subscription.mk (Fn g) p false) sub i
                  (deref (bus (Full.world st)) arr)) as [H|H]; [done| |].
      * by exists sub, f0.
      * by exists (Subscription.mk (Fn g) p false), g.
  - (* the closure of a [waitFor] leaves the bus alone *)
    assert (bus (Full.world (Full.pass_step behave args st sub)) = bus (Full.world st))
      as Hbus by (by rewrite Ew).
    apply IH; rewrite ?Hbus; try done.
    exists s, f. split; [|done].
    apply elem_of_cons in Hs as [->|Hs]; [congruence | done].
Qed.

(** When every handler, each time it runs, does one thing on the bus and
    nothing else, namely register a handler by [on] on the event [e], which
    is not the wildcard name, and when no handler throws a value without
    string conversion, an emission of [e] that finds a handler subscribed
    never ends: each registration pushes into the array under iteration
    (lines 25-26), so the iterator of line 74 always finds one more
    element. *)
Theorem emit_diverges {HState}
    (behave : nat → list Value → HState → list Full.Effect * Full.Completion * HState)
    e args (w : World HState) :
  bus_inv (bus w) → e ≠ "*" → Full.convertible behave →
  (∀ f a s, ∃ g p, (behave f a s).1.1 = [Full.Does (AOn e (Fn g) p)]) →
  (∃ s f, s ∈ specificOf e (bus w) ∧ Subscription.handler s = Fn f) →
  ∀ fuel, Full.emit behave fuel e args w = None.
Proof.
  intros Hb He Hc Hreg (s & f & Hs & Hf) fuel. unfold Full.emit, getListeners.
  unfold specificOf in Hs.
  destruct (listeners (bus w) !! e) as [arr|] eqn:Harr;
    [|by apply elem_of_nil in Hs].
  rewrite (full_run_pass_diverges behave e arr args fuel He Hc Hreg); [done|done|done|].
  exists s, f. by rewrite drop_0.
Qed.

Lemma emit_diverges_witness :
  bus_inv (bus pingWorld) ∧ "ping" ≠ "*" ∧
  Full.convertible (lift selfRegisteringBodies) ∧
  (∃ s f, s ∈ specificOf "ping" (bus pingWorld) ∧ Subscription.handler s = Fn f) ∧
  Full.emit (lift selfRegisteringBodies) 1000 "ping" [] pingWorld = None.
Proof.
  assert ("ping" ≠ "*") as Hne by discriminate.
  assert (Full.convertible (lift selfRegisteringBodies)) as Hc by (by intros f a s).
  assert (∃ s f, s ∈ specificOf "ping" (bus pingWorld) ∧ Subscription.handler s = Fn f)
    as Hin.
  { exists (Subscription.mk (Fn 1) 10 false), 1%nat. split; [|done].
    vm_compute. by left. }
  split; [exact pingWorld_inv|]. split; [exact Hne|]. split; [exact Hc|].
  split; [exact Hin|].
  apply (emit_diverges (lift selfRegisteringBodies) "ping" [] pingWorld pingWorld_inv
           Hne Hc); [|exact Hin].
  intros f a s. by exists f, 0.
Defined.

(** ** Several [waitFor] on one event *)

(** Two consecutive [waitFor] on one event [e], which is not the wildcard
    name, are two one-shot subscriptions.  The next emission of [e], when
    during it no subscription is registered, no handler throws a value
    without string conversion, neither of the two timers elapses and no
    other emission is in progress, ends and fulfils both promises, each with
    the arguments of that emission, and clears both timers. *)
Theorem waitFor_twice {HState}
    (behave : nat → list Value → HState → list Full.Effect * Full.Completion * HState)
    fuel e t1 t2 args (w : World HState) :
  Full.no_registration behave → Full.convertible behave →
  Full.patient behave (waitFor e t1 w).2 →
  Full.patient behave (waitFor e t2 (waitFor e t1 w).1).2 →
  bus_inv (bus w) → e ≠ "*" →
  (length (specificOf e (bus (waitFor e t2 (waitFor e t1 w).1).1)) < fuel)%nat →
  (length (wildcardPass behave e args (waitFor e t2 (waitFor e t1 w).1).1) < fuel)%nat →
  (waitFor e t1 w).2 ≠ (waitFor e t2 (waitFor e t1 w).1).2 ∧
  EventBus.listenerCount e (bus (waitFor e t2 (waitFor e t1 w).1).1)
  = S (S (EventBus.listenerCount e (bus w))) ∧
  ∃ w' r cs,
    Full.emit behave fuel e args (waitFor e t2 (waitFor e t1 w).1).1 = Some (w', r, cs) ∧
    promises w' !! (waitFor e t1 w).2 = Some (Fulfilled args) ∧
    timers w' !! (waitFor e t1 w).2 = Some Cleared ∧
    promises w' !! (waitFor e t2 (waitFor e t1 w).1).2 = Some (Fulfilled args) ∧
    timers w' !! (waitFor e t2 (waitFor e t1 w).1).2 = Some Cleared.
Proof.
  intros Hn Hc Hp1 Hp2 Hb He Hf1 Hf2.
  set (w1 := (waitFor e t1 w).1) in *. set (w2 := (waitFor e t2 w1).1) in *.
  assert (bus_inv (bus w1)) as Hb1 by by apply waitFor_inv.
  assert (bus_inv (bus w2)) as Hb2 by by apply waitFor_inv.
  destruct (waitFor_starts e t1 w) as (_ & Hs1 & Hin1). fold w1 in Hs1, Hin1.
  destruct (waitFor_starts e t2 w1) as (_ & Hs2 & Hin2). fold w2 in Hs2, Hin2.
  destruct (waitFor_pending_other (nextWait w) e t1 e t2 w1 Hb1) as [Hs1' Hin1'];
    [simpl; lia | done | done |]. fold w2 in Hs1', Hin1'.
  split; [simpl; lia|]. split.
  { unfold w2, w1. simpl. unfold EventBus.once.
    rewrite !listenerCount_subsOf, !register_subsOf, !sort_perm, !length_app.
    simpl. lia. }
  destruct (full_emit_noreg behave fuel e args w2 Hn Hc Hb2 Hf1 Hf2) as (w' & E & _).
  eexists w', _, _. split; [exact E|].
  assert (∀ err,
            outcome (Full.recorded
                       (Full.replay behave
                          (targets args (specificOf e (bus w2))
                             ++ targets (VStr e :: args) (wildcardPass behave e args w2))
                          (hstate w2)).1) e ≠ Uncaught err) as Hr.
  { intros err. unfold outcome. by case_decide. }
  destruct (waitState_resolved _ _ _ _ _
              (full_emit_settles behave (nextWait w) e t1 False fuel args w2 w' _ _
                 Hb2 He ltac:(simpl; lia) Hs1' Hin1' E Hr (or_intror Hp1)))
    as (a1 & -> & Hpa1 & Hta1).
  destruct (waitState_resolved _ _ _ _ _
              (full_emit_settles behave (nextWait w1) e t2 False fuel args w2 w' _ _
                 Hb2 He ltac:(simpl; lia) Hs2 Hin2 E Hr (or_intror Hp2)))
    as (a2 & -> & Hpa2 & Hta2).
  done.
Qed.

Lemma throwingBodies_patient k : Full.patient throwingBodies k.
Proof.
  intros f args st. rewrite throwingBodies_quiet. apply not_elem_of_nil.
Qed.

Lemma waitFor_twice_witness :
  Full.no_registration throwingBodies ∧ Full.convertible throwingBodies ∧
  bus_inv (bus pingWorld) ∧ "done" ≠ "*" ∧
  ∃ w' r cs,
    Full.emit throwingBodies 3 "done" [VStr "value"]
      (waitFor "done" 5000 (waitFor "done" 5000 pingWorld).1).1 = Some (w', r, cs) ∧
    promises w' !! 0%nat = Some (Fulfilled [VStr "value"]) ∧
    timers w' !! 0%nat = Some Cleared ∧
    promises w' !! 1%nat = Some (Fulfilled [VStr "value"]) ∧
    timers w' !! 1%nat = Some Cleared.
Proof.
  assert ("done" ≠ "*") as Hne by discriminate.
  pose proof (quiet_no_registration _ throwingBodies_quiet) as Hn.
  assert (length (specificOf "done"
            (bus (waitFor "done" 5000 (waitFor "done" 5000 pingWorld).1).1)) < 3)%nat
    as H1 by (vm_compute; lia).
  assert (length (wildcardPass throwingBodies "done" [VStr "value"]
            (waitFor "done" 5000 (waitFor "done" 5000 pingWorld).1).1) < 3)%nat
    as H2 by (vm_compute; lia).
  split; [exact Hn|]. split; [exact throwingBodies_convertible|].
  split; [exact pingWorld_inv|]. split; [exact Hne|].
  exact (proj2 (proj2 (waitFor_twice throwingBodies 3 "done" 5000 5000 [VStr "value"]
                         pingWorld Hn throwingBodies_convertible
                         (throwingBodies_patient _) (throwingBodies_patient _)
                         pingWorld_inv Hne H1 H2))).
Defined.

(** * Further properties: the state machine *)

(** ** What a call leaves of the machine *)

Lemma find_existsb {A} (f : A → bool) (l : list A) :
  List.find f l = None ↔ existsb f l = false.
Proof.
  induction l as [|x l IH]; simpl; [done|].
  destruct (f x); simpl; [split; discriminate|exact IH].
Qed.

Lemma find_elem_of {A} (f : A → bool) (l : list A) (x : A) :
  List.find f l = Some x → x ∈ l ∧ f x = true.
Proof.
  intros H. apply find_some in H as [H1 H2].
  split; [by apply list_elem_of_In|done].
Qed.

Lemma matches_from (m : StateMachine.t) (ev : string) (r : StateMachine.TransitionRule) :
  StateMachine.matches m ev r = true →
  StateMachine.from r = StateMachine.current m ∧ StateMachine.event r = ev ∧
  StateMachine.guardPasses m r = true.
Proof.
  unfold StateMachine.matches. intros H.
  apply andb_prop in H as [H Hg]. apply andb_prop in H as [Hf He].
  apply String.eqb_eq in Hf, He. done.
Qed.

(** The machine after [transition]: untouched, or moved along a rule that
    matches. *)
Lemma transition_machine (ev : string) (m : StateMachine.t) :
  StateMachine.machine (StateMachine.transition ev m).1 = m ∨
  ∃ r, r ∈ StateMachine.transitions m ∧ StateMachine.matches m ev r = true ∧
       StateMachine.machine (StateMachine.transition ev m).1 = StateMachine.moved r m.
Proof.
  unfold StateMachine.transition.
  destruct (List.find _ _) as [r|] eqn:F; [|by left].
  apply find_elem_of in F as [Hin Hm]. cbv zeta.
  destruct (StateMachine.callHook (StateMachine.onExit _) _ _); [|by left].
  right. exists r. split; [done|]. split; [done|].
  by destruct (StateMachine.callHook (StateMachine.onEnter _) _ _).
Qed.

Lemma transition_returned (ev : string) (m m' : StateMachine.t) (s : string) :
  (StateMachine.transition ev m).1 = StateMachine.Returned s m' →
  ∃ r, r ∈ StateMachine.transitions m ∧ StateMachine.matches m ev r = true ∧
       s = StateMachine.to r ∧ m' = StateMachine.moved r m.
Proof.
  unfold StateMachine.transition.
  destruct (List.find _ _) as [r|] eqn:F; [|discriminate].
  apply find_elem_of in F as [Hin Hm]. cbv zeta.
  destruct (StateMachine.callHook (StateMachine.onExit _) _ _); [|discriminate].
  destruct (StateMachine.callHook (StateMachine.onEnter _) _ _); [|discriminate].
  intros [= <- <-]. by exists r.
Qed.

(** A rule for the invariants of the machine. *)
Section MachineInvariant.

Variable P : StateMachine.t → Prop.
Hypothesis P_moved : ∀ m ev r,
  P m → r ∈ StateMachine.transitions m → StateMachine.matches m ev r = true →
  P (StateMachine.moved r m).
Hypothesis P_undo : ∀ m s m', P m → StateMachine.undo m = StateMachine.Returned s m' → P m'.
Hypothesis P_reset : ∀ m initial, P m → P (StateMachine.reset initial m).
Hypothesis P_setContext : ∀ m update, P m → P (StateMachine.setContext update m).

Lemma invariant_run_op (o : StateMachine.Op) (m : StateMachine.t) :
  P m → P (StateMachine.run_op o m).
Proof.
  intros H. destruct o as [ev| |initial|update]; simpl.
  - destruct (transition_machine ev m) as [->|(r & Hin & Hm & ->)]; eauto.
  - destruct (StateMachine.undo m) as [s m'|err m'] eqn:U; simpl; [eauto|].
    unfold StateMachine.undo in U. destruct (last _); [discriminate|].
    by injection U as _ <-.
  - by apply P_reset.
  - by apply P_setContext.
Qed.

Lemma invariant_run_ops (os : list StateMachine.Op) (m : StateMachine.t) :
  P m → P (StateMachine.run_ops os m).
Proof.
  unfold StateMachine.run_ops. revert m.
  induction os as [|o os IH]; intros m H; simpl; [done|].
  apply IH. by apply invariant_run_op.
Qed.

End MachineInvariant.

(** ** The bound of the history *)

Lemma remember_length (p : string) (m : StateMachine.t) :
  Z.of_nat (length (StateMachine.history m)) ≤ Z.max 0 (StateMachine.maxHistory m) →
  Z.of_nat (length (StateMachine.remember p m)) ≤ Z.max 0 (StateMachine.maxHistory m).
Proof.
  intros H. unfold StateMachine.remember. cbv zeta.
  destruct (Z.ltb_spec (StateMachine.maxHistory m)
              (Z.of_nat (length (StateMachine.history m ++ [p])))) as [L|L].
  - destruct (StateMachine.history m) as [|x h]; simpl in *; [lia|].
    rewrite length_app. simpl. rewrite length_app in L. simpl in L. lia.
  - lia.
Qed.

Lemma undo_returned (m m' : StateMachine.t) (s : string) :
  StateMachine.undo m = StateMachine.Returned s m' →
  ∃ h, StateMachine.history m = h ++ [s] ∧
       m' = StateMachine.mk s (StateMachine.transitions m) h (StateMachine.maxHistory m)
              (StateMachine.context m) (StateMachine.hooks m).
Proof.
  unfold StateMachine.undo.
  destruct (last (StateMachine.history m)) as [p|] eqn:L; [|discriminate].
  apply last_Some in L as [h L]. intros [= <- <-]. exists h. split; [done|].
  rewrite L. by rewrite removelast_last.
Qed.

Lemma run_ops_bounded (os : list StateMachine.Op) (m : StateMachine.t) (k : Z) :
  StateMachine.maxHistory m = k →
  Z.of_nat (length (StateMachine.history m)) ≤ Z.max 0 k →
  StateMachine.maxHistory (StateMachine.run_ops os m) = k ∧
  Z.of_nat (length (StateMachine.history (StateMachine.run_ops os m))) ≤ Z.max 0 k.
Proof.
  intros Hk Hb.
  apply (invariant_run_ops
           (λ m, StateMachine.maxHistory m = k ∧
                 Z.of_nat (length (StateMachine.history m)) ≤ Z.max 0 k)); [| | | |done].
  - intros m0 ev r [E B] _ _. split; [done|]. simpl. rewrite <- E.
    apply remember_length. by rewrite E.
  - intros m0 s m' [E B] U. apply undo_returned in U as (h & Hh & ->). simpl.
    split; [done|]. rewrite Hh, length_app in B. simpl in B. lia.
  - intros m0 initial [E B]. simpl. split; [done|]. lia.
  - intros m0 update [E B]. done.
Qed.

(** Whatever calls of [transition], [undo], [reset] and [setContext] follow
    the constructor, [maxHistory] keeps the value it was created with (50
    when the option is left out) and the history never holds more than
    [maxHistory] states, none at all when [maxHistory] is zero or negative
    (lines 696-699: one [push], then one [shift] when over the bound). *)
Theorem history_bounded (os : list StateMachine.Op) (initial : string)
    (rules : list StateMachine.TransitionRule) (optMaxHistory : option Z)
    (optContext : option (gmap string Value))
    (optHooks : option StateMachine.LifecycleHooks) :
  let m := StateMachine.run_ops os
             (StateMachine.create initial rules optMaxHistory optContext optHooks) in
  StateMachine.maxHistory m = default 50 optMaxHistory ∧
  Z.of_nat (length (StateMachine.history m)) ≤ Z.max 0 (default 50 optMaxHistory).
Proof.
  cbv zeta. apply run_ops_bounded; [done|]. simpl. lia.
Qed.

(** A machine created with [maxHistory] zero or negative cannot undo: after
    any calls, [undo] throws [No history to undo] and leaves the machine as
    it is, also right after a transition that returned (lines 697-699 drop
    the state just pushed, lines 709-712 find nothing to pop). *)
Theorem undo_needs_history (os : list StateMachine.Op) (initial : string)
    (rules : list StateMachine.TransitionRule) (k : Z)
    (optContext : option (gmap string Value))
    (optHooks : option StateMachine.LifecycleHooks) :
  k ≤ 0 →
  let m := StateMachine.run_ops os
             (StateMachine.create initial rules (Some k) optContext optHooks) in
  StateMachine.undo m = StateMachine.Threw (VError "No history to undo") m.
Proof.
  intros Hk m.
  destruct (run_ops_bounded os
              (StateMachine.create initial rules (Some k) optContext optHooks) k)
    as [_ B]; [done|simpl; lia|].
  fold m in B. unfold StateMachine.undo.
  destruct (StateMachine.history m) as [|x h]; [done|]. simpl in B. lia.
Qed.

Lemma undo_needs_history_witness :
  StateMachine.transition "FETCH" (StateMachine.create "idle" fetchRules (Some 0) None None)
  = (StateMachine.Returned "loading"
       (StateMachine.run_ops [StateMachine.OTransition "FETCH"]
          (StateMachine.create "idle" fetchRules (Some 0) None None)), []) ∧
  StateMachine.undo
    (StateMachine.run_ops [StateMachine.OTransition "FETCH"]
       (StateMachine.create "idle" fetchRules (Some 0) None None))
  = StateMachine.Threw (VError "No history to undo")
      (StateMachine.run_ops [StateMachine.OTransition "FETCH"]
         (StateMachine.create "idle" fetchRules (Some 0) None None)).
Proof.
  split; [vm_compute; reflexivity|].
  apply (undo_needs_history [StateMachine.OTransition "FETCH"] "idle" fetchRules 0 None None).
  lia.
Defined.

(** ** The events the machine accepts *)

Lemma uniq_spec (l seen : list string) (x : string) :
  x ∈ uniq seen l ↔ x ∈ l ∧ x ∉ seen.
Proof.
  revert seen. induction l as [|y l IH]; intros seen; simpl.
  - split; [by intros ?%elem_of_nil|by intros [?%elem_of_nil _]].
  - destruct (decide (y ∈ seen)) as [Hy|Hy].
    + rewrite IH, elem_of_cons. split; [intros [? ?]; by split; [right|]|].
      intros [[->|?] ?]; done.
    + rewrite !elem_of_cons, IH, elem_of_cons.
      destruct (decide (x = y)) as [->|Hxy]; [tauto|].
      split; [intros [?|[? ?]]; [done|]; split; [by right|tauto]|].
      intros [[?|?] ?]; [done|]. right. split; [done|]. intros [?|?]; done.
Qed.

Lemma uniq_NoDup (l seen : list string) : NoDup (uniq seen l).
Proof.
  revert seen. induction l as [|y l IH]; intros seen; simpl; [constructor|].
  destruct (decide (y ∈ seen)); [apply IH|].
  constructor; [|apply IH].
  rewrite uniq_spec, elem_of_cons. intros [_ []]. by left.
Qed.

Lemma canTransition_spec (ev : string) (m : StateMachine.t) :
  StateMachine.canTransition ev m = true ↔
  ∃ r, r ∈ StateMachine.transitions m ∧ StateMachine.matches m ev r = true.
Proof.
  unfold StateMachine.canTransition. rewrite existsb_exists.
  split; intros (r & H1 & H2); exists r; (split; [by apply list_elem_of_In|done]).
Qed.

Lemma getAvailableEvents_spec (ev : string) (m : StateMachine.t) :
  ev ∈ StateMachine.getAvailableEvents m ↔
  ∃ r, r ∈ StateMachine.transitions m ∧ StateMachine.matches m ev r = true.
Proof.
  unfold StateMachine.getAvailableEvents.
  rewrite uniq_spec, list_elem_of_In, in_map_iff.
  split.
  - intros [(r & He & Hr) _]. apply filter_In in Hr as [Hr Hl].
    exists r. split; [by apply list_elem_of_In|].
    unfold StateMachine.matches, StateMachine.leaves in *.
    apply andb_prop in Hl as [-> ->]. simpl. rewrite He. by rewrite String.eqb_refl.
  - intros (r & Hr & Hm). split; [|by intros ?%elem_of_nil].
    apply matches_from in Hm as (Hf & He & Hg).
    exists r. split; [done|]. apply filter_In. split; [by apply list_elem_of_In|].
    unfold StateMachine.leaves. rewrite Hf, Hg. by rewrite String.eqb_refl.
Qed.

(** [canTransition] (lines 653-660) says yes to exactly the events that
    [getAvailableEvents] (lines 662-674) lists, and that list names no event
    twice. *)
Theorem canTransition_available (ev : string) (m : StateMachine.t) :
  (StateMachine.canTransition ev m = true ↔ ev ∈ StateMachine.getAvailableEvents m) ∧
  NoDup (StateMachine.getAvailableEvents m).
Proof.
  split; [|apply uniq_NoDup].
  by rewrite canTransition_spec, getAvailableEvents_spec.
Qed.

(** An event that [getAvailableEvents] does not list is refused by
    [transition] (lines 684-690): it throws the error whose message names the
    event, the current state and the available events, calls no hook and
    leaves the machine as it was. *)
Theorem transition_refused (ev : string) (m : StateMachine.t) :
  ev ∉ StateMachine.getAvailableEvents m →
  StateMachine.transition ev m
  = (StateMachine.Threw (VError (StateMachine.noTransitionMessage ev m)) m, []).
Proof.
  intros H. unfold StateMachine.transition.
  destruct (List.find _ _) as [r|] eqn:F; [|done].
  apply find_elem_of in F. destruct H. apply getAvailableEvents_spec. by exists r.
Qed.

Lemma transition_refused_witness :
  ("RESOLVE" ∉ StateMachine.getAvailableEvents fetchMachine) ∧
  StateMachine.transition "RESOLVE" fetchMachine
  = (StateMachine.Threw
       (VError ("No valid transition for event " +:+ dquote +:+ "RESOLVE" +:+ dquote
                  +:+ " from state " +:+ dquote +:+ "idle" +:+ dquote
                  +:+ ". Available events: [FETCH]")) fetchMachine, []).
Proof.
  assert ("RESOLVE" ∉ StateMachine.getAvailableEvents fetchMachine) as H by by_compute.
  split; [exact H|]. exact (transition_refused "RESOLVE" fetchMachine H).
Defined.

(** ** The rule a transition takes *)

Lemma find_first {A} (f : A → bool) (pre post : list A) (x : A) :
  Forall (λ y, f y = false) pre → f x = true →
  List.find f (pre ++ x :: post) = Some x.
Proof.
  intros Hpre Hx. induction Hpre as [|y pre Hy _ IH]; simpl; [by rewrite Hx|].
  by rewrite Hy.
Qed.

(** When several rules match, [transition] takes the first one of the table
    (the [find] of line 677): with no matching rule before [r] and hooks that
    return, the machine moves to [r.to], whatever rules follow [r]. *)
Theorem first_rule_wins (ev : string) (m : StateMachine.t)
    (pre post : list StateMachine.TransitionRule) (r : StateMachine.TransitionRule) :
  StateMachine.transitions m = pre ++ r :: post →
  Forall (λ r', StateMachine.matches m ev r' = false) pre →
  StateMachine.matches m ev r = true →
  StateMachine.callHook (StateMachine.onExit (StateMachine.hooks m))
    (StateMachine.current m) (StateMachine.to r) = Returns →
  StateMachine.callHook (StateMachine.onEnter (StateMachine.hooks m))
    (StateMachine.to r) (StateMachine.current m) = Returns →
  (StateMachine.transition ev m).1
  = StateMachine.Returned (StateMachine.to r) (StateMachine.moved r m).
Proof.
  intros Ht Hpre Hr Hx He. unfold StateMachine.transition.
  rewrite Ht, (find_first _ pre post r Hpre Hr). cbv zeta.
  by rewrite Hx, He.
Qed.

Lemma first_rule_wins_witness :
  StateMachine.canTransition "ENTER" doorMachine = true ∧
  (StateMachine.transition "ENTER"
     (StateMachine.setContext {["vip" := VBool true]} doorMachine)).1
  = StateMachine.Returned "lounge"
      (StateMachine.moved (StateMachine.mkRule "lobby" "lounge" "ENTER" (Some isVip))
         (StateMachine.setContext {["vip" := VBool true]} doorMachine)).
Proof.
  split; [vm_compute; reflexivity|].
  apply (first_rule_wins "ENTER"
           (StateMachine.setContext {["vip" := VBool true]} doorMachine) []
           (tail doorRules) (StateMachine.mkRule "lobby" "lounge" "ENTER" (Some isVip)));
    [reflexivity | constructor | vm_compute; reflexivity
    | vm_compute; reflexivity | vm_compute; reflexivity].
Defined.

(** ** A transition that throws *)

(** A [transition] that throws is not always without effect.  Either the
    machine is as it was and [onEnter] was not called (no rule matched, or
    [onExit] threw, line 694), or [onEnter] threw (line 703): it was the last
    hook called, and by then the machine has moved to the new state and
    pushed the previous one on its history (lines 696-701). *)
Theorem transition_throws (ev : string) (m m' : StateMachine.t) (err : Value)
    (calls : list StateMachine.HookCall) :
  StateMachine.transition ev m = (StateMachine.Threw err m', calls) →
  (m' = m ∧ ∀ state previous, StateMachine.Enter state previous ∉ calls) ∨
  (∃ r, r ∈ StateMachine.transitions m ∧ StateMachine.matches m ev r = true ∧
        m' = StateMachine.moved r m ∧
        last calls = Some (StateMachine.Enter (StateMachine.to r) (StateMachine.current m)) ∧
        StateMachine.callHook (StateMachine.onEnter (StateMachine.hooks m))
          (StateMachine.to r) (StateMachine.current m) = Throws err).
Proof.
  unfold StateMachine.transition.
  destruct (List.find _ _) as [r|] eqn:F.
  2:{ intros [= <- <- <-]. left. split; [done|]. intros ?? ?%elem_of_nil. done. }
  apply find_elem_of in F as [Hin Hm]. cbv zeta.
  destruct (StateMachine.callHook (StateMachine.onExit _) _ _) as [|e1] eqn:X.
  - destruct (StateMachine.callHook (StateMachine.onEnter _) _ _) as [|e2] eqn:E;
      [discriminate|].
    intros [= <- <- <-]. right. exists r. repeat (split; [done|]).
    split; [|done].
    destruct (StateMachine.onEnter (StateMachine.hooks m)); [|discriminate].
    by rewrite last_snoc.
  - intros [= <- <- <-]. left. split; [done|].
    intros state previous H. destruct (StateMachine.onExit _).
    + apply list_elem_of_singleton in H. discriminate.
    + by apply elem_of_nil in H.
Qed.

Lemma transition_throws_witness :
  StateMachine.transition "ENTER" doorMachine
  = (StateMachine.Threw (VError "hall is closed")
       (StateMachine.moved (StateMachine.mkRule "lobby" "hall" "ENTER" None) doorMachine),
     [StateMachine.Exit "lobby" "hall"; StateMachine.Enter "hall" "lobby"]) ∧
  ((StateMachine.moved (StateMachine.mkRule "lobby" "hall" "ENTER" None) doorMachine
    = doorMachine ∧
    ∀ state previous,
      StateMachine.Enter state previous
      ∉ [StateMachine.Exit "lobby" "hall"; StateMachine.Enter "hall" "lobby"]) ∨
   (∃ r, r ∈ StateMachine.transitions doorMachine ∧
         StateMachine.matches doorMachine "ENTER" r = true ∧
         StateMachine.moved (StateMachine.mkRule "lobby" "hall" "ENTER" None) doorMachine
         = StateMachine.moved r doorMachine ∧
         last [StateMachine.Exit "lobby" "hall"; StateMachine.Enter "hall" "lobby"]
         = Some (StateMachine.Enter (StateMachine.to r) (StateMachine.current doorMachine)) ∧
         StateMachine.callHook (StateMachine.onEnter (StateMachine.hooks doorMachine))
           (StateMachine.to r) (StateMachine.current doorMachine)
         = Throws (VError "hall is closed"))).
Proof.
  assert (StateMachine.transition "ENTER" doorMachine
          = (StateMachine.Threw (VError "hall is closed")
               (StateMachine.moved (StateMachine.mkRule "lobby" "hall" "ENTER" None)
                  doorMachine),
             [StateMachine.Exit "lobby" "hall"; StateMachine.Enter "hall" "lobby"]))
    as T by (vm_compute; reflexivity).
  split; [exact T|]. exact (transition_throws _ _ _ _ _ T).
Defined.

(** ** Transitions and [undo] *)

Lemma undo_moved (r : StateMachine.TransitionRule) (m : StateMachine.t) :
  Z.of_nat (length (StateMachine.history m)) < StateMachine.maxHistory m →
  StateMachine.undo (StateMachine.moved r m)
  = StateMachine.Returned (StateMachine.current m) m.
Proof.
  intros H. unfold StateMachine.undo, StateMachine.moved, StateMachine.remember.
  cbn [StateMachine.history StateMachine.current StateMachine.transitions
       StateMachine.maxHistory StateMachine.context StateMachine.hooks].
  destruct (Z.ltb_spec (StateMachine.maxHistory m)
              (Z.of_nat (length (StateMachine.history m ++ [StateMachine.current m]))))
    as [L|L].
  { rewrite length_app in L. simpl in L. lia. }
  rewrite last_snoc, removelast_last. by destruct m.
Qed.

Lemma undoN_snoc (n : nat) (m m1 m2 : StateMachine.t) (s : string) :
  StateMachine.undoN n m = Some m1 →
  StateMachine.undo m1 = StateMachine.Returned s m2 →
  StateMachine.undoN (S n) m = Some m2.
Proof.
  revert m. induction n as [|n IH]; intros m H U.
  - injection H as <-. simpl. by rewrite U.
  - change (StateMachine.undoN (S n) m) with
      (match StateMachine.undo m with
       | StateMachine.Returned _ m' => StateMachine.undoN n m'
       | StateMachine.Threw _ _ => None
       end) in H.
    change (StateMachine.undoN (S (S n)) m) with
      (match StateMachine.undo m with
       | StateMachine.Returned _ m' => StateMachine.undoN (S n) m'
       | StateMachine.Threw _ _ => None
       end).
    destruct (StateMachine.undo m) as [s' m'|]; [|discriminate]. by apply IH.
Qed.

(** Transitions that return, then as many [undo]: when the history has room
    for all of them, the machine is back to what it was, history
    included. *)
Theorem transitions_then_undos (evs : list string) (m m' : StateMachine.t) :
  StateMachine.transitionAll evs m = Some m' →
  Z.of_nat (length (StateMachine.history m) + length evs) ≤ StateMachine.maxHistory m →
  StateMachine.undoN (length evs) m' = Some m.
Proof.
  revert m. induction evs as [|ev evs IH]; intros m H B.
  - injection H as <-. done.
  - simpl in H.
    destruct (StateMachine.transition ev m).1 as [s m1|] eqn:T; [|discriminate].
    apply transition_returned in T as (r & _ & _ & _ & ->).
    assert (Z.of_nat (length (StateMachine.history m)) < StateMachine.maxHistory m)
      as L by (simpl in B; lia).
    assert (StateMachine.history (StateMachine.moved r m)
            = StateMachine.history m ++ [StateMachine.current m]) as Hh.
    { simpl. unfold StateMachine.remember. cbv zeta.
      destruct (Z.ltb_spec (StateMachine.maxHistory m)
                  (Z.of_nat (length (StateMachine.history m ++ [StateMachine.current m]))))
        as [L'|L']; [|done].
      rewrite length_app in L'. simpl in L'. lia. }
    apply (undoN_snoc _ _ (StateMachine.moved r m) _ (StateMachine.current m)).
    + apply IH; [done|]. rewrite Hh, length_app. simpl in *. lia.
    + by apply undo_moved.
Qed.

Lemma transitions_then_undos_witness :
  ∃ m', StateMachine.transitionAll ["FETCH"; "REJECT"; "RETRY"; "RESOLVE"] fetchMachine
        = Some m' ∧
        StateMachine.current m' = "success" ∧
        StateMachine.undoN 4 m' = Some fetchMachine.
Proof.
  destruct (StateMachine.transitionAll ["FETCH"; "REJECT"; "RETRY"; "RESOLVE"] fetchMachine)
    as [m'|] eqn:T; [|vm_compute in T; discriminate T].
  exists m'. split; [reflexivity|]. split.
  - vm_compute in T. by injection T as <-.
  - apply (transitions_then_undos ["FETCH"; "REJECT"; "RETRY"; "RESOLVE"] fetchMachine m' T).
    vm_compute. discriminate.
Defined.

(** ** The history is a walk through the table *)

Lemma walk_app_l (rules : list StateMachine.TransitionRule) (l1 l2 : list string) :
  walk rules (l1 ++ l2) → walk rules l1.
Proof.
  induction l1 as [|a [|b l1] IH]; simpl; [done..|].
  intros [E W]. split; [done|]. by apply IH.
Qed.

Lemma walk_tail (rules : list StateMachine.TransitionRule) (l : list string) :
  walk rules l → walk rules (tail l).
Proof. destruct l as [|a [|b l]]; simpl; [done..|]. by intros [_ ?]. Qed.

Lemma walk_snoc (rules : list StateMachine.TransitionRule) (l : list string)
    (a b : string) :
  walk rules (l ++ [a]) → edge rules a b → walk rules ((l ++ [a]) ++ [b]).
Proof.
  intros W E. induction l as [|x [|y l] IH]; simpl in *; [done| |].
  - destruct W as [W _]. done.
  - destruct W as [W1 W2]. split; [done|]. by apply IH.
Qed.

Lemma run_ops_walk (os : list StateMachine.Op) (m : StateMachine.t)
    (rules : list StateMachine.TransitionRule) :
  StateMachine.transitions m = rules → walk rules (trail m) →
  StateMachine.transitions (StateMachine.run_ops os m) = rules ∧
  walk rules (trail (StateMachine.run_ops os m)).
Proof.
  intros Hr Hw.
  apply (invariant_run_ops
           (λ m, StateMachine.transitions m = rules ∧ walk rules (trail m)));
    [| | | |done].
  - intros m0 ev r [E W] Hin Hm. split; [done|].
    apply matches_from in Hm as (Hf & _ & _).
    assert (walk rules ((StateMachine.history m0 ++ [StateMachine.current m0])
                          ++ [StateMachine.to r])) as W'.
    { apply walk_snoc; [done|]. exists r. by rewrite <- E. }
    unfold trail, StateMachine.moved, StateMachine.remember.
    cbn [StateMachine.history StateMachine.current].
    destruct (_ <? _); [|done].
    apply walk_tail in W'.
    by destruct (StateMachine.history m0).
  - intros m0 s m' [E W] U. apply undo_returned in U as (h & Hh & ->).
    split; [done|]. unfold trail in *. simpl. rewrite Hh in W.
    by apply walk_app_l in W.
  - intros m0 initial [E W]. done.
  - intros m0 update [E W]. done.
Qed.

(** The table of rules never changes, and the history followed by the
    current state is a walk through it since the last [reset] (or the
    construction): each state is followed by one that some rule leads to from
    it.  [undo] steps back along the walk, the [shift] of line 698 forgets its
    start. *)
Theorem history_is_walk (os : list StateMachine.Op) (initial : string)
    (rules : list StateMachine.TransitionRule) (optMaxHistory : option Z)
    (optContext : option (gmap string Value))
    (optHooks : option StateMachine.LifecycleHooks) :
  let m := StateMachine.run_ops os
             (StateMachine.create initial rules optMaxHistory optContext optHooks) in
  StateMachine.transitions m = rules ∧ walk rules (trail m).
Proof. cbv zeta. by apply run_ops_walk. Qed.

(** ** The context *)

(** Two calls of [setContext] (lines 645-647) amount to one call with the two
    updates merged, the keys of the later update taking precedence. *)
Theorem setContext_twice (u1 u2 : gmap string Value) (m : StateMachine.t) :
  StateMachine.setContext u2 (StateMachine.setContext u1 m)
  = StateMachine.setContext (u2 ∪ u1) m.
Proof.
  unfold StateMachine.setContext. simpl. by rewrite (assoc_L (∪)).
Qed.

(** * Further properties: [clamp] *)

(** For integers with [min <= max], [clamp] (lines 583-586) returns a number
    between the bounds: the value itself when it is between them, [min] when
    it is below, [max] when it is above. *)
Theorem clamp_within_bounds (v lo hi : Z) :
  lo ≤ hi →
  ∃ z, clamp (Int v) (Int lo) (Int hi) = inr (Int z) ∧ lo ≤ z ≤ hi ∧
       (lo ≤ v ≤ hi → z = v) ∧ (v < lo → z = lo) ∧ (hi < v → z = hi).
Proof.
  intros H. exists (Z.min (Z.max v lo) hi). unfold clamp. simpl.
  destruct (Z.ltb_spec hi lo); [lia|]. split; [done|]. lia.
Qed.

Lemma clamp_within_bounds_witness :
  ∃ z, clamp (Int 15) (Int 0) (Int 10) = inr (Int z) ∧ 0 ≤ z ≤ 10 ∧
       (0 ≤ 15 ≤ 10 → z = 15) ∧ (15 < 0 → z = 0) ∧ (10 < 15 → z = 10).
Proof. apply (clamp_within_bounds 15 0 10). lia. Defined.

(** A bound that is NaN switches off both the check of line 584 and the
    clamping: [clamp] does not throw and returns NaN, whatever the value and
    the other bound. *)
Theorem clamp_NaN_bound (v lo hi : Num) :
  lo = NaN ∨ hi = NaN → clamp v lo hi = inr NaN.
Proof.
  intros [-> | ->]; [by destruct v, hi|by destruct v, lo].
Qed.

Lemma clamp_NaN_bound_witness : clamp (Int 5) NaN (Int 10) = inr NaN.
Proof. apply (clamp_NaN_bound (Int 5) NaN (Int 10)). by left. Defined.

(** [clamp] is idempotent: what it returns is returned unchanged when
    clamped again between the same bounds, NaN included. *)
Theorem clamp_idempotent (v lo hi r : Num) :
  clamp v lo hi = inr r → clamp r lo hi = inr r.
Proof.
  unfold clamp. destruct (num_gt lo hi); [discriminate|]. intros [= <-]. f_equal.
  destruct v, lo, hi; simpl; try done. f_equal. lia.
Qed.

Lemma clamp_idempotent_witness :
  clamp (Int 15) (Int 0) (Int 10) = inr (Int 10) ∧
  clamp (Int 10) (Int 0) (Int 10) = inr (Int 10).
Proof.
  split; [reflexivity|].
  apply (clamp_idempotent (Int 15) (Int 0) (Int 10) (Int 10)). reflexivity.
Defined.

(** * Further properties: the searchable list *)

Lemma handleKeyDown_filtered (k : SearchableList.Key) (st : SearchableList.State) :
  SearchableList.filtered (SearchableList.handleKeyDown k st).1
  = SearchableList.filtered st.
Proof.
  destruct k; simpl; try done.
  by destruct (_ && _).
Qed.

Lemma input_filtered (i : SearchableList.Input) (st : SearchableList.State) :
  SearchableList.filtered (SearchableList.input i st).1 = SearchableList.filtered st.
Proof. destruct i; [apply handleKeyDown_filtered|done]. Qed.

Lemma inputs_cons (i : SearchableList.Input) (l : list SearchableList.Input)
    (st : SearchableList.State) :
  SearchableList.inputs (i :: l) st
  = ((SearchableList.inputs l (SearchableList.input i st).1).1,
     (SearchableList.input i st).2
       ++ (SearchableList.inputs l (SearchableList.input i st).1).2).
Proof.
  simpl. destruct (SearchableList.input i st) as [st1 sel1]. simpl.
  by destruct (SearchableList.inputs l st1).
Qed.

Lemma inputs_filtered (l : list SearchableList.Input) (st : SearchableList.State) :
  SearchableList.filtered (SearchableList.inputs l st).1 = SearchableList.filtered st.
Proof.
  revert st. induction l as [|i l IH]; intros st; [done|].
  rewrite inputs_cons. cbn [fst]. by rewrite IH, input_filtered.
Qed.

Lemma enabledItems_filtered (st st' : SearchableList.State) :
  SearchableList.filtered st' = SearchableList.filtered st →
  SearchableList.enabledItems st' = SearchableList.enabledItems st.
Proof. unfold SearchableList.enabledItems. by intros ->. Qed.

Lemma enabledItems_spec (st : SearchableList.State)
    (item : SearchableList.SearchableListItem) :
  item ∈ SearchableList.enabledItems st ↔
  item ∈ SearchableList.filtered st ∧ SearchableList.disabled item = false.
Proof.
  unfold SearchableList.enabledItems.
  rewrite !list_elem_of_In, filter_In, negb_true_iff. done.
Qed.

Lemma input_selects (i : SearchableList.Input) (st : SearchableList.State)
    (item : SearchableList.SearchableListItem) :
  item ∈ (SearchableList.input i st).2 →
  item ∈ SearchableList.filtered st ∧ SearchableList.disabled item = false.
Proof.
  destruct i as [k|index]; simpl.
  - destruct k; simpl; try by intros ?%elem_of_nil.
    destruct (_ && _); simpl; [|by intros ?%elem_of_nil].
    destruct (_ !! _) as [x|] eqn:L; [|by intros ?%elem_of_nil].
    intros ->%list_elem_of_singleton. apply enabledItems_spec.
    by eapply list_elem_of_lookup_2.
  - unfold SearchableList.onClick.
    destruct (_ !! _) as [x|] eqn:L; [|by intros ?%elem_of_nil].
    destruct (SearchableList.disabled x) eqn:D; [by intros ?%elem_of_nil|].
    intros ->%list_elem_of_singleton. split; [|done].
    by eapply list_elem_of_lookup_2.
Qed.

(** Whatever keys are pressed and whatever items are clicked, from any state,
    [onSelect] only ever receives items of the filtered list that are not
    disabled: [Enter] picks among the enabled items (lines 204 and 225-226),
    a click checks the item (lines 309-311). *)
Theorem never_selects_disabled (l : list SearchableList.Input)
    (st : SearchableList.State) (item : SearchableList.SearchableListItem) :
  item ∈ (SearchableList.inputs l st).2 →
  item ∈ SearchableList.filtered st ∧ SearchableList.disabled item = false.
Proof.
  revert st. induction l as [|i l IH]; intros st.
  - by intros ?%elem_of_nil.
  - rewrite inputs_cons. cbn [snd]. intros [H|H]%elem_of_app.
    + by apply (input_selects i).
    + apply IH in H. by rewrite input_filtered in H.
Qed.

Lemma never_selects_disabled_witness :
  (SearchableList.inputs
     [SearchableList.KeyDown SearchableList.ArrowDown;
      SearchableList.KeyDown SearchableList.ArrowDown;
      SearchableList.KeyDown SearchableList.Enter;
      SearchableList.Click 1]
     (SearchableList.initial fruits)).2
  = [SearchableList.mkItem "3" "Cherry" None false] ∧
  (SearchableList.mkItem "3" "Cherry" None false ∈ fruits ∧
   SearchableList.disabled (SearchableList.mkItem "3" "Cherry" None false) = false).
Proof.
  split; [vm_compute; reflexivity|].
  apply (never_selects_disabled
           [SearchableList.KeyDown SearchableList.ArrowDown;
            SearchableList.KeyDown SearchableList.ArrowDown;
            SearchableList.KeyDown SearchableList.Enter;
            SearchableList.Click 1]
           (SearchableList.initial fruits)).
  vm_compute. apply list_elem_of_here.
Defined.

(** ** The active index *)

Lemma handleKeyDown_activeIndex (k : SearchableList.Key) (st : SearchableList.State) :
  -1 ≤ SearchableList.activeIndex st
     < Z.max 1 (Z.of_nat (length (SearchableList.enabledItems st))) →
  -1 ≤ SearchableList.activeIndex (SearchableList.handleKeyDown k st).1
     < Z.max 1 (Z.of_nat (length (SearchableList.enabledItems st))).
Proof.
  intros H. destruct k; simpl; try done.
  - destruct (Z.leb_spec (Z.of_nat (length (SearchableList.enabledItems st)))
                (SearchableList.activeIndex st + 1)); lia.
  - destruct (Z.ltb_spec (SearchableList.activeIndex st - 1) 0); lia.
  - by destruct (_ && _).
Qed.

(** From the first render on, keys and clicks leave the filtered list alone
    and keep [activeIndex] at -1 or at the position of an enabled item.  The
    one exception is a list with no enabled item, where [ArrowDown] sets it
    to 0 (line 211). *)
Theorem activeIndex_in_range (l : list SearchableList.Input)
    (items : list SearchableList.SearchableListItem) :
  let st := (SearchableList.inputs l (SearchableList.initial items)).1 in
  SearchableList.filtered st = items ∧
  -1 ≤ SearchableList.activeIndex st
     < Z.max 1 (Z.of_nat (length (SearchableList.enabledItems st))).
Proof.
  cbv zeta. split; [by rewrite inputs_filtered|].
  assert (∀ st, -1 ≤ SearchableList.activeIndex st
                   < Z.max 1 (Z.of_nat (length (SearchableList.enabledItems st))) →
                -1 ≤ SearchableList.activeIndex (SearchableList.inputs l st).1
                   < Z.max 1 (Z.of_nat (length (SearchableList.enabledItems
                                                  (SearchableList.inputs l st).1)))) as G.
  { induction l as [|i l IH]; intros st H; [done|].
    rewrite inputs_cons. cbn [fst]. apply IH.
    destruct i as [k|index]; [|done]. simpl.
    rewrite (enabledItems_filtered st) by apply handleKeyDown_filtered.
    by apply handleKeyDown_activeIndex. }
  apply G. simpl. lia.
Qed.

(** On an active item, [ArrowDown] and [ArrowUp] undo each other, in both
    orders and across the wrap-around of lines 211 and 219. *)
Theorem arrows_are_inverse (st : SearchableList.State) :
  0 ≤ SearchableList.activeIndex st
    < Z.of_nat (length (SearchableList.enabledItems st)) →
  (SearchableList.handleKeyDown SearchableList.ArrowUp
     (SearchableList.handleKeyDown SearchableList.ArrowDown st).1).1 = st ∧
  (SearchableList.handleKeyDown SearchableList.ArrowDown
     (SearchableList.handleKeyDown SearchableList.ArrowUp st).1).1 = st.
Proof.
  intros H. destruct st as [q f a].
  unfold SearchableList.handleKeyDown, SearchableList.enabledItems in *.
  cbn [SearchableList.filtered SearchableList.activeIndex SearchableList.query fst] in *.
  set (n := Z.of_nat (length (List.filter _ f))) in *.
  split; f_equal.
  - destruct (Z.leb_spec n (a + 1)).
    + destruct (Z.ltb_spec (0 - 1) 0); lia.
    + destruct (Z.ltb_spec (a + 1 - 1) 0); lia.
  - destruct (Z.ltb_spec (a - 1) 0).
    + destruct (Z.leb_spec n (n - 1 + 1)); lia.
    + destruct (Z.leb_spec n (a - 1 + 1)); lia.
Qed.

Lemma arrows_are_inverse_witness :
  (SearchableList.handleKeyDown SearchableList.ArrowUp
     (SearchableList.handleKeyDown SearchableList.ArrowDown
        (SearchableList.mkState EmptyString fruits 1)).1).1
  = SearchableList.mkState EmptyString fruits 1 ∧
  (SearchableList.handleKeyDown SearchableList.ArrowDown
     (SearchableList.handleKeyDown SearchableList.ArrowUp
        (SearchableList.mkState EmptyString fruits 1)).1).1
  = SearchableList.mkState EmptyString fruits 1.
Proof.
  apply (arrows_are_inverse (SearchableList.mkState EmptyString fruits 1)).
  vm_compute. split; [discriminate|reflexivity].
Defined.

(** ** Going round the list *)

Lemma arrowDown_step (q : string) (f : list SearchableList.SearchableListItem) (a : Z) :
  let n := Z.of_nat (length (List.filter (λ i, negb (SearchableList.disabled i)) f)) in
  0 ≤ a < n →
  (SearchableList.handleKeyDown SearchableList.ArrowDown (SearchableList.mkState q f a)).1
  = SearchableList.mkState q f ((a + 1) mod n).
Proof.
  intros n H.
  unfold SearchableList.handleKeyDown, SearchableList.enabledItems.
  cbn [SearchableList.filtered SearchableList.activeIndex SearchableList.query fst].
  fold n. f_equal.
  destruct (Z.leb_spec n (a + 1)).
  - replace (a + 1) with n by lia. by rewrite Z.mod_same by lia.
  - by rewrite Z.mod_small by lia.
Qed.

Lemma arrowDown_steps (k : nat) (q : string)
    (f : list SearchableList.SearchableListItem) (a : Z) :
  let n := Z.of_nat (length (List.filter (λ i, negb (SearchableList.disabled i)) f)) in
  0 ≤ a < n →
  SearchableList.inputs (replicate k (SearchableList.KeyDown SearchableList.ArrowDown))
    (SearchableList.mkState q f a)
  = (SearchableList.mkState q f ((a + Z.of_nat k) mod n), []).
Proof.
  intros n. revert a. induction k as [|k IH]; intros a H.
  - simpl. rewrite Z.add_0_r, Z.mod_small by lia. done.
  - change (replicate (S k) ?x) with (x :: replicate k x).
    rewrite inputs_cons.
    change (SearchableList.input (SearchableList.KeyDown SearchableList.ArrowDown) ?s)
      with (SearchableList.handleKeyDown SearchableList.ArrowDown s).
    rewrite arrowDown_step by done. fold n. cbn [fst snd].
    rewrite IH by (apply Z.mod_pos_bound; lia).
    simpl. f_equal. f_equal.
    rewrite Zplus_mod_idemp_l. f_equal. lia.
Qed.

(** On an active item, pressing [ArrowDown] as many times as there are
    enabled items comes back to that item, and selects nothing on the
    way. *)
Theorem arrowDown_goes_round (st : SearchableList.State) :
  0 ≤ SearchableList.activeIndex st
    < Z.of_nat (length (SearchableList.enabledItems st)) →
  SearchableList.inputs
    (replicate (length (SearchableList.enabledItems st))
       (SearchableList.KeyDown SearchableList.ArrowDown)) st
  = (st, []).
Proof.
  intros H. destruct st as [q f a]. unfold SearchableList.enabledItems in *.
  cbn [SearchableList.filtered SearchableList.activeIndex] in *.
  rewrite arrowDown_steps by done. f_equal. f_equal.
  set (n := Z.of_nat (length (List.filter _ f))) in *.
  replace (a + n) with (a + 1 * n) by lia.
  rewrite Z.mod_add by lia. apply Z.mod_small. done.
Qed.

Lemma arrowDown_goes_round_witness :
  SearchableList.inputs
    (replicate 2 (SearchableList.KeyDown SearchableList.ArrowDown))
    (SearchableList.mkState "a" fruits 1)
  = (SearchableList.mkState "a" fruits 1, []).
Proof.
  apply (arrowDown_goes_round (SearchableList.mkState "a" fruits 1)).
  vm_compute. split; [discriminate|reflexivity].
Defined.
